(** * curl-agent: a retrieval-augmented chat assistant

    A shallow embedding of the three classes of the repository

      - [SitemapParser]  (sitemapParser.js): the URL index and its search,
      - [WebScraper]     (webScraper.js):    the page fetcher and its cache,
      - [RAGChatbot]     (chatbot.js):       tool dispatch, the retrying model
                                             call and the conversation loop,

    followed by the properties of the specification that were checked
    against them.  [Overlap] is the scraper seen one step at a time,
    [Spec] the scoring rule in the words of the specification, and
    [Scenario] the concrete data of the examples.

    Conventions of the embedding.
      - JavaScript strings are [string]s of 8-bit characters; [toLowerCase]
        acts on the letters A-Z and [toUpperCase] on the letters a-z, as
        they do on ASCII text.
      - JavaScript numbers that hold counters and scores are [Z] or [nat].
      - An [async] method is a state transformer on the [World]; a thrown
        exception or rejected promise is the [Throw] case of [Res].
      - Everything the program learns from outside (the replies of the chat
        completion endpoint, the pages of the web site, the order in which
        concurrent requests finish, [JSON.parse]) is read from an [Env].
      - The calls into the process ([chat], [resetConversation], the
        methods of the scraper) follow one another; the only requests
        that overlap are those of one batch of [fetchMultiplePages].
      - The [World] also counts the requests sent and keeps a [trace] of
        requests and waits; the program has no such fields, they are
        there to state what a call did. *)

From Stdlib Require Import ZArith String Ascii List Lia Bool DecimalString.
From stdpp Require Import base list sorting gmap strings.
From Equations Require Import Equations.

Local Open Scope string_scope.
Local Open Scope list_scope.
Local Open Scope Z_scope.

(** ** JavaScript strings *)

Module Js.

Definition is_upper (c : ascii) : bool :=
  let n := nat_of_ascii c in (65 <=? n)%nat && (n <=? 90)%nat.

Definition lower_char (c : ascii) : ascii :=
  if is_upper c then ascii_of_nat (nat_of_ascii c + 32) else c.

(** [String.prototype.toLowerCase] *)
Fixpoint toLowerCase (s : string) : string :=
  match s with
  | EmptyString => EmptyString
  | String c s' => String (lower_char c) (toLowerCase s')
  end.

(** [String.prototype.startsWith] *)
Fixpoint startsWith (s sub : string) : bool :=
  match sub, s with
  | EmptyString, _ => true
  | String a sub', String b s' => if Ascii.eqb a b then startsWith s' sub' else false
  | String _ _, EmptyString => false
  end.

(** [String.prototype.includes]: [sub] occurs somewhere in [s]. *)
Fixpoint includes (s sub : string) : bool :=
  startsWith s sub ||
  match s with
  | EmptyString => false
  | String _ s' => includes s' sub
  end.

(** [String.prototype.split] with a one-character separator.  The result
    is never empty: the empty string splits into one empty piece, and two
    adjacent separators enclose an empty piece. *)
Fixpoint split (sep : ascii) (s : string) : list string :=
  match s with
  | EmptyString => [EmptyString]
  | String c s' =>
      if Ascii.eqb c sep then EmptyString :: split sep s'
      else match split sep s' with
           | w :: ws => String c w :: ws
           | [] => [String c EmptyString]
           end
  end.

(** [String.prototype.substring(0, n)] *)
Definition substring0 (n : nat) (s : string) : string := String.substring 0 n s.

Definition is_space (c : ascii) : bool :=
  let n := nat_of_ascii c in ((n =? 32) || ((9 <=? n) && (n <=? 13)))%nat.

Fixpoint trimStart (s : string) : string :=
  match s with
  | EmptyString => EmptyString
  | String c s' => if is_space c then trimStart s' else s
  end.

Fixpoint trimEnd (s : string) : string :=
  match s with
  | EmptyString => EmptyString
  | String c s' =>
      match trimEnd s' with
      | EmptyString => if is_space c then EmptyString else String c EmptyString
      | t => String c t
      end
  end.

(** [String.prototype.trim] *)
Definition trim (s : string) : string := trimEnd (trimStart s).

(** [Array.prototype.slice(0, end)]: a negative [end] counts from the
    back of the array. *)
Definition slice0 {A} (end_ : Z) (l : list A) : list A :=
  let len := Z.of_nat (length l) in
  let k := if end_ <? 0 then Z.max (len + end_) 0 else Z.min end_ len in
  take (Z.to_nat k) l.

(** [Array.prototype.slice(-n)]: the last [n] elements. *)
Definition slice_last {A} (n : nat) (l : list A) : list A :=
  drop (length l - n) l.

(** [Array.prototype.sort(cmp)].  The sort is stable, and [cmp a b > 0]
    places [a] after [b]; for a consistent comparator this determines the
    result, which insertion from the right computes. *)
Fixpoint insert_by {A} (cmp : A -> A -> Z) (x : A) (l : list A) : list A :=
  match l with
  | [] => [x]
  | y :: l' => if 0 <? cmp x y then y :: insert_by cmp x l' else x :: y :: l'
  end.

Definition sort {A} (cmp : A -> A -> Z) (l : list A) : list A :=
  foldr (insert_by cmp) [] l.

(** The comparator [(a, b) => key(b) - key(a)]. *)
Definition descending {A} (key : A -> Z) (a b : A) : Z := key b - key a.

Definition is_lower (c : ascii) : bool :=
  let n := nat_of_ascii c in (97 <=? n)%nat && (n <=? 122)%nat.

Definition upper_char (c : ascii) : ascii :=
  if is_lower c then ascii_of_nat (nat_of_ascii c - 32) else c.

(** The characters of ASCII. *)
Definition is_ascii (c : ascii) : bool := (nat_of_ascii c <? 128)%nat.

(** [word.charAt(0).toUpperCase() + word.slice(1)], for a word that
    begins with a character of ASCII: there [toUpperCase] changes the
    letters a-z and nothing else. *)
Definition capitalize (word : string) : string :=
  match word with
  | EmptyString => EmptyString
  | String c rest => String (upper_char c) rest
  end.

(** [Array.prototype.join] with a one-character separator. *)
Fixpoint join (sep : ascii) (l : list string) : string :=
  match l with
  | [] => EmptyString
  | [w] => w
  | w :: (_ :: _) as rest => w +:+ String sep (join sep rest)
  end.

(** [s.replace(/c/g, by)]: every occurrence of the character replaced. *)
Fixpoint replaceAll (c : ascii) (by_ : string) (s : string) : string :=
  match s with
  | EmptyString => EmptyString
  | String d s' =>
      if Ascii.eqb d c then by_ +:+ replaceAll c by_ s'
      else String d (replaceAll c by_ s')
  end.

(** [s.slice(n)] for [n >= 0] *)
Fixpoint dropChars (n : nat) (s : string) : string :=
  match n, s with
  | O, _ => s
  | S n', String _ s' => dropChars n' s'
  | S _, EmptyString => EmptyString
  end.

(** [s.replace(pattern, '')] with a string pattern: the first occurrence
    of the pattern is removed, if there is one. *)
Fixpoint removeFirst (pattern : string) (s : string) : string :=
  if startsWith s pattern then dropChars (String.length pattern) s
  else match s with
       | EmptyString => EmptyString
       | String c s' => String c (removeFirst pattern s')
       end.

(** Every character of [s] passes the test. *)
Fixpoint allChars (ok : ascii -> bool) (s : string) : bool :=
  match s with
  | EmptyString => true
  | String c s' => ok c && allChars ok s'
  end.

End Js.

(** ** sitemapParser.js: the URL index *)

Inductive Category := page | blog | product | general.

Record UrlRecord := {
  url : string;
  path : string;
  category : Category;
  keywords : string;
  title : string
}.

(** [{ ...urlData, score }] *)
Record ScoredUrl := {
  urlData : UrlRecord;
  score : Z
}.

Definition is_product (c : Category) : bool :=
  match c with product => true | _ => false end.

Definition is_blog (c : Category) : bool :=
  match c with blog => true | _ => false end.

Module SitemapParser.

(** The callback of [this.urls.map] in [searchUrls]: the running variable
    [score] starts at 0 and is increased by each rule that applies. *)
Definition scoreUrl (queryLower : string) (queryWords : list string)
    (u : UrlRecord) : ScoredUrl :=
  let score := 0 in
  let score :=
    if Js.includes (keywords u) queryLower then score + 100 else score in
  let score :=
    fold_left (fun score word =>
                 if Js.includes (keywords u) word then score + 10 else score)
              queryWords score in
  let score :=
    if Js.includes queryLower "product" || Js.includes queryLower "pricing"
       || Js.includes queryLower "buy"
    then (if is_product (category u) then score + 20 else score)
    else score in
  let score :=
    if Js.includes queryLower "blog" || Js.includes queryLower "article"
       || Js.includes queryLower "how to"
    then (if is_blog (category u) then score + 20 else score)
    else score in
  {| urlData := u; score := score |}.

Definition queryWordsOf (queryLower : string) : list string :=
  List.filter (fun w => (2 <? String.length w)%nat) (Js.split " " queryLower).

Definition scoredOf (urls : list UrlRecord) (query : string) : list ScoredUrl :=
  let queryLower := Js.toLowerCase query in
  map (scoreUrl queryLower (queryWordsOf queryLower)) urls.

(** [searchUrls(query, limit = 5)] over [this.urls]. *)
Definition searchUrls (urls : list UrlRecord) (query : string) (limit : Z)
    : list ScoredUrl :=
  let scored := scoredOf urls query in
  Js.slice0 limit
    (Js.sort (fun a b => score b - score a)
       (List.filter (fun item => 0 <? score item) scored)).

(** [generateTitle(urlPath)] *)
Definition generateTitle (urlPath : string) : string :=
  let joined :=
    Js.join " "
      (map Js.capitalize
         (Js.split " "
            (Js.replaceAll "-" " " (Js.replaceAll "/" EmptyString urlPath)))) in
  match joined with
  | EmptyString => "Home"
  | String _ _ => joined
  end.

(** The category that [parseSitemapContent] reads off the file name. *)
Definition categoryOf (filename : string) : Category :=
  if Js.includes filename "page" then page
  else if Js.includes filename "post" then blog
  else if Js.includes filename "product" then product
  else general.

(** [line.split('\t')[0].trim()] *)
Definition urlOfLine (line : string) : string :=
  Js.trim (match Js.split "009" line with
           | first :: _ => first
           | [] => EmptyString
           end).

(** The keywords of a path: slashes and hyphens become blanks. *)
Definition keywordsOf (urlPath : string) : string :=
  Js.trim (Js.toLowerCase
             (Js.replaceAll "-" " " (Js.replaceAll "/" " " urlPath))).

(** The body of the loop over the lines: a line that starts with
    [https://] gives a record, any other line gives none. *)
Definition parseLine (category : Category) (line : string) : option UrlRecord :=
  if Js.startsWith line "https://" then
    let url := urlOfLine line in
    let urlPath := Js.removeFirst "https://www.vsf.technology/" url in
    Some {| url := url; path := urlPath; category := category;
            keywords := keywordsOf urlPath; title := generateTitle urlPath |}
  else None.

(** [parseSitemapContent(content, filename)] *)
Definition parseSitemapContent (content filename : string) : list UrlRecord :=
  let lines := Js.split "010" content in
  omap (parseLine (categoryOf filename)) lines.

(** The prefix that [parseSitemapContent] removes from a URL. *)
Definition site : string := "https://www.vsf.technology/".

End SitemapParser.

(** ** Exceptions and results *)

Inductive Exn :=
| Error (message : string)
| TypeError (message : string)
| SyntaxError (message : string)
| AxiosError (code : option string) (response_status : option Z)
             (message : string).

(** [error.message] *)
Definition message (e : Exn) : string :=
  match e with
  | Error m | TypeError m | SyntaxError m | AxiosError _ _ m => m
  end.

Inductive Res (A : Type) :=
| Ok (a : A)
| Throw (e : Exn).
Arguments Ok {A} a.
Arguments Throw {A} e.

(** ** Values exchanged with the model and the web site *)

(** [{ url, title, description, content, fetchedAt }] *)
Record PageContent := {
  page_url : string;
  page_title : string;
  page_description : string;
  page_content : string;
  fetchedAt : string
}.

(** An element of the array [fetchMultiplePages] resolves to: a page, or
    the record [{ url, error: err.message }] of a failed fetch. *)
Inductive FetchResult :=
| Fetched (p : PageContent)
| FetchError (url : string) (error : string).

(** What [executeToolCall] resolves to. *)
Inductive ToolResult :=
| Results (results : list ScoredUrl)
| Contents (contents : list FetchResult)
| ErrorPayload (error : string).

(** [{ id, function: { name, arguments } }] *)
Record ToolCall := {
  call_id : string;
  function_name : string;
  function_arguments : string
}.

(** The [message] of a completion choice.  A field that is absent (or
    [null]) is [None]. *)
Record AssistantMessage := {
  content : option string;
  tool_calls : option (list ToolCall)
}.

Record Choice := { choice_message : option AssistantMessage }.

(** [response.data]; [choices] is [None] when the field is absent. *)
Record ResponseData := { choices : option (list Choice) }.

(** The elements of the [messages] array and of [conversationHistory].
    [AssistantMsg None] is the [undefined] that [messages.push] receives
    when a choice carries no message. *)
Inductive Message :=
| SystemMsg (content : string)
| UserMsg (content : string)
| AssistantMsg (m : option AssistantMessage)
| ToolMsg (tool_call_id : string) (name : string) (content : ToolResult).

(** The argument object of a tool call after [JSON.parse], for the
    objects that follow the declarations of [getTools]: a field is
    absent, [None], or holds a value of the declared type.  An object
    with a field of another type is not represented. *)
Record Args := {
  arg_query : option string;
  arg_limit : option Z;
  arg_urls : option (list string)
}.

Inductive ParsedArgs :=
| ArgsNull
| ArgsObject (a : Args).

(** ** The environment *)

(** How one [axios.post] to the completion endpoint ends. *)
Inductive HttpOutcome :=
| TimedOut
| NoResponse (message : string)
| Response (status : Z) (data : option ResponseData).

(** What cheerio extracts from a page that was retrieved. *)
Record Document := {
  doc_title : string;        (* $('title').text() || $('h1').first().text() || '' *)
  doc_description : string;  (* $('meta[name="description"]').attr('content') || '' *)
  doc_text : string          (* text of the first main selector that matches, else of body *)
}.

(** How one [axios.get] of a page, followed by [cheerio.load], ends. *)
Inductive GetOutcome :=
| GetOk (doc : Document) (now : string)
| GetFail (message : string).

Record Env := {
  (** the outcome of the n-th [axios.post] of the process *)
  api_reply : nat -> HttpOutcome;
  (** the outcome of the n-th [axios.get] of the process *)
  page_reply : nat -> GetOutcome;
  (** when the n-th [axios.get] settles, relative to the others in flight *)
  arrival : nat -> nat;
  JSON_parse : string -> Res ParsedArgs;
  JSON_stringify : option ResponseData -> string
}.

(** ** The state of the process *)

Inductive Event :=
| EvPost (messages : list Message)
| EvSleep (ms : Z)
| EvGet (url : string).

Record World := {
  index_urls : list UrlRecord;          (* sitemapParser.urls *)
  conversationHistory : list Message;   (* chatbot.conversationHistory *)
  cache : gmap string PageContent;      (* webScraper.cache *)
  posts : nat;                          (* axios.post calls so far *)
  gets : nat;                           (* axios.get calls so far *)
  trace : list Event                    (* requests and waits, oldest first *)
}.

Definition set_history (h : list Message) (w : World) : World :=
  {| index_urls := index_urls w; conversationHistory := h; cache := cache w;
     posts := posts w; gets := gets w; trace := trace w |}.

Definition set_cache (c : gmap string PageContent) (w : World) : World :=
  {| index_urls := index_urls w; conversationHistory := conversationHistory w;
     cache := c; posts := posts w; gets := gets w; trace := trace w |}.

Definition emit (e : Event) (w : World) : World :=
  {| index_urls := index_urls w; conversationHistory := conversationHistory w;
     cache := cache w; posts := posts w; gets := gets w;
     trace := trace w ++ [e] |}.

Definition count_post (w : World) : World :=
  {| index_urls := index_urls w; conversationHistory := conversationHistory w;
     cache := cache w; posts := S (posts w); gets := gets w; trace := trace w |}.

Definition count_get (w : World) : World :=
  {| index_urls := index_urls w; conversationHistory := conversationHistory w;
     cache := cache w; posts := posts w; gets := S (gets w); trace := trace w |}.

(** [await new Promise(resolve => setTimeout(resolve, ms))] *)
Definition sleep (ms : Z) (w : World) : World := emit (EvSleep ms) w.

Definition show (z : Z) : string := NilZero.string_of_int (Z.to_int z).

(** ** webScraper.js: the page fetcher *)

Module WebScraper.

(** Collapse every run of white space into one blank:
    [.replace(/\s+/g, ' ')]; the [.replace(/\n+/g, '\n')] that follows
    finds no line feed left. *)
Fixpoint collapse (s : string) : string :=
  match s with
  | EmptyString => EmptyString
  | String c s' =>
      if Js.is_space c then
        match s' with
        | String c' _ =>
            if Js.is_space c' then collapse s' else String " " (collapse s')
        | EmptyString => String " " EmptyString
        end
      else String c (collapse s')
  end.

(** The object [result] built from a retrieved page. *)
Definition makeResult (url : string) (doc : Document) (now : string)
    : PageContent :=
  {| page_url := url;
     page_title := Js.trim (doc_title doc);
     page_description := Js.trim (doc_description doc);
     page_content := Js.substring0 3000 (Js.trim (collapse (doc_text doc)));
     fetchedAt := now |}.

(** What the request numbered [req] for [url] yields once it settles: the
    page, or the error thrown by the [catch] clause. *)
Definition settled (env : Env) (url : string) (req : nat) : Res PageContent :=
  match page_reply env req with
  | GetOk doc now => Ok (makeResult url doc now)
  | GetFail m =>
      Throw (Error ("Failed to fetch content from " +:+ url +:+ ": " +:+ m))
  end.

(** [fetchPageContent] runs in two steps.  [begin] is the part before
    [await axios.get]: the cache test and, on a miss, the request. *)
Inductive Started :=
| Hit (p : PageContent)
| Issued (req : nat).

Definition begin (url : string) (w : World) : World * Started :=
  match cache w !! url with
  | Some p => (w, Hit p)
  | None => (count_get (emit (EvGet url) w), Issued (gets w))
  end.

(** [finish] is the part after the [await]: a page is stored in the
    cache under its URL and returned, a failure is thrown. *)
Definition finish (env : Env) (url : string) (req : nat) (w : World)
    : World * Res PageContent :=
  match settled env url req with
  | Ok result => (set_cache (<[url := result]> (cache w)) w, Ok result)
  | Throw e => (w, Throw e)
  end.

(** [await this.fetchPageContent(url)] with no other fetch in flight. *)
Definition fetchPageContent (env : Env) (url : string) (w : World)
    : World * Res PageContent :=
  match begin url w with
  | (w1, Hit p) => (w1, Ok p)
  | (w1, Issued req) => finish env url req w1
  end.

(** [batch.map(url => this.fetchPageContent(url).catch(...))]: every call
    runs up to its [await] before any request settles, so all cache tests
    of a batch see the cache as it was when the batch began. *)
Fixpoint beginAll (batch : list string) (w : World)
    : World * list (string * Started) :=
  match batch with
  | [] => (w, [])
  | url :: rest =>
      let '(w1, st) := begin url w in
      let '(w2, sts) := beginAll rest w1 in
      (w2, (url, st) :: sts)
  end.

Definition inFlight (started : list (string * Started)) : list (nat * string) :=
  omap (fun '(url, st) =>
          match st with Issued req => Some (req, url) | Hit _ => None end)
       started.

(** The requests in flight settle in the order of their [arrival]; each
    one that succeeds writes the cache. *)
Definition settleAll (env : Env) (pending : list (nat * string)) (w : World)
    : World :=
  fold_left (fun w '(req, url) => fst (finish env url req w))
    (Js.sort (fun a b => Z.of_nat (arrival env (fst a))
                         - Z.of_nat (arrival env (fst b))) pending)
    w.

(** The value of one promise of the batch, after its [.catch]. *)
Definition batchResult (env : Env) (s : string * Started) : FetchResult :=
  match s with
  | (_, Hit p) => Fetched p
  | (url, Issued req) =>
      match settled env url req with
      | Ok p => Fetched p
      | Throw e => FetchError url (message e)
      end
  end.

(** [await Promise.all(batchPromises)]: results in the order of [batch]. *)
Definition fetchBatch (env : Env) (batch : list string) (w : World)
    : World * list FetchResult :=
  let '(w1, started) := beginAll batch w in
  (settleAll env (inFlight started) w1, map (batchResult env) started).

(** [urls.slice(i, j)] for [0 <= i <= j] *)
Definition slice {A} (i j : nat) (l : list A) : list A :=
  take (j - i) (drop i l).

(** The [for (let i = 0; i < urls.length; i += maxConcurrent)] loop.
    [maxConcurrent] is positive: with 0 the loop would never leave a
    non-empty [urls].  The chatbot always uses the default, 3. *)
Equations? fetchLoop (env : Env) (urls : list string) (maxConcurrent : positive)
    (i : nat) (results : list FetchResult) (w : World)
    : World * list FetchResult by wf (length urls - i)%nat lt :=
  fetchLoop env urls maxConcurrent i results w with decide (i < length urls)%nat => {
    | left _ =>
        let batch := slice i (i + Pos.to_nat maxConcurrent) urls in
        let r := fetchBatch env batch w in
        fetchLoop env urls maxConcurrent (i + Pos.to_nat maxConcurrent)
                  (results ++ snd r) (fst r);
    | right _ => (w, results) }.
Proof. lia. Qed.

Definition fetchMultiplePages (env : Env) (urls : list string)
    (maxConcurrent : positive) (w : World) : World * list FetchResult :=
  fetchLoop env urls maxConcurrent 0 [] w.

(** [clearCache]; no code of the repository calls it. *)
Definition clearCache (w : World) : World := set_cache ∅ w.

End WebScraper.

(** ** Fetches that overlap *)

(** The scraper seen one step at a time, for calls of [fetchPageContent]
    that overlap in any way: a call runs up to its [await], or a request
    in flight settles and its call runs to the end. *)
Module Overlap.

Inductive Action :=
| Call (url : string)
| Settle (req : nat) (url : string).

Record State := {
  world : World;
  pending : list (nat * string)   (* the requests in flight *)
}.

Definition step (env : Env) (s : State) (e : Action) : State :=
  match e with
  | Call url =>
      match WebScraper.begin url (world s) with
      | (w, WebScraper.Hit _) => {| world := w; pending := pending s |}
      | (w, WebScraper.Issued req) =>
          {| world := w; pending := pending s ++ [(req, url)] |}
      end
  | Settle req url =>
      if bool_decide ((req, url) ∈ pending s) then
        {| world := fst (WebScraper.finish env url req (world s));
           pending := filter (fun x => x <> (req, url)) (pending s) |}
      else s
  end.

Definition run (env : Env) (steps : list Action) (s : State) : State :=
  fold_left (step env) steps s.

(** No request is in flight. *)
Definition idle (w : World) : State := {| world := w; pending := [] |}.

(** The steps of one batch of [fetchMultiplePages]: every call begins,
    then the requests settle in the order of their arrival. *)
Definition batchSteps (env : Env) (batch : list string) (w : World)
    : list Action :=
  map Call batch ++
  map (fun x => Settle (fst x) (snd x))
      (Js.sort (fun a b => Z.of_nat (arrival env (fst a))
                           - Z.of_nat (arrival env (fst b)))
         (WebScraper.inFlight (snd (WebScraper.beginAll batch w)))).

Definition isCall (e : Action) : bool :=
  match e with Call _ => true | Settle _ _ => false end.

End Overlap.

(** ** chatbot.js: tool dispatch, the model call, the conversation loop *)

Module RAGChatbot.

(** The [switch] inside the [try] of [executeToolCall]. *)
Definition toolSwitch (env : Env) (toolName : string) (args : ParsedArgs)
    (w : World) : World * Res ToolResult :=
  if String.eqb toolName "search_website_urls" then
    match args with
    | ArgsNull =>
        (w, Throw (TypeError "Cannot read properties of null (reading 'query')"))
    | ArgsObject a =>
        (* args.limit || 5 *)
        let limit :=
          match arg_limit a with
          | Some n => if n =? 0 then 5 else n
          | None => 5
          end in
        match arg_query a with
        | Some query =>
            (w, Ok (Results (SitemapParser.searchUrls (index_urls w) query limit)))
        | None =>
            (* query.toLowerCase() inside searchUrls *)
            (w, Throw (TypeError
               "Cannot read properties of undefined (reading 'toLowerCase')"))
        end
    end
  else if String.eqb toolName "fetch_webpage_content" then
    match args with
    | ArgsNull =>
        (w, Throw (TypeError "Cannot read properties of null (reading 'urls')"))
    | ArgsObject a =>
        match arg_urls a with
        | Some urls =>
            let limitedUrls := Js.slice0 3 urls in
            let '(w', contents) :=
              WebScraper.fetchMultiplePages env limitedUrls 3 w in
            (w', Ok (Contents contents))
        | None =>
            (w, Throw (TypeError
               "Cannot read properties of undefined (reading 'slice')"))
        end
    end
  else (w, Throw (Error ("Unknown tool: " +:+ toolName))).

(** [executeToolCall]: the [catch] turns whatever the [switch] throws
    into the payload [{ error: error.message }]. *)
Definition executeToolCall (env : Env) (toolName : string) (args : ParsedArgs)
    (w : World) : World * Res ToolResult :=
  match toolSwitch env toolName args w with
  | (w', Ok result) => (w', Ok result)
  | (w', Throw error) => (w', Ok (ErrorPayload (message error)))
  end.

(** [validateStatus]: axios resolves for these statuses and rejects for
    the others. *)
Definition validateStatus (status : Z) : bool :=
  (200 <=? status) && (status <? 500).

(** What [await axios.post(...)] gives for an outcome of the request. *)
Definition posted (o : HttpOutcome) : Res (Z * option ResponseData) :=
  match o with
  | TimedOut =>
      Throw (AxiosError (Some "ECONNABORTED") None "timeout of 60000ms exceeded")
  | NoResponse m => Throw (AxiosError None None m)
  | Response status data =>
      if validateStatus status then Ok (status, data)
      else Throw (AxiosError (Some "ERR_BAD_RESPONSE") (Some status)
                    ("Request failed with status code " +:+ show status))
  end.

(** The rest of the [try] block of [callOpenRouterAPI]: the two checks
    on the response, then [return response.data]. *)
Definition checked (env : Env) (o : HttpOutcome) : Res ResponseData :=
  match posted o with
  | Throw e => Throw e
  | Ok (status, data) =>
      if negb (status =? 200) then
        Throw (Error ("API returned status " +:+ show status +:+ ": "
                      +:+ JSON_stringify env data))
      else
        match data with
        | None => Throw (Error "Invalid response format from API")
        | Some d =>
            match choices d with
            | None | Some [] => Throw (Error "Invalid response format from API")
            | Some (_ :: _) => Ok d
            end
        end
  end.

(** One pass through the [try] block: the request is sent, then checked. *)
Definition attempt (env : Env) (messages : list Message) (w : World)
    : World * Res ResponseData :=
  (count_post (emit (EvPost messages) w), checked env (api_reply env (posts w))).

(** [Math.min(1000 * Math.pow(2, attempt - 1), 5000)] *)
Definition waitTime (attempt : nat) : Z :=
  Z.min (1000 * 2 ^ (Z.of_nat attempt - 1)) 5000.

(** The loop [for (let attempt = 1; attempt <= retries; attempt++)].
    [remaining] is [retries + 1 - attempt], the number of passes left, so
    the loop test is [remaining > 0]; when it fails the function falls
    off its end and resolves to [undefined], here [Ok None]. *)
Fixpoint attempts (env : Env) (messages : list Message) (retries : nat)
    (remaining : nat) (attempt_no : nat) (w : World)
    : World * Res (option ResponseData) :=
  match remaining with
  | O => (w, Ok None)
  | S remaining' =>
      match attempt env messages w with
      | (w', Ok data) => (w', Ok (Some data))
      | (w', Throw error) =>
          let isLastAttempt := (attempt_no =? retries)%nat in
          if isLastAttempt then (w', Throw error)
          else attempts env messages retries remaining' (S attempt_no)
                        (sleep (waitTime attempt_no) w')
      end
  end.

(** The requests and waits of [n] attempts that all fail, the first of
    them being attempt number [k]: no wait follows the last. *)
Fixpoint failedAttempts (messages : list Message) (k n : nat) : list Event :=
  match n with
  | O => []
  | S O => [EvPost messages]
  | S (S _ as n') =>
      EvPost messages :: EvSleep (waitTime k) :: failedAttempts messages (S k) n'
  end.

(** [callOpenRouterAPI(messages, retries = 3)] *)
Definition callOpenRouterAPI (env : Env) (messages : list Message)
    (retries : nat) (w : World) : World * Res (option ResponseData) :=
  attempts env messages retries retries 1 w.

(** The [for (const toolCall of assistantMessage.tool_calls)] loop. *)
Fixpoint runTools (env : Env) (toolCalls : list ToolCall)
    (messages : list Message) (w : World) : World * Res (list Message) :=
  match toolCalls with
  | [] => (w, Ok messages)
  | toolCall :: rest =>
      let toolName := function_name toolCall in
      match JSON_parse env (function_arguments toolCall) with
      | Throw e => (w, Throw e)
      | Ok toolArgs =>
          match executeToolCall env toolName toolArgs w with
          | (w', Throw e) => (w', Throw e)
          | (w', Ok toolResult) =>
              runTools env rest
                (messages ++ [ToolMsg (call_id toolCall) toolName toolResult]) w'
          end
      end
  end.

Definition errorMessage : string :=
  "I apologize, but I'm having trouble processing your request right now. Please try again in a moment.".

Definition maxIterationMessage : string :=
  "I apologize, but I'm taking too long to process your request. Please try asking in a different way.".

Definition defaultSystemPrompt : string :=
  "You are a helpful assistant for VSF Technology, a web hosting and domain services company. 
Your job is to answer questions about our services, products, and help users find information on our website.

When a user asks a question:
1. First, use the search_website_urls function to find relevant pages
2. Then, use the fetch_webpage_content function to get detailed information from those pages
3. Finally, provide a comprehensive answer based on the fetched content

Be friendly, professional, and always provide accurate information based on the website content.".

(** How one pass through the [try] block of the [while] loop ends. *)
Inductive Step :=
| Continue (messages : list Message)   (* continue *)
| Return (finalResponse : option string).   (* return finalResponse *)

(** The [try] block of one iteration of [chat]. *)
Definition iteration (env : Env) (userMessage : string)
    (messages : list Message) (w : World) : World * Res Step :=
  match callOpenRouterAPI env messages 3 w with
  | (w1, Throw e) => (w1, Throw e)
  | (w1, Ok None) =>
      (w1, Throw (TypeError
         "Cannot read properties of undefined (reading 'choices')"))
  | (w1, Ok (Some responseData)) =>
      match choices responseData with
      | None =>
          (w1, Throw (TypeError
             "Cannot read properties of undefined (reading '0')"))
      | Some [] =>
          (w1, Throw (TypeError
             "Cannot read properties of undefined (reading 'message')"))
      | Some (choice :: _) =>
          let assistantMessage := choice_message choice in
          let messages := messages ++ [AssistantMsg assistantMessage] in
          match assistantMessage with
          | None =>
              (w1, Throw (TypeError
                 "Cannot read properties of undefined (reading 'tool_calls')"))
          | Some am =>
              match tool_calls am with
              | Some (toolCall :: rest) =>
                  match runTools env (toolCall :: rest) messages w1 with
                  | (w2, Throw e) => (w2, Throw e)
                  | (w2, Ok messages') => (w2, Ok (Continue messages'))
                  end
              | Some [] | None =>
                  let finalResponse := content am in
                  let history :=
                    conversationHistory w1 ++
                    [UserMsg userMessage;
                     AssistantMsg (Some {| content := finalResponse;
                                           tool_calls := None |})] in
                  let history :=
                    if (10 <? length history)%nat then Js.slice_last 10 history
                    else history in
                  (set_history history w1, Ok (Return finalResponse))
              end
          end
      end
  end.

(** The loop [while (currentIteration < maxIterations)]; [remaining] is
    [maxIterations - currentIteration]. *)
Fixpoint chatLoop (env : Env) (userMessage : string) (remaining : nat)
    (messages : list Message) (w : World) : World * option string :=
  match remaining with
  | O => (w, Some maxIterationMessage)
  | S remaining' =>
      match iteration env userMessage messages w with
      | (w', Throw error) => (w', Some errorMessage)
      | (w', Ok (Return finalResponse)) => (w', finalResponse)
      | (w', Ok (Continue messages')) =>
          chatLoop env userMessage remaining' messages' w'
      end
  end.

(** [chat(userMessage, systemPrompt = null)].  The result is [None] when
    the final assistant message has no [content]. *)
Definition chat (env : Env) (userMessage : string)
    (systemPrompt : option string) (w : World) : World * option string :=
  let prompt :=
    match systemPrompt with
    | Some (String c p) => String c p
    | Some EmptyString | None => defaultSystemPrompt
    end in
  let messages :=
    [SystemMsg prompt] ++ conversationHistory w ++ [UserMsg userMessage] in
  let maxIterations := 10%nat in
  chatLoop env userMessage maxIterations messages w.

Definition resetConversation (w : World) : World := set_history [] w.

End RAGChatbot.

(** ** Positions in the index *)

(** The elements of [l] paired with their positions [n], [n + 1], ... *)
Fixpoint indexedFrom {A} (n : nat) (l : list A) : list (nat * A) :=
  match l with
  | [] => []
  | x :: l' => (n, x) :: indexedFrom (S n) l'
  end.

(** [a] may stand before [b] in a search result: its score is higher, or
    the scores are equal and it comes first in the index. *)
Definition Before (a b : nat * ScoredUrl) : Prop :=
  score (snd b) < score (snd a) \/
  (score (snd a) = score (snd b) /\ (fst a < fst b)%nat).

(** ** The scoring rule as the specification words it *)

Module Spec.

(** The tokens of [s]: its maximal runs of characters that are not
    delimiters. *)
Fixpoint tokens (delim : ascii -> bool) (s : string) : list string :=
  match s with
  | EmptyString => []
  | String c s' =>
      if delim c then tokens delim s'
      else
        match s' with
        | EmptyString => [String c EmptyString]
        | String c' _ =>
            if delim c' then String c EmptyString :: tokens delim s'
            else match tokens delim s' with
                 | t :: ts => String c t :: ts
                 | [] => [String c EmptyString]
                 end
        end
  end.

Definition nonEmpty (w : string) : bool :=
  match w with EmptyString => false | String _ _ => true end.

(** Tokens of length > 2; shorter ones are ignored. *)
Definition keptTokens (delim : ascii -> bool) (q : string) : list string :=
  List.filter (fun t => (2 <? String.length t)%nat) (tokens delim q).

Definition bonus (applies : bool) (points : Z) : Z :=
  if applies then points else 0.

(** +100 for the phrase, +10 per kept token found, +20 per category rule. *)
Definition scoreOf (delim : ascii -> bool) (query : string) (u : UrlRecord)
    : Z :=
  let q := Js.toLowerCase query in
  bonus (Js.includes (keywords u) q) 100
  + 10 * Z.of_nat (length (List.filter (Js.includes (keywords u))
                                       (keptTokens delim q)))
  + bonus ((Js.includes q "product" || Js.includes q "pricing"
            || Js.includes q "buy") && is_product (category u)) 20
  + bonus ((Js.includes q "blog" || Js.includes q "article"
            || Js.includes q "how to") && is_blog (category u)) 20.

Definition scored (delim : ascii -> bool) (query : string) (u : UrlRecord)
    : ScoredUrl :=
  {| urlData := u; score := scoreOf delim query u |}.

(** Tokens delimited by any white space, as the specification says. *)
Definition whitespace : ascii -> bool := Js.is_space.

(** Tokens delimited by the blank alone. *)
Definition blank : ascii -> bool := fun c => Ascii.eqb c " ".

End Spec.

(** ** Runs of the completion endpoint *)

(** The failures of one model call: a timeout, a connection error, a
    status other than 200, a body without [choices[0]]. *)
Inductive Failure : HttpOutcome -> Prop :=
| fail_timeout : Failure TimedOut
| fail_connection m : Failure (NoResponse m)
| fail_status status data : status <> 200 -> Failure (Response status data)
| fail_no_data : Failure (Response 200 None)
| fail_no_choices : Failure (Response 200 (Some {| choices := None |}))
| fail_no_choice : Failure (Response 200 (Some {| choices := Some [] |})).

(** A tool call whose argument string [JSON.parse] accepts. *)
Definition Parses (env : Env) (tc : ToolCall) : Prop :=
  exists a, JSON_parse env (function_arguments tc) = Ok a.

(** A reply whose first choice asks for at least one tool invocation. *)
Definition RequestsTools (env : Env) (o : HttpOutcome) : Prop :=
  exists d c cs am tc tcs,
    o = Response 200 (Some d) /\ choices d = Some (c :: cs) /\
    choice_message c = Some am /\ tool_calls am = Some (tc :: tcs) /\
    Forall (Parses env) (tc :: tcs).

(** A reply whose first choice asks for at least one tool invocation,
    whatever the argument strings are. *)
Definition AsksTools (o : HttpOutcome) : Prop :=
  exists d c cs am tc tcs,
    o = Response 200 (Some d) /\ choices d = Some (c :: cs) /\
    choice_message c = Some am /\ tool_calls am = Some (tc :: tcs).

(** [ToolRound env n n']: a model call that starts when [n] requests
    have been sent obtains, within its three attempts, a reply that asks
    for tools; [n'] requests have been sent by then. *)
Inductive ToolRound (env : Env) : nat -> nat -> Prop :=
| round_first n :
    RequestsTools env (api_reply env n) -> ToolRound env n (1 + n)
| round_second n :
    Failure (api_reply env n) ->
    RequestsTools env (api_reply env (1 + n)) -> ToolRound env n (2 + n)
| round_third n :
    Failure (api_reply env n) -> Failure (api_reply env (1 + n)) ->
    RequestsTools env (api_reply env (2 + n)) -> ToolRound env n (3 + n).

(** [k] consecutive tool rounds. *)
Inductive ToolRounds (env : Env) : nat -> nat -> nat -> Prop :=
| rounds_done n : ToolRounds env 0 n n
| rounds_more k n n' n'' :
    ToolRound env n n' -> ToolRounds env k n' n'' ->
    ToolRounds env (S k) n n''.

(** A model call that starts when [n] requests have been sent and fails
    on each of its three attempts. *)
Definition Exhausted (env : Env) (n : nat) : Prop :=
  Failure (api_reply env n) /\ Failure (api_reply env (1 + n)) /\
  Failure (api_reply env (2 + n)).

(** ** Sequences of calls *)

Inductive Op :=
| FetchOne (url : string)
| FetchMany (urls : list string) (maxConcurrent : positive)
| ToolCallOp (toolName : string) (args : ParsedArgs)
| Chat (userMessage : string) (systemPrompt : option string)
| ResetConversation.

Definition runOp (env : Env) (w : World) (op : Op) : World :=
  match op with
  | FetchOne url => fst (WebScraper.fetchPageContent env url w)
  | FetchMany urls maxConcurrent =>
      fst (WebScraper.fetchMultiplePages env urls maxConcurrent w)
  | ToolCallOp toolName args =>
      fst (RAGChatbot.executeToolCall env toolName args w)
  | Chat userMessage systemPrompt =>
      fst (RAGChatbot.chat env userMessage systemPrompt w)
  | ResetConversation => RAGChatbot.resetConversation w
  end.

(** The calls of [ops], each awaited before the next. *)
Definition runOps (env : Env) (ops : list Op) (w : World) : World :=
  fold_left (runOp env) ops w.

(** Every cache entry holds a page of the URL it is stored under. *)
Definition CacheKeyed (w : World) : Prop :=
  forall u p, cache w !! u = Some p -> page_url p = u.

(** The cache of [w'] holds every entry of the cache of [w], unchanged. *)
Definition CacheGrows (w w' : World) : Prop :=
  (forall u p, cache w !! u = Some p -> cache w' !! u = Some p) /\
  (CacheKeyed w -> CacheKeyed w').

(** [w'] has the index, the conversation and the count of model requests
    of [w]. *)
Definition SameConversation (w w' : World) : Prop :=
  index_urls w' = index_urls w /\
  conversationHistory w' = conversationHistory w /\
  posts w' = posts w.

(** The element of a [fetchMultiplePages] result that belongs to [u]. *)
Definition ResultFor (u : string) (r : FetchResult) : Prop :=
  match r with
  | Fetched p => page_url p = u
  | FetchError u' _ => u' = u
  end.

(** The element that a call of [fetchMultiplePages] begun in [w] returns
    at the place of [u], when [requested] are the URLs it requested, in
    order (the request for [requested !! k] is number [gets w + k] of
    the process): the cached page where [u] was cached when the call
    began; otherwise what a request of the call for [u] settled to, its
    page or its error record. *)
Definition OutcomeFor (env : Env) (w : World) (requested : list string)
    (u : string) (r : FetchResult) : Prop :=
  match cache w !! u with
  | Some p => r = Fetched p
  | None =>
      exists k,
        requested !! k = Some u /\
        r = match WebScraper.settled env u (gets w + k) with
            | Ok p => Fetched p
            | Throw e => FetchError u (message e)
            end
  end.

(** ** chatbot.js: the declarations of the tools *)

(** A property of the [parameters] object of a declaration. *)
Record Property := {
  param_name : string;
  param_type : string;
  param_default : option Z
}.

(** An element of [getTools()], without its descriptions. *)
Record Tool := {
  tool_name : string;
  parameters : list Property;
  required : list string
}.

Definition getTools : list Tool :=
  [ {| tool_name := "search_website_urls";
       parameters :=
         [ {| param_name := "query"; param_type := "string";
              param_default := None |};
           {| param_name := "limit"; param_type := "integer";
              param_default := Some 5 |} ];
       required := ["query"] |};
    {| tool_name := "fetch_webpage_content";
       parameters :=
         [ {| param_name := "urls"; param_type := "array";
              param_default := None |} ];
       required := ["urls"] |} ].

(** The argument object has the field. *)
Definition hasArgument (a : Args) (name : string) : bool :=
  if String.eqb name "query" then bool_decide (is_Some (arg_query a))
  else if String.eqb name "limit" then bool_decide (is_Some (arg_limit a))
  else if String.eqb name "urls" then bool_decide (is_Some (arg_urls a))
  else false.

(** The result is the payload [{ error }]. *)
Definition isErrorPayload (r : Res ToolResult) : bool :=
  match r with
  | Ok (ErrorPayload _) => true
  | _ => false
  end.

(** ** What a run leaves behind *)

(** [w'] comes after [w] in a run with [env]: the index is the same, the
    trace has only grown, and every cache entry is an entry of [w] or
    the page of a request that settled. *)
Definition Evolves (env : Env) (w w' : World) : Prop :=
  index_urls w' = index_urls w /\
  (exists t, trace w' = trace w ++ t) /\
  (forall u p, cache w' !! u = Some p ->
     cache w !! u = Some p \/ exists req, WebScraper.settled env u req = Ok p).

(** Every white-space character of [s] is a blank that is followed by a
    character other than white space, or by nothing. *)
Fixpoint collapsed (s : string) : bool :=
  match s with
  | EmptyString => true
  | String c s' =>
      (negb (Js.is_space c)
       || (Ascii.eqb c " "
           && match s' with
              | String d _ => negb (Js.is_space d)
              | EmptyString => true
              end))
      && collapsed s'
  end.

(** A page as [fetchPageContent] builds it. *)
Definition PageShaped (u : string) (p : PageContent) : Prop :=
  page_url p = u /\
  (String.length (page_content p) <= 3000)%nat /\
  collapsed (page_content p) = true /\
  Js.trim (page_title p) = page_title p /\
  Js.trim (page_description p) = page_description p.

(** The bodies of the model requests in a stretch of the trace. *)
Definition postedIn (t : list Event) : list (list Message) :=
  omap (fun e => match e with EvPost messages => Some messages | _ => None end) t.

(** The waits in a stretch of the trace. *)
Definition waitsIn (t : list Event) : list Z :=
  omap (fun e => match e with EvSleep ms => Some ms | _ => None end) t.

(** ** Turns of the conversation *)

(** The two messages that [chat] pushes onto the history for a turn. *)
Definition exchange (userMessage : string) (finalResponse : option string)
    : list Message :=
  [UserMsg userMessage;
   AssistantMsg (Some {| content := finalResponse; tool_calls := None |})].

(** A history made of whole exchanges, five at most. *)
Definition Exchanges (h : list Message) : Prop :=
  exists turns : list (string * option string),
    h = flat_map (fun t => exchange (fst t) (snd t)) turns /\
    (length turns <= 5)%nat.

(** A reply whose first choice is a message that asks for no tool; its
    [content] is [r]. *)
Definition Answers (o : HttpOutcome) (r : option string) : Prop :=
  exists d c cs am,
    o = Response 200 (Some d) /\ choices d = Some (c :: cs) /\
    choice_message c = Some am /\
    (tool_calls am = None \/ tool_calls am = Some []) /\
    content am = r.

(** [AnswerRound env n r]: a model call that starts when [n] requests
    have been sent obtains, within its three attempts, an answer with the
    content [r]. *)
Inductive AnswerRound (env : Env) : nat -> option string -> Prop :=
| answer_first n r :
    Answers (api_reply env n) r -> AnswerRound env n r
| answer_second n r :
    Failure (api_reply env n) ->
    Answers (api_reply env (1 + n)) r -> AnswerRound env n r
| answer_third n r :
    Failure (api_reply env n) -> Failure (api_reply env (1 + n)) ->
    Answers (api_reply env (2 + n)) r -> AnswerRound env n r.

(** ** sitemapParser.js: loading the index *)

(** What [fs.readFileSync] and [path.join] give. *)
Record FileSystem := {
  readFileSync : string -> Res string;
  path_join : string -> string -> string
}.

Definition set_index (urls : list UrlRecord) (w : World) : World :=
  {| index_urls := urls; conversationHistory := conversationHistory w;
     cache := cache w; posts := posts w; gets := gets w; trace := trace w |}.

Module SitemapLoader.

Definition files : list string :=
  ["page-sitemap.xml"; "post-sitemap.xml"; "reseller_product-sitemap.xml"].

(** One pass of the loop of [loadSitemaps]: the records of the file are
    pushed onto [this.urls]; a file that cannot be read is skipped. *)
Definition loadFile (fs : FileSystem) (sitemapDir : string) (w : World)
    (file : string) : World :=
  let filePath := path_join fs sitemapDir file in
  match readFileSync fs filePath with
  | Ok content =>
      set_index (index_urls w ++ SitemapParser.parseSitemapContent content file) w
  | Throw _ => w
  end.

(** [loadSitemaps()]; it resolves to [this.urls]. *)
Definition loadSitemaps (fs : FileSystem) (sitemapDir : string) (w : World)
    : World :=
  fold_left (loadFile fs sitemapDir) files w.

(** [getAllUrls()] *)
Definition getAllUrls (w : World) : list UrlRecord := index_urls w.

(** The records of one file, none if the file cannot be read. *)
Definition recordsOf (fs : FileSystem) (sitemapDir : string) (file : string)
    : list UrlRecord :=
  match readFileSync fs (path_join fs sitemapDir file) with
  | Ok content => SitemapParser.parseSitemapContent content file
  | Throw _ => []
  end.

End SitemapLoader.

(** ** Concrete data for the examples *)

Module Scenario.

Definition wordpress_hosting : UrlRecord :=
  {| url := "https://www.vsf.technology/wordpress-hosting";
     path := "wordpress-hosting"; category := page;
     keywords := "wordpress hosting"; title := "Wordpress Hosting" |}.

Definition wordpress_tips : UrlRecord :=
  {| url := "https://www.vsf.technology/blog/wordpress-tips";
     path := "blog/wordpress-tips"; category := blog;
     keywords := "blog wordpress tips"; title := "Blogwordpress Tips" |}.

(** The two words of the query are separated by a tab, not a blank. *)
Definition tabbed_query : string := "wordpress" +:+ String "009" "hosting".

(** The index holds the two records; nothing was requested so far. *)
Definition fresh : World :=
  {| index_urls := [wordpress_hosting; wordpress_tips];
     conversationHistory := []; cache := ∅; posts := 0; gets := 0;
     trace := [] |}.

Definition no_document : GetOutcome := GetFail "getaddrinfo ENOTFOUND".

(** Every request times out or fails to connect. *)
Definition offline : Env :=
  {| api_reply := fun _ => TimedOut;
     page_reply := fun _ => no_document;
     arrival := fun n => n;
     JSON_parse := fun _ => Throw (SyntaxError "Unexpected end of JSON input");
     JSON_stringify := fun _ => "null" |}.

Definition pricing_url : string := "https://www.vsf.technology/pricing".

(** The pricing page changes between the first request and the later
    ones. *)
Definition pricing_page (n : nat) : GetOutcome :=
  match n with
  | O =>
      GetOk {| doc_title := "Pricing"; doc_description := "Plans";
               doc_text := "Hosting from 5 a month" |}
            "2025-01-01T10:00:00.000Z"
  | S _ =>
      GetOk {| doc_title := "Pricing"; doc_description := "Plans";
               doc_text := "Hosting from 7 a month" |}
            "2025-01-01T10:00:00.250Z"
  end.

Definition first_page : PageContent :=
  {| page_url := pricing_url; page_title := "Pricing";
     page_description := "Plans"; page_content := "Hosting from 5 a month";
     fetchedAt := "2025-01-01T10:00:00.000Z" |}.


(** The web site answers, in the order of the requests; the completion
    endpoint does not. *)
Definition site_up : Env :=
  {| api_reply := fun _ => TimedOut;
     page_reply := pricing_page;
     arrival := fun n => n;
     JSON_parse := fun _ => Throw (SyntaxError "Unexpected end of JSON input");
     JSON_stringify := fun _ => "null" |}.

(** The second request of the process fails, the others succeed. *)
Definition flaky : Env :=
  {| api_reply := fun _ => TimedOut;
     page_reply := fun n =>
       match n with
       | 1%nat => GetFail "timeout of 10000ms exceeded"
       | _ => pricing_page n
       end;
     arrival := fun n => n;
     JSON_parse := fun _ => Throw (SyntaxError "Unexpected end of JSON input");
     JSON_stringify := fun _ => "null" |}.

Definition quote : string := String "034" EmptyString.

(** The text of the argument object with the one field [query]. *)
Definition search_arguments : string :=
  "{" +:+ quote +:+ "query" +:+ quote +:+ ":" +:+ quote +:+ "hosting"
  +:+ quote +:+ "}".

Definition parse (s : string) : Res ParsedArgs :=
  if String.eqb s search_arguments then
    Ok (ArgsObject {| arg_query := Some "hosting"; arg_limit := None;
                      arg_urls := None |})
  else if String.eqb s "{}" then
    Ok (ArgsObject {| arg_query := None; arg_limit := None; arg_urls := None |})
  else if String.eqb s "null" then Ok ArgsNull
  else Throw (SyntaxError "Unexpected token in JSON").

Definition search_call : ToolCall :=
  {| call_id := "call_1"; function_name := "search_website_urls";
     function_arguments := search_arguments |}.

(** A reply that asks for one search. *)
Definition asks_search : HttpOutcome :=
  Response 200
    (Some {| choices :=
               Some [{| choice_message :=
                          Some {| content := None;
                                  tool_calls := Some [search_call] |} |}] |}).

(** The model asks for a search, whatever it is told. *)
Definition tool_happy : Env :=
  {| api_reply := fun _ => asks_search;
     page_reply := pricing_page;
     arrival := fun n => n;
     JSON_parse := parse;
     JSON_stringify := fun _ => "{}" |}.

(** The model asks for a search once; then the endpoint times out. *)
Definition tool_then_down : Env :=
  {| api_reply := fun n => match n with O => asks_search | S _ => TimedOut end;
     page_reply := pricing_page;
     arrival := fun n => n;
     JSON_parse := parse;
     JSON_stringify := fun _ => "{}" |}.

(** A body whose first choice has no [message] field. *)
Definition messageless : ResponseData :=
  {| choices := Some [{| choice_message := None |}] |}.

Definition no_message : Env :=
  {| api_reply := fun _ => Response 200 (Some messageless);
     page_reply := pricing_page;
     arrival := fun n => n;
     JSON_parse := parse;
     JSON_stringify := fun _ => "{}" |}.

(** A body whose first choice has a message with neither [content] nor
    [tool_calls]. *)
Definition contentless : ResponseData :=
  {| choices :=
       Some [{| choice_message :=
                  Some {| content := None; tool_calls := None |} |}] |}.

Definition no_content : Env :=
  {| api_reply := fun _ => Response 200 (Some contentless);
     page_reply := pricing_page;
     arrival := fun n => n;
     JSON_parse := parse;
     JSON_stringify := fun _ => "{}" |}.

Definition tab : string := String "009" EmptyString.
Definition newline : string := String "010" EmptyString.

(** A sitemap file: one URL and its date per line, after a heading. *)
Definition page_sitemap : string :=
  "URL" +:+ tab +:+ "Last Mod." +:+ newline +:+
  "https://www.vsf.technology/" +:+ tab +:+ "2024-05-01 10:00 +00:00"
  +:+ newline +:+
  "https://www.vsf.technology/wordpress-hosting/" +:+ tab
  +:+ "2024-05-02 10:00 +00:00" +:+ newline +:+
  "https://www.vsf.technology/SSL-Certificates" +:+ newline.

(** A directory that holds the page sitemap and nothing else. *)
Definition pages_only : FileSystem :=
  {| readFileSync := fun filePath =>
       if String.eqb filePath "sitemaps/page-sitemap.xml" then Ok page_sitemap
       else Throw (Error ("ENOENT: no such file or directory, open '"
                          +:+ filePath +:+ "'"));
     path_join := fun dir file => dir +:+ "/" +:+ file |}.

(** The argument object of a request for five pages. *)
Definition five_urls : Args :=
  {| arg_query := None; arg_limit := None;
     arg_urls := Some ["https://www.vsf.technology/a";
                       "https://www.vsf.technology/b";
                       "https://www.vsf.technology/c";
                       "https://www.vsf.technology/d";
                       "https://www.vsf.technology/e"] |}.

(** A reply that answers in plain words. *)
Definition greeting : ResponseData :=
  {| choices :=
       Some [{| choice_message :=
                  Some {| content := Some "We offer WordPress hosting.";
                          tool_calls := None |} |}] |}.

(** The endpoint times out once, asks for a search, and then answers. *)
Definition recovering : Env :=
  {| api_reply := fun n =>
       match n with
       | 0%nat => TimedOut
       | 1%nat => asks_search
       | _ => Response 200 (Some greeting)
       end;
     page_reply := pricing_page;
     arrival := fun n => n;
     JSON_parse := parse;
     JSON_stringify := fun _ => "{}" |}.

(** A tool call whose argument string breaks off: it is not JSON. *)
Definition garbled_call : ToolCall :=
  {| call_id := "call_10"; function_name := "search_website_urls";
     function_arguments := "{" +:+ quote +:+ "query" +:+ quote +:+ ":" |}.

Definition asks_garbled : HttpOutcome :=
  Response 200
    (Some {| choices :=
               Some [{| choice_message :=
                          Some {| content := None;
                                  tool_calls := Some [garbled_call] |} |}] |}).

(** The model asks for a search nine times; from then on it asks for a
    search with an argument string that is not JSON. *)
Definition nine_then_garbled : Env :=
  {| api_reply := fun n => if (n <? 9)%nat then asks_search else asks_garbled;
     page_reply := pricing_page;
     arrival := fun n => n;
     JSON_parse := parse;
     JSON_stringify := fun _ => "{}" |}.

End Scenario.

(** * Properties *)

(** ** Strings and arrays *)

Lemma startsWith_empty s : Js.startsWith s EmptyString = true.
Proof. by destruct s. Qed.

Lemma includes_empty s : Js.includes s EmptyString = true.
Proof. destruct s; simpl; by rewrite ?startsWith_empty. Qed.

Lemma startsWith_spec s sub :
  Js.startsWith s sub = true <-> exists post, s = sub +:+ post.
Proof.
  revert s. induction sub as [|a sub IH]; intros s; simpl.
  - rewrite startsWith_empty. split; [by exists s|done].
  - destruct s as [|b s]; simpl.
    + split; [done|]. by intros [post [=]].
    + destruct (Ascii.eqb_spec a b) as [->|Hne].
      * rewrite IH. split; intros [post Hpost]; exists post.
        -- by rewrite Hpost.
        -- by injection Hpost.
      * split; [done|]. intros [post Hpost]. injection Hpost as Hab _.
        by destruct Hne.
Qed.

(** [includes] is the substring test. *)
Lemma includes_spec s sub :
  Js.includes s sub = true <-> exists pre post, s = pre +:+ sub +:+ post.
Proof.
  induction s as [|c s IH]; cbn [Js.includes].
  - rewrite orb_false_r, startsWith_spec. split.
    + intros [post Hpost]. by exists EmptyString, post.
    + intros ([|c pre] & post & Hpre); [by exists post|discriminate].
  - rewrite orb_true_iff, startsWith_spec, IH. split.
    + intros [[post Hpost]|(pre & post & Hpre)].
      * by exists EmptyString, post.
      * exists (String c pre), post. simpl. by rewrite Hpre.
    + intros ([|c' pre] & post & Hpre).
      * left. by exists post.
      * right. exists pre, post. simpl in Hpre. by injection Hpre.
Qed.

(** The tokens of a string are the non-empty pieces of its split. *)
Lemma tokens_split s :
  Spec.tokens Spec.blank s = List.filter Spec.nonEmpty (Js.split " " s).
Proof.
  induction s as [|c s IH]; [done|].
  cbn [Spec.tokens Js.split]. unfold Spec.blank at 1.
  destruct (Ascii.eqb c " ") eqn:Ec; [by rewrite IH|].
  destruct s as [|c' s'].
  - done.
  - unfold Spec.blank at 1. rewrite IH. clear IH.
    cbn [Js.split]. destruct (Ascii.eqb c' " ") eqn:Ec'; [done|].
    by destruct (Js.split " " s').
Qed.

Lemma filter_long_nonEmpty l :
  List.filter (fun w => (2 <? String.length w)%nat) (List.filter Spec.nonEmpty l)
  = List.filter (fun w => (2 <? String.length w)%nat) l.
Proof.
  induction l as [|w l IH]; [done|]. simpl.
  destruct w as [|c w]; simpl; [done|].
  destruct (2 <? S (String.length w))%nat; by rewrite IH.
Qed.

Lemma keptTokens_queryWords q :
  Spec.keptTokens Spec.blank q = SitemapParser.queryWordsOf q.
Proof.
  unfold Spec.keptTokens, SitemapParser.queryWordsOf.
  by rewrite tokens_split, filter_long_nonEmpty.
Qed.

(** ** The URL index: scores *)

(** The [forEach] over the query words adds 10 per word found. *)
Lemma word_matches_sum kw words acc :
  fold_left (fun score word =>
               if Js.includes kw word then score + 10 else score) words acc
  = acc + 10 * Z.of_nat (length (List.filter (Js.includes kw) words)).
Proof.
  revert acc. induction words as [|w words IH]; intros acc; simpl; [lia|].
  rewrite IH. destruct (Js.includes kw w); simpl length; lia.
Qed.

Lemma scoreUrl_spec query u :
  SitemapParser.scoreUrl (Js.toLowerCase query)
    (SitemapParser.queryWordsOf (Js.toLowerCase query)) u
  = Spec.scored Spec.blank query u.
Proof.
  unfold SitemapParser.scoreUrl, Spec.scored, Spec.scoreOf. f_equal.
  rewrite word_matches_sum, keptTokens_queryWords. unfold Spec.bonus.
  repeat match goal with |- context [if ?b then _ else _] =>
    destruct b; simpl end; lia.
Qed.

Lemma scoreOf_nonneg delim query u : 0 <= Spec.scoreOf delim query u.
Proof.
  unfold Spec.scoreOf, Spec.bonus.
  repeat match goal with |- context [if ?b then _ else _] =>
    destruct b; simpl end; lia.
Qed.

Lemma scoredOf_spec urls query :
  SitemapParser.scoredOf urls query = map (Spec.scored Spec.blank query) urls.
Proof.
  unfold SitemapParser.scoredOf. apply map_ext. intros u. apply scoreUrl_spec.
Qed.

Lemma filter_positive_nonzero urls query :
  List.filter (fun item => 0 <? score item)
              (map (Spec.scored Spec.blank query) urls)
  = List.filter (fun item => negb (score item =? 0))
                (map (Spec.scored Spec.blank query) urls).
Proof.
  apply filter_ext_in. intros r Hr. apply in_map_iff in Hr as (u & <- & _).
  simpl. pose proof (scoreOf_nonneg Spec.blank query u).
  destruct (Z.ltb_spec 0 (Spec.scoreOf Spec.blank query u)),
           (Z.eqb_spec (Spec.scoreOf Spec.blank query u) 0); simpl; lia.
Qed.

(** C5, as amended: the score of a record is 100 for the lower-cased
    query occurring in its keyword text, plus 10 for each token of the
    lower-cased query longer than two characters that occurs in it, where
    the tokens are delimited by the blank character alone, plus 20 for a
    product record when the query mentions product, pricing or buy, plus
    20 for a blog record when it mentions blog, article or how to; the
    search sorts and cuts the records whose score is not 0. *)
Theorem searchUrls_scores urls query limit :
  SitemapParser.scoredOf urls query = map (Spec.scored Spec.blank query) urls /\
  SitemapParser.searchUrls urls query limit
  = Js.slice0 limit
      (Js.sort (fun a b => score b - score a)
         (List.filter (fun r => negb (score r =? 0))
            (map (Spec.scored Spec.blank query) urls))).
Proof.
  split; [apply scoredOf_spec|].
  unfold SitemapParser.searchUrls.
  by rewrite scoredOf_spec, filter_positive_nonzero.
Qed.

(** C5 as stated fails: with the words of the query separated by a tab,
    the code finds one token, which no keyword text contains, and scores
    the record 0, where white-space tokens would score it 20. *)
Lemma searchUrls_scores_tab_counterexample :
  score (SitemapParser.scoreUrl (Js.toLowerCase Scenario.tabbed_query)
           (SitemapParser.queryWordsOf (Js.toLowerCase Scenario.tabbed_query))
           Scenario.wordpress_hosting) = 0 /\
  Spec.scoreOf Spec.whitespace Scenario.tabbed_query Scenario.wordpress_hosting
    = 20 /\
  SitemapParser.searchUrls [Scenario.wordpress_hosting] Scenario.tabbed_query 5
    = [] /\
  SitemapParser.scoredOf [Scenario.wordpress_hosting] Scenario.tabbed_query
    <> map (Spec.scored Spec.whitespace Scenario.tabbed_query)
           [Scenario.wordpress_hosting].
Proof. repeat split; try reflexivity. vm_compute. discriminate. Qed.

(** The scenario of the specification: 120 for the phrase and its two
    words, 10 for the one word found. *)
Example searchUrls_wordpress_hosting :
  map score (SitemapParser.searchUrls
               [Scenario.wordpress_hosting; Scenario.wordpress_tips]
               "wordpress hosting" 5) = [120; 10].
Proof. reflexivity. Qed.

(** ** The URL index: order of the result *)

Section sorting.
Context {A : Type} (cmp : A -> A -> Z).

Lemma elem_of_insert_by z x l :
  z ∈ Js.insert_by cmp x l <-> z = x \/ z ∈ l.
Proof.
  induction l as [|y l IH]; simpl.
  - rewrite list_elem_of_singleton, elem_of_nil. tauto.
  - destruct (0 <? cmp x y);
      rewrite ?elem_of_cons, ?IH, ?elem_of_cons; tauto.
Qed.

(** Sorting neither drops nor invents an element. *)
Lemma elem_of_sort z l : z ∈ Js.sort cmp l <-> z ∈ l.
Proof.
  induction l as [|y l IH]; simpl; [done|].
  rewrite elem_of_insert_by, IH, elem_of_cons. tauto.
Qed.

Lemma insert_by_Permutation x l : Js.insert_by cmp x l ≡ₚ x :: l.
Proof.
  induction l as [|y l IH]; simpl; [done|].
  destruct (0 <? cmp x y); [|done]. rewrite IH. apply Permutation_swap.
Qed.

(** Sorting rearranges its input. *)
Lemma sort_Permutation l : Js.sort cmp l ≡ₚ l.
Proof.
  induction l as [|y l IH]; simpl; [done|].
  by rewrite insert_by_Permutation, IH.
Qed.

Lemma length_insert_by x l :
  length (Js.insert_by cmp x l) = S (length l).
Proof.
  induction l as [|y l IH]; simpl; [done|].
  destruct (0 <? cmp x y); simpl; by rewrite ?IH.
Qed.

Lemma length_sort l : length (Js.sort cmp l) = length l.
Proof.
  induction l as [|y l IH]; simpl; [done|]. by rewrite length_insert_by, IH.
Qed.
End sorting.

(** Records of equal key are left as they stand. *)
Lemma sort_constant {A} (key : A -> Z) c l :
  Forall (fun x => key x = c) l -> Js.sort (Js.descending key) l = l.
Proof.
  induction 1 as [|x l Hx Hl IH]; simpl; [done|]. rewrite IH.
  destruct Hl as [|y l Hy Hl]; simpl; [done|].
  unfold Js.descending. rewrite Hx, Hy, Z.sub_diag. done.
Qed.

Section sorting_images.
Context {A B : Type} (f : A -> B) (keyA : A -> Z) (keyB : B -> Z).
Hypothesis key_f : forall a, keyA a = keyB (f a).

Lemma map_insert_by x l :
  map f (Js.insert_by (Js.descending keyA) x l)
  = Js.insert_by (Js.descending keyB) (f x) (map f l).
Proof.
  induction l as [|y l IH]; simpl; [done|].
  unfold Js.descending at 1 3. rewrite <- !key_f.
  destruct (0 <? keyA y - keyA x); simpl; by rewrite ?IH.
Qed.

Lemma map_sort l :
  map f (Js.sort (Js.descending keyA) l)
  = Js.sort (Js.descending keyB) (map f l).
Proof.
  induction l as [|y l IH]; simpl; [done|]. by rewrite map_insert_by, IH.
Qed.
End sorting_images.

Lemma map_slice0 {A B} (f : A -> B) limit l :
  map f (Js.slice0 limit l) = Js.slice0 limit (map f l).
Proof. unfold Js.slice0. by rewrite length_map, <- fmap_take. Qed.

Lemma length_slice0 {A} limit (l : list A) :
  0 <= limit -> Z.of_nat (length (Js.slice0 limit l)) <= limit.
Proof.
  intros Hl. unfold Js.slice0.
  destruct (Z.ltb_spec limit 0); [lia|]. rewrite length_take. lia.
Qed.

Lemma slice0_take {A} limit (l : list A) :
  0 <= limit ->
  Js.slice0 limit l = take (Z.to_nat (Z.min limit (Z.of_nat (length l)))) l.
Proof. intros Hl. unfold Js.slice0. by destruct (Z.ltb_spec limit 0); [lia|]. Qed.

Lemma slice0_subseteq {A} limit (l : list A) x :
  x ∈ Js.slice0 limit l -> x ∈ l.
Proof. unfold Js.slice0. apply subseteq_take. Qed.

(** ** The URL index: the empty query *)

Lemma scoreUrl_empty u :
  SitemapParser.scoreUrl EmptyString [] u = {| urlData := u; score := 100 |}.
Proof.
  unfold SitemapParser.scoreUrl. rewrite includes_empty. reflexivity.
Qed.

(** C10: the empty query scores every record 100, through the phrase
    rule alone, so that for a limit of at least 1 the search returns the
    first min(limit, size of the index) records in the order of the
    index. *)
Theorem searchUrls_empty_query urls limit :
  1 <= limit ->
  SitemapParser.searchUrls urls EmptyString limit
  = take (Z.to_nat (Z.min limit (Z.of_nat (length urls))))
         (map (fun u => {| urlData := u; score := 100 |}) urls).
Proof.
  intros Hlimit. unfold SitemapParser.searchUrls, SitemapParser.scoredOf.
  change (SitemapParser.queryWordsOf (Js.toLowerCase EmptyString)) with (@nil string).
  change (Js.toLowerCase EmptyString) with EmptyString.
  rewrite (map_ext _ _ scoreUrl_empty).
  set (scored := map _ urls).
  assert (Hall : Forall (fun r => score r = 100) scored).
  { apply Forall_forall. intros r Hr.
    apply list_elem_of_In, in_map_iff in Hr as (u & <- & _). done. }
  assert (Hkeep : List.filter (fun item => 0 <? score item) scored = scored).
  { clear -Hall. induction Hall as [|r l Hr _ IH]; simpl; [done|].
    by rewrite Hr, IH. }
  rewrite Hkeep.
  change (fun a b : ScoredUrl => score b - score a) with (Js.descending score).
  rewrite (sort_constant score 100) by done.
  rewrite slice0_take by lia. unfold scored. by rewrite length_map.
Qed.

Lemma searchUrls_empty_query_witness :
  1 <= 1 /\
  SitemapParser.searchUrls
    [Scenario.wordpress_hosting; Scenario.wordpress_tips] EmptyString 1
  = [{| urlData := Scenario.wordpress_hosting; score := 100 |}].
Proof.
  split; [lia|].
  exact (searchUrls_empty_query
           [Scenario.wordpress_hosting; Scenario.wordpress_tips] 1 ltac:(lia)).
Defined.

(** ** The URL index: ties keep the order of the index *)

Lemma map_snd_indexedFrom {A} n (l : list A) : map snd (indexedFrom n l) = l.
Proof. revert n. induction l as [|x l IH]; intros n; simpl; by rewrite ?IH. Qed.

Lemma elem_of_indexedFrom {A} n (l : list A) i x :
  (i, x) ∈ indexedFrom n l -> (n <= i)%nat /\ l !! (i - n)%nat = Some x.
Proof.
  revert n. induction l as [|y l IH]; intros n; simpl.
  - by intros ?%elem_of_nil.
  - intros [[= -> ->]|Hin]%elem_of_cons.
    + split; [lia|]. by replace (n - n)%nat with 0%nat by lia.
    + apply IH in Hin as [Hle Hl]. split; [lia|].
      by replace (i - n)%nat with (S (i - S n)) by lia.
Qed.

Lemma indexedFrom_sorted {A} n (l : list A) :
  StronglySorted (fun a b => (fst a < fst b)%nat) (indexedFrom n l).
Proof.
  revert n. induction l as [|y l IH]; intros n; simpl; constructor; [apply IH|].
  apply Forall_forall. intros [i x] [Hle _]%elem_of_indexedFrom. simpl. lia.
Qed.

Lemma StronglySorted_filter {A} (R : relation A) (keep : A -> bool) l :
  StronglySorted R l -> StronglySorted R (List.filter keep l).
Proof.
  induction 1 as [|x l Hl IH Hx]; simpl; [constructor|].
  destruct (keep x); [|done]. constructor; [done|].
  apply Forall_forall. intros y [Hy _]%list_elem_of_In%filter_In.
  by eapply Forall_forall in Hx; [|apply list_elem_of_In].
Qed.

Lemma StronglySorted_take {A} (R : relation A) n l :
  StronglySorted R l -> StronglySorted R (take n l).
Proof.
  intros Hl. rewrite <- (take_drop n l) in Hl.
  by apply StronglySorted_app_1_l in Hl.
Qed.

Lemma StronglySorted_lookup {A} (R : relation A) l p q a b :
  StronglySorted R l -> (p < q)%nat ->
  l !! p = Some a -> l !! q = Some b -> R a b.
Proof.
  intros Hl. revert p q. induction Hl as [|x l Hl IH Hx]; intros p q Hpq.
  - by rewrite lookup_nil.
  - destruct q as [|q]; [lia|]. destruct p as [|p]; simpl.
    + intros [= ->] Hb. eapply Forall_forall in Hx; [done|].
      by eapply list_elem_of_lookup_2.
    + apply IH. lia.
Qed.

Lemma map_snd_filter {A B} (keep : B -> bool) (l : list (A * B)) :
  map snd (List.filter (fun a => keep (snd a)) l) = List.filter keep (map snd l).
Proof.
  induction l as [|[i x] l IH]; simpl; [done|].
  destruct (keep x); simpl; by rewrite IH.
Qed.

(** Inserting a record that precedes, in the index, every record of a
    sorted list keeps the list sorted. *)
Lemma insert_by_Before x l :
  StronglySorted Before l ->
  Forall (fun y => (fst x < fst y)%nat) l ->
  StronglySorted Before
    (Js.insert_by (Js.descending (fun a => score (snd a))) x l).
Proof.
  induction 1 as [|y l Hl IH Hy]; intros Hx; simpl.
  - repeat constructor.
  - apply Forall_cons in Hx as [Hxy Hx]. unfold Js.descending at 1.
    destruct (Z.ltb_spec 0 (score (snd y) - score (snd x))) as [Hlt|Hge].
    + constructor; [by apply IH|].
      apply Forall_forall. intros z [->|Hz]%elem_of_insert_by.
      * left. lia.
      * by eapply Forall_forall in Hy.
    + constructor; [by constructor|].
      assert (Hxy' : Before x y) by (unfold Before; lia).
      constructor; [done|].
      apply Forall_forall. intros z Hz.
      eapply Forall_forall in Hy; [|done]. eapply Forall_forall in Hx; [|done].
      unfold Before in *. lia.
Qed.

Lemma sort_Before l :
  StronglySorted (fun a b => (fst a < fst b)%nat) l ->
  StronglySorted Before (Js.sort (Js.descending (fun a => score (snd a))) l).
Proof.
  induction 1 as [|x l Hl IH Hx]; simpl; [constructor|].
  apply insert_by_Before; [done|].
  apply Forall_forall. intros y Hy%elem_of_sort.
  by eapply Forall_forall in Hx.
Qed.

(** The search result, each record with its position in the index. *)
Lemma searchUrls_indexed urls query limit :
  exists R : list (nat * ScoredUrl),
    SitemapParser.searchUrls urls query limit = map snd R /\
    StronglySorted Before R /\
    Forall (fun a => 0 < score (snd a) /\
              SitemapParser.scoredOf urls query !! fst a = Some (snd a)) R.
Proof.
  set (scored := SitemapParser.scoredOf urls query).
  set (key := fun a : nat * ScoredUrl => score (snd a)).
  set (kept := List.filter (fun a => 0 <? score (snd a)) (indexedFrom 0 scored)).
  exists (Js.slice0 limit (Js.sort (Js.descending key) kept)).
  split; [|split].
  - unfold SitemapParser.searchUrls. fold scored.
    rewrite map_slice0. f_equal.
    rewrite (map_sort snd key score) by done.
    unfold kept.
    by rewrite (map_snd_filter (fun r => 0 <? score r)), map_snd_indexedFrom.
  - apply StronglySorted_take, sort_Before, StronglySorted_filter,
      indexedFrom_sorted.
  - apply Forall_forall. intros [i r] Hin%slice0_subseteq%elem_of_sort.
    apply list_elem_of_In, filter_In in Hin as [Hin Hpos]. simpl in *.
    apply list_elem_of_In, elem_of_indexedFrom in Hin as [_ Hi].
    rewrite Nat.sub_0_r in Hi. split; [lia|done].
Qed.

(** C4: for a limit that is not negative, the search returns at most
    [limit] records, each with a score above 0, in descending order of
    score, and records of equal score stand in the order of their
    positions in the index. *)
Theorem searchUrls_ordered urls query limit :
  0 <= limit ->
  let result := SitemapParser.searchUrls urls query limit in
  Z.of_nat (length result) <= limit /\
  Forall (fun r => 0 < score r) result /\
  (forall p q a b, (p < q)%nat ->
     result !! p = Some a -> result !! q = Some b -> score b <= score a) /\
  exists positions : list nat,
    length positions = length result /\
    (forall p i r, positions !! p = Some i -> result !! p = Some r ->
       SitemapParser.scoredOf urls query !! i = Some r) /\
    (forall p q i j a b, (p < q)%nat ->
       positions !! p = Some i -> positions !! q = Some j ->
       result !! p = Some a -> result !! q = Some b ->
       score a = score b -> (i < j)%nat).
Proof.
  intros Hlimit result.
  destruct (searchUrls_indexed urls query limit) as (R & HR & Hsorted & Hall).
  assert (Hlook : forall p x, R !! p = Some x ->
            0 < score (snd x) /\
            SitemapParser.scoredOf urls query !! fst x = Some (snd x)).
  { intros p x Hx. eapply Forall_forall in Hall; [done|].
    by eapply list_elem_of_lookup_2. }
  assert (Hres : forall p r, result !! p = Some r ->
            exists x, R !! p = Some x /\ snd x = r).
  { intros p r. unfold result. rewrite HR.
    change (map snd R) with (snd <$> R). rewrite list_lookup_fmap.
    destruct (R !! p) as [x|]; simpl; [|done]. intros [= <-]. eauto. }
  assert (Hpos : forall p i, (fst <$> R) !! p = Some i ->
            exists x, R !! p = Some x /\ fst x = i).
  { intros p i. rewrite list_lookup_fmap.
    destruct (R !! p) as [x|]; simpl; [|done]. intros [= <-]. eauto. }
  split; [|split; [|split]].
  - unfold result, SitemapParser.searchUrls. by apply length_slice0.
  - apply Forall_forall. intros r (p & Hp)%list_elem_of_lookup_1.
    apply Hres in Hp as (x & Hx & <-). by apply Hlook in Hx as [? _].
  - intros p q a b Hpq (x & Hx & <-)%Hres (y & Hy & <-)%Hres.
    pose proof (StronglySorted_lookup _ _ _ _ _ _ Hsorted Hpq Hx Hy) as H.
    unfold Before in H. lia.
  - exists (fst <$> R). split; [|split].
    + unfold result. by rewrite HR, length_fmap, length_map.
    + intros p i r (x & Hx & <-)%Hpos (y & Hy & <-)%Hres.
      rewrite Hx in Hy. injection Hy as <-. by apply Hlook in Hx as [_ ?].
    + intros p q i j a b Hpq (x & Hx & <-)%Hpos (y & Hy & <-)%Hpos
        (x' & Hx' & <-)%Hres (y' & Hy' & <-)%Hres Heq.
      rewrite Hx in Hx'. injection Hx' as <-.
      rewrite Hy in Hy'. injection Hy' as <-.
      pose proof (StronglySorted_lookup _ _ _ _ _ _ Hsorted Hpq Hx Hy) as H.
      unfold Before in H. lia.
Qed.

Lemma searchUrls_ordered_witness :
  0 <= 5 /\
  Z.of_nat (length (SitemapParser.searchUrls
                      [Scenario.wordpress_tips; Scenario.wordpress_hosting]
                      "wordpress hosting" 5)) <= 5.
Proof.
  split; [lia|].
  exact (proj1 (searchUrls_ordered
                  [Scenario.wordpress_tips; Scenario.wordpress_hosting]
                  "wordpress hosting" 5 ltac:(lia))).
Defined.

(** ** The model call: attempts and waits *)

(** The failures are exactly the outcomes that the [try] block of
    [callOpenRouterAPI] leaves through [catch]. *)
Lemma checked_Failure env o :
  Failure o <-> exists e, RAGChatbot.checked env o = Throw e.
Proof.
  split.
  - intros [ | m | status data Hs | | | ]; unfold RAGChatbot.checked; simpl;
      eauto.
    destruct (RAGChatbot.validateStatus status); [|by eauto].
    destruct (Z.eqb_spec status 200); [done|]. simpl. eauto.
  - destruct o as [ | m | status data]; [constructor..|].
    destruct (Z.eq_dec status 200) as [->|Hs]; [|intros _; by constructor].
    destruct data as [[[[|c cs]|]]|]; intros [e He];
      [apply fail_no_choice|discriminate He|apply fail_no_choices
      |apply fail_no_data].
Qed.

Lemma attempt_world env messages w :
  fst (RAGChatbot.attempt env messages w)
  = count_post (emit (EvPost messages) w).
Proof. done. Qed.


(** ** The page fetcher *)

Lemma fetchLoop_unfold env urls mc i results w :
  WebScraper.fetchLoop env urls mc i results w =
  if decide (i < length urls)%nat then
    let r := WebScraper.fetchBatch env
               (WebScraper.slice i (i + Pos.to_nat mc) urls) w in
    WebScraper.fetchLoop env urls mc (i + Pos.to_nat mc) (results ++ snd r)
      (fst r)
  else (w, results).
Proof.
  rewrite WebScraper.fetchLoop_equation_1.
  destruct (decide (i < length urls)%nat); reflexivity.
Qed.

Lemma CacheGrows_refl w : CacheGrows w w.
Proof. by split. Qed.

Lemma CacheGrows_trans w1 w2 w3 :
  CacheGrows w1 w2 -> CacheGrows w2 w3 -> CacheGrows w1 w3.
Proof. intros [H1 K1] [H2 K2]. split; auto. Qed.

Lemma SameConversation_refl w : SameConversation w w.
Proof. by repeat split. Qed.

Lemma SameConversation_trans w1 w2 w3 :
  SameConversation w1 w2 -> SameConversation w2 w3 -> SameConversation w1 w3.
Proof.
  intros (A1 & B1 & C1) (A2 & B2 & C2). repeat split; congruence.
Qed.

Lemma settled_url env url req p :
  WebScraper.settled env url req = Ok p -> page_url p = url.
Proof.
  unfold WebScraper.settled. destruct (page_reply env req); [|done].
  by intros [= <-].
Qed.

Lemma CacheKeyed_insert url p w :
  page_url p = url -> CacheKeyed w ->
  CacheKeyed (set_cache (<[url := p]> (cache w)) w).
Proof.
  intros Hp Hw u q. simpl. destruct (decide (url = u)) as [<-|Hne].
  - rewrite lookup_insert_eq. by intros [= <-].
  - rewrite lookup_insert_ne by done. apply Hw.
Qed.

(** The part of [fetchPageContent] before the [await] leaves the cache
    alone, and issues a request exactly when the URL is not cached. *)
Lemma begin_spec url w :
  match cache w !! url with
  | Some p => WebScraper.begin url w = (w, WebScraper.Hit p)
  | None =>
      WebScraper.begin url w
      = (count_get (emit (EvGet url) w), WebScraper.Issued (gets w))
  end.
Proof. unfold WebScraper.begin. by destruct (cache w !! url). Qed.

Lemma begin_frame url w :
  cache (fst (WebScraper.begin url w)) = cache w /\
  SameConversation w (fst (WebScraper.begin url w)).
Proof.
  unfold WebScraper.begin. destruct (cache w !! url); simpl;
    by repeat split.
Qed.

Lemma beginAll_spec batch w :
  cache (fst (WebScraper.beginAll batch w)) = cache w /\
  SameConversation w (fst (WebScraper.beginAll batch w)) /\
  map fst (snd (WebScraper.beginAll batch w)) = batch /\
  Forall (fun s =>
            match snd s with
            | WebScraper.Hit p => cache w !! fst s = Some p
            | WebScraper.Issued _ => cache w !! fst s = None
            end) (snd (WebScraper.beginAll batch w)).
Proof.
  revert w. induction batch as [|url rest IH]; intros w; simpl.
  - repeat split; constructor.
  - destruct (WebScraper.begin url w) as [w1 st] eqn:Hb.
    destruct (WebScraper.beginAll rest w1) as [w2 sts] eqn:Hr.
    pose proof (begin_frame url w) as [Hc1 Hs1]. rewrite Hb in Hc1, Hs1.
    pose proof (IH w1) as (Hc2 & Hs2 & Hm & Hall). rewrite Hr in *.
    simpl in *. split; [congruence|].
    split; [by eapply SameConversation_trans|].
    split; [by rewrite Hm|].
    constructor.
    + simpl. pose proof (begin_spec url w) as Hspec.
      destruct (cache w !! url) eqn:Hu; rewrite Hb in Hspec;
        by injection Hspec as -> ->.
    + rewrite Hc1 in Hall. exact Hall.
Qed.

Lemma finish_frame env url req w :
  let w' := fst (WebScraper.finish env url req w) in
  SameConversation w w' /\ gets w' = gets w /\ trace w' = trace w /\
  (CacheKeyed w -> CacheKeyed w') /\
  (forall u0, url <> u0 -> cache w' !! u0 = cache w !! u0).
Proof.
  unfold WebScraper.finish.
  destruct (WebScraper.settled env url req) as [p|e] eqn:Hs; simpl.
  - repeat split; [|by intros; rewrite lookup_insert_ne].
    apply CacheKeyed_insert. by eapply settled_url.
  - by repeat split.
Qed.

(** The writes of the requests in flight, in whatever order they settle. *)
Lemma settle_frame env (l : list (nat * string)) w :
  let w' := fold_left (fun w '(req, url) =>
                         fst (WebScraper.finish env url req w)) l w in
  SameConversation w w' /\ gets w' = gets w /\ trace w' = trace w /\
  (CacheKeyed w -> CacheKeyed w') /\
  (forall u0, (forall req, (req, u0) ∉ l) -> cache w' !! u0 = cache w !! u0).
Proof.
  revert w. induction l as [|[req url] l IH]; intros w; simpl.
  - by repeat split.
  - pose proof (finish_frame env url req w) as (S1 & G1 & T1 & K1 & C1).
    pose proof (IH (fst (WebScraper.finish env url req w)))
      as (S2 & G2 & T2 & K2 & C2). simpl in *.
    split; [by eapply SameConversation_trans|].
    split; [congruence|]. split; [congruence|]. split; [auto|].
    intros u0 Hu0. rewrite C2, C1; [done| |].
    + intros ->. apply (Hu0 req). by left.
    + intros req' Hin. apply (Hu0 req'). by right.
Qed.

Lemma elem_of_inFlight req url started :
  (req, url) ∈ WebScraper.inFlight started ->
  (url, WebScraper.Issued req) ∈ started.
Proof.
  unfold WebScraper.inFlight. rewrite list_elem_of_omap.
  intros ([u st] & Hin & Heq). destruct st; [done|].
  by injection Heq as -> ->.
Qed.

Lemma settleAll_frame env started w0 w :
  Forall (fun s =>
            match snd s with
            | WebScraper.Hit p => cache w0 !! fst s = Some p
            | WebScraper.Issued _ => cache w0 !! fst s = None
            end) started ->
  cache w = cache w0 ->
  let w' := WebScraper.settleAll env (WebScraper.inFlight started) w in
  SameConversation w w' /\ gets w' = gets w /\ trace w' = trace w /\
  (CacheKeyed w -> CacheKeyed w') /\
  (forall u p, cache w0 !! u = Some p -> cache w' !! u = Some p).
Proof.
  intros Hstarted Hcache. unfold WebScraper.settleAll.
  set (order := Js.sort _ _).
  pose proof (settle_frame env order w) as (S & G & T & K & C).
  split; [done|]. split; [done|]. split; [done|]. split; [done|].
  intros u p Hu. rewrite C, Hcache; [done|].
  intros req Hin. unfold order in Hin.
  apply elem_of_sort, elem_of_inFlight in Hin.
  eapply Forall_forall in Hstarted; [|done]. simpl in Hstarted. congruence.
Qed.

Lemma batchResult_for env w s :
  CacheKeyed w ->
  match snd s with
  | WebScraper.Hit p => cache w !! fst s = Some p
  | WebScraper.Issued _ => cache w !! fst s = None
  end ->
  ResultFor (fst s) (WebScraper.batchResult env s).
Proof.
  intros Hw. destruct s as [u [p|req]]; simpl.
  - apply Hw.
  - intros _. destruct (WebScraper.settled env u req) eqn:Hs; simpl; [|done].
    by eapply settled_url.
Qed.

(** One batch: a result for every URL, in the order of the batch; the
    entries that were cached stay as they were. *)
Lemma fetchBatch_spec env batch w :
  let w' := fst (WebScraper.fetchBatch env batch w) in
  let results := snd (WebScraper.fetchBatch env batch w) in
  SameConversation w w' /\ CacheGrows w w' /\
  length results = length batch /\
  (CacheKeyed w -> Forall2 ResultFor batch results).
Proof.
  unfold WebScraper.fetchBatch.
  pose proof (beginAll_spec batch w) as (Hc & Hs & Hm & Hall).
  destruct (WebScraper.beginAll batch w) as [w1 started]. simpl in *.
  pose proof (settleAll_frame env started w w1 Hall Hc) as (S & _ & _ & K & C).
  split; [by eapply SameConversation_trans|].
  split; [split; [done|]|split].
  - intros Hw. apply K. intros u p. rewrite Hc. apply Hw.
  - by rewrite length_map, <- Hm, length_map.
  - intros Hw. rewrite <- Hm. clear -Hall Hw.
    induction Hall as [|s l Hs Hl IH]; simpl; constructor; [|done].
    by eapply batchResult_for.
Qed.

Lemma slice_take_drop {A} i n (l : list A) :
  WebScraper.slice i (i + n) l = take n (drop i l).
Proof. unfold WebScraper.slice. f_equal. lia. Qed.

(** The loop of [fetchMultiplePages], from position [i] on. *)
Lemma fetchLoop_spec env urls mc n :
  forall i results w, (length urls - i <= n)%nat ->
  let w' := fst (WebScraper.fetchLoop env urls mc i results w) in
  SameConversation w w' /\ CacheGrows w w' /\
  exists rs,
    snd (WebScraper.fetchLoop env urls mc i results w) = results ++ rs /\
    length rs = length (drop i urls) /\
    (CacheKeyed w -> Forall2 ResultFor (drop i urls) rs).
Proof.
  induction n as [|n IH]; intros i results w Hn; rewrite fetchLoop_unfold;
    destruct (decide (i < length urls)%nat) as [Hi|Hi]; try lia; simpl.
  1, 3: split; [apply SameConversation_refl|];
        split; [apply CacheGrows_refl|]; exists [];
        rewrite app_nil_r, drop_ge by lia;
        split; [done|]; split; [done|]; intros _; constructor.
  rewrite slice_take_drop.
  set (batch := take (Pos.to_nat mc) (drop i urls)).
  pose proof (fetchBatch_spec env batch w) as (S1 & G1 & L1 & R1).
  set (b := WebScraper.fetchBatch env batch w) in *. simpl in *.
  destruct (IH (i + Pos.to_nat mc)%nat (results ++ snd b) (fst b))
    as (S2 & G2 & rs & Hrs & Lrs & Rrs); [lia|].
  split; [by eapply SameConversation_trans|].
  split; [by eapply CacheGrows_trans|].
  exists (snd b ++ rs). split; [by rewrite Hrs, app_assoc|].
  assert (Hsplit : drop i urls = batch ++ drop (i + Pos.to_nat mc) urls).
  { unfold batch. by rewrite <- drop_drop, take_drop. }
  split.
  - rewrite Hsplit, !length_app. congruence.
  - intros Hw. rewrite Hsplit. apply Forall2_app; [by apply R1|].
    apply Rrs. by apply G1.
Qed.

Lemma fetchMultiplePages_spec env urls mc w :
  let w' := fst (WebScraper.fetchMultiplePages env urls mc w) in
  let results := snd (WebScraper.fetchMultiplePages env urls mc w) in
  SameConversation w w' /\ CacheGrows w w' /\
  length results = length urls /\
  (CacheKeyed w -> Forall2 ResultFor urls results).
Proof.
  unfold WebScraper.fetchMultiplePages.
  destruct (fetchLoop_spec env urls mc (length urls) 0 [] w)
    as (S & G & rs & Hrs & Lrs & Rrs); [lia|].
  simpl in *. rewrite Hrs. auto.
Qed.


Lemma fetchPageContent_spec env url w :
  let w' := fst (WebScraper.fetchPageContent env url w) in
  SameConversation w w' /\ CacheGrows w w' /\
  (forall p, snd (WebScraper.fetchPageContent env url w) = Ok p ->
     cache w' !! url = Some p).
Proof.
  unfold WebScraper.fetchPageContent, WebScraper.begin.
  destruct (cache w !! url) as [q|] eqn:Hq; simpl.
  - split; [apply SameConversation_refl|]. split; [apply CacheGrows_refl|].
    by intros p [= <-].
  - unfold WebScraper.finish.
    destruct (WebScraper.settled env url (gets w)) as [q|e] eqn:Hs; simpl.
    + split; [by repeat split|]. split; [split|].
      * intros u p Hu. simpl. rewrite lookup_insert_ne; [done|]. congruence.
      * intros Hw u p. simpl. destruct (decide (url = u)) as [<-|Hne].
        -- rewrite lookup_insert_eq. intros [= <-]. by eapply settled_url.
        -- rewrite lookup_insert_ne by done. apply Hw.
      * intros p [= <-]. apply lookup_insert_eq.
    + split; [by repeat split|]. split; [by split|]. done.
Qed.

(** ** Tool dispatch *)

Lemma toolSwitch_frame env toolName args w :
  SameConversation w (fst (RAGChatbot.toolSwitch env toolName args w)) /\
  CacheGrows w (fst (RAGChatbot.toolSwitch env toolName args w)).
Proof.
  unfold RAGChatbot.toolSwitch.
  destruct (String.eqb toolName "search_website_urls").
  { destruct args as [|a]; [|destruct (arg_query a)]; simpl;
      split; auto using SameConversation_refl, CacheGrows_refl. }
  destruct (String.eqb toolName "fetch_webpage_content").
  { destruct args as [|a]; [|destruct (arg_urls a) as [urls|]]; simpl;
      try (split; [apply SameConversation_refl|apply CacheGrows_refl]).
    pose proof (fetchMultiplePages_spec env (Js.slice0 3 urls) 3 w)
      as (S & G & _).
    destruct (WebScraper.fetchMultiplePages env (Js.slice0 3 urls) 3 w).
    simpl in *. by split. }
  split; auto using SameConversation_refl, CacheGrows_refl.
Qed.

Lemma executeToolCall_world env toolName args w :
  fst (RAGChatbot.executeToolCall env toolName args w)
  = fst (RAGChatbot.toolSwitch env toolName args w).
Proof.
  unfold RAGChatbot.executeToolCall.
  by destruct (RAGChatbot.toolSwitch env toolName args w) as [w' [r|e]].
Qed.

Lemma executeToolCall_frame env toolName args w :
  SameConversation w (fst (RAGChatbot.executeToolCall env toolName args w)) /\
  CacheGrows w (fst (RAGChatbot.executeToolCall env toolName args w)).
Proof. rewrite executeToolCall_world. apply toolSwitch_frame. Qed.

(** C8: [executeToolCall] never throws.  Whatever the tool name and the
    arguments, it resolves; for a name that is neither of the two tools
    it resolves to the payload { error: "Unknown tool: name" }, and
    whenever the dispatch inside its [try] throws, to the payload that
    carries the message of the exception. *)
Theorem executeToolCall_never_throws env toolName args w :
  exists w' result,
    RAGChatbot.executeToolCall env toolName args w = (w', Ok result) /\
    (toolName <> "search_website_urls" ->
     toolName <> "fetch_webpage_content" ->
     w' = w /\ result = ErrorPayload ("Unknown tool: " +:+ toolName)) /\
    (forall w'' e,
       RAGChatbot.toolSwitch env toolName args w = (w'', Throw e) ->
       w' = w'' /\ result = ErrorPayload (message e)).
Proof.
  unfold RAGChatbot.executeToolCall.
  destruct (RAGChatbot.toolSwitch env toolName args w) as [w1 [r|e]] eqn:Hsw.
  - exists w1, r. split; [done|]. split; [|by intros w'' e' [=]].
    intros Hs%String.eqb_neq Hf%String.eqb_neq.
    unfold RAGChatbot.toolSwitch in Hsw. by rewrite Hs, Hf in Hsw.
  - exists w1, (ErrorPayload (message e)). split; [done|]. split.
    + intros Hs%String.eqb_neq Hf%String.eqb_neq.
      unfold RAGChatbot.toolSwitch in Hsw. rewrite Hs, Hf in Hsw.
      by injection Hsw as <- <-.
    + by intros w'' e' [= <- <-].
Qed.

Lemma executeToolCall_resolves env toolName args w :
  exists result,
    snd (RAGChatbot.executeToolCall env toolName args w) = Ok result.
Proof.
  unfold RAGChatbot.executeToolCall.
  destruct (RAGChatbot.toolSwitch env toolName args w) as [w' [r|e]];
    simpl; eauto.
Qed.

(** ** The model call: what it leaves alone *)

Lemma attempts_frame env messages retries remaining :
  forall attempt_no w,
  let w' := fst (RAGChatbot.attempts env messages retries remaining
                   attempt_no w) in
  index_urls w' = index_urls w /\
  conversationHistory w' = conversationHistory w /\
  cache w' = cache w /\ gets w' = gets w.
Proof.
  induction remaining as [|remaining IH]; intros attempt_no w; simpl; [done|].
  destruct (RAGChatbot.checked env (api_reply env (posts w))); [done|].
  destruct (attempt_no =? retries)%nat; [done|].
  apply (IH (S attempt_no)
            (sleep (RAGChatbot.waitTime attempt_no)
               (count_post (emit (EvPost messages) w)))).
Qed.

Lemma callOpenRouterAPI_frame env messages retries w :
  let w' := fst (RAGChatbot.callOpenRouterAPI env messages retries w) in
  index_urls w' = index_urls w /\
  conversationHistory w' = conversationHistory w /\
  cache w' = cache w /\ gets w' = gets w.
Proof. apply attempts_frame. Qed.

Lemma checked_RequestsTools env o :
  RequestsTools env o ->
  exists d c cs am tc tcs,
    RAGChatbot.checked env o = Ok d /\ choices d = Some (c :: cs) /\
    choice_message c = Some am /\ tool_calls am = Some (tc :: tcs) /\
    Forall (Parses env) (tc :: tcs).
Proof.
  intros (d & c & cs & am & tc & tcs & -> & Hd & Hc & Ham & Hall).
  exists d, c, cs, am, tc, tcs. repeat split; try done.
  unfold RAGChatbot.checked. simpl. by rewrite Hd.
Qed.

(** A model call whose attempts all fail: three requests, two waits, the
    last failure thrown. *)
Lemma three_failures env messages w :
  Exhausted env (posts w) ->
  exists w' e,
    RAGChatbot.callOpenRouterAPI env messages 3 w = (w', Throw e) /\
    RAGChatbot.checked env (api_reply env (2 + posts w)) = Throw e /\
    posts w' = (3 + posts w)%nat /\
    trace w' = trace w ++
      [EvPost messages; EvSleep (RAGChatbot.waitTime 1);
       EvPost messages; EvSleep (RAGChatbot.waitTime 2);
       EvPost messages].
Proof.
  intros ([e1 H1]%(checked_Failure env) & [e2 H2]%(checked_Failure env) &
          [e3 H3]%(checked_Failure env)).
  simpl in H2, H3.
  unfold RAGChatbot.callOpenRouterAPI, RAGChatbot.attempts, RAGChatbot.attempt.
  rewrite H1. cbn [Nat.eqb posts sleep emit count_post]. rewrite H2.
  cbn [Nat.eqb posts sleep emit count_post]. rewrite H3.
  cbn [Nat.eqb posts sleep emit count_post].
  eexists _, e3. split; [reflexivity|]. split; [done|].
  simpl. rewrite <- !app_assoc. done.
Qed.

(** A model call that obtains a tool request within its attempts. *)
Lemma tool_round env messages w n' :
  ToolRound env (posts w) n' ->
  exists w' d c cs am tc tcs,
    RAGChatbot.callOpenRouterAPI env messages 3 w = (w', Ok (Some d)) /\
    posts w' = n' /\ choices d = Some (c :: cs) /\
    choice_message c = Some am /\ tool_calls am = Some (tc :: tcs) /\
    Forall (Parses env) (tc :: tcs).
Proof.
  unfold RAGChatbot.callOpenRouterAPI, RAGChatbot.attempts, RAGChatbot.attempt.
  inversion 1 as [n Hr|n Hf Hr|n Hf1 Hf2 Hr]; subst.
  - apply (checked_RequestsTools env) in Hr
      as (d & c & cs & am & tc & tcs & Hd & ?). rewrite Hd.
    by eexists _, d, c, cs, am, tc, tcs.
  - apply (checked_Failure env) in Hf as [e He]. rewrite He.
    cbn [Nat.eqb posts sleep emit count_post].
    apply (checked_RequestsTools env) in Hr
      as (d & c & cs & am & tc & tcs & Hd & ?). simpl in Hd. rewrite Hd.
    by eexists _, d, c, cs, am, tc, tcs.
  - apply (checked_Failure env) in Hf1 as [e1 He1]. rewrite He1.
    cbn [Nat.eqb posts sleep emit count_post].
    apply (checked_Failure env) in Hf2 as [e2 He2]. simpl in He2. rewrite He2.
    cbn [Nat.eqb posts sleep emit count_post].
    apply (checked_RequestsTools env) in Hr
      as (d & c & cs & am & tc & tcs & Hd & ?). simpl in Hd. rewrite Hd.
    by eexists _, d, c, cs, am, tc, tcs.
Qed.

(** The wait starts at one second, doubles, and stays at five seconds
    from the fourth attempt on. *)
Lemma waitTime_bounds k :
  (1 <= k)%nat -> 1000 <= RAGChatbot.waitTime k <= 5000.
Proof.
  intros Hk. unfold RAGChatbot.waitTime.
  assert (1 <= 2 ^ (Z.of_nat k - 1)) by (apply Z.pow_le_mono_r with (b := 0); lia).
  lia.
Qed.

Lemma waitTime_cap k : (4 <= k)%nat -> RAGChatbot.waitTime k = 5000.
Proof.
  intros Hk. unfold RAGChatbot.waitTime.
  assert (2 ^ 3 <= 2 ^ (Z.of_nat k - 1)) by (apply Z.pow_le_mono_r; lia).
  lia.
Qed.

(** With any number of retries: when every attempt fails there are as
    many requests as retries, a wait between two consecutive ones, and
    the last failure is thrown. *)
Lemma attempts_all_fail env messages retries remaining :
  forall attempt_no w,
  (1 <= remaining)%nat -> (attempt_no + remaining = S retries)%nat ->
  (forall j, (j < remaining)%nat -> Failure (api_reply env (posts w + j))) ->
  exists w' e,
    RAGChatbot.attempts env messages retries remaining attempt_no w
      = (w', Throw e) /\
    posts w' = (posts w + remaining)%nat /\
    trace w' = trace w ++ RAGChatbot.failedAttempts messages attempt_no remaining.
Proof.
  induction remaining as [|remaining IH]; intros attempt_no w Hr Hsum Hfail;
    [lia|].
  pose proof (Hfail 0%nat ltac:(lia)) as [e He]%(checked_Failure env).
  rewrite Nat.add_0_r in He.
  cbn [RAGChatbot.attempts RAGChatbot.attempt]. rewrite He.
  destruct remaining as [|remaining].
  - replace (attempt_no =? retries)%nat with true
      by (symmetry; apply Nat.eqb_eq; lia).
    eexists _, e. split; [reflexivity|]. simpl. split; [lia|done].
  - replace (attempt_no =? retries)%nat with false
      by (symmetry; apply Nat.eqb_neq; lia).
    edestruct (IH (S attempt_no)
                 (sleep (RAGChatbot.waitTime attempt_no)
                    (count_post (emit (EvPost messages) w))))
      as (w' & e' & Hrun & Hp & Ht); [lia|lia| |].
    { intros j Hj. simpl. replace (S (posts w + j)) with (posts w + S j)%nat
        by lia. apply Hfail. lia. }
    exists w', e'. split; [exact Hrun|]. split; [simpl in Hp; lia|].
    rewrite Ht. simpl. by rewrite <- !app_assoc.
Qed.

(** C1: when each of three consecutive requests fails, by a timeout, a
    connection error, a status other than 200 or a body without a first
    choice, [callOpenRouterAPI] sends exactly three requests, waits
    min(1000 * 2^(attempt-1), 5000) ms after the first and the second,
    that is 1000 ms and 2000 ms, and throws the third failure. *)
Theorem callOpenRouterAPI_three_attempts env messages w :
  Failure (api_reply env (posts w)) ->
  Failure (api_reply env (1 + posts w)) ->
  Failure (api_reply env (2 + posts w)) ->
  exists w' e,
    RAGChatbot.callOpenRouterAPI env messages 3 w = (w', Throw e) /\
    RAGChatbot.checked env (api_reply env (2 + posts w)) = Throw e /\
    posts w' = (3 + posts w)%nat /\
    trace w' = trace w ++
      [EvPost messages; EvSleep (Z.min (1000 * 2 ^ (1 - 1)) 5000);
       EvPost messages; EvSleep (Z.min (1000 * 2 ^ (2 - 1)) 5000);
       EvPost messages] /\
    Z.min (1000 * 2 ^ (1 - 1)) 5000 = 1000 /\
    Z.min (1000 * 2 ^ (2 - 1)) 5000 = 2000 /\
    conversationHistory w' = conversationHistory w /\
    cache w' = cache w.
Proof.
  intros H1 H2 H3.
  destruct (three_failures env messages w (conj H1 (conj H2 H3)))
    as (w' & e & Hcall & He & Hp & Ht).
  pose proof (callOpenRouterAPI_frame env messages 3 w) as (_ & Hh & Hc & _).
  rewrite Hcall in Hh, Hc.
  exists w', e. by repeat split.
Qed.

Lemma callOpenRouterAPI_three_attempts_witness :
  Failure (api_reply Scenario.offline 0) /\
  Failure (api_reply Scenario.offline 1) /\
  Failure (api_reply Scenario.offline 2) /\
  exists w' e,
    RAGChatbot.callOpenRouterAPI Scenario.offline [] 3 Scenario.fresh
      = (w', Throw e) /\
    trace w' =
      [EvPost []; EvSleep 1000; EvPost []; EvSleep 2000; EvPost []].
Proof.
  split; [exact fail_timeout|]. split; [exact fail_timeout|].
  split; [exact fail_timeout|].
  destruct (callOpenRouterAPI_three_attempts Scenario.offline [] Scenario.fresh
              fail_timeout fail_timeout fail_timeout)
    as (w' & e & Hcall & _ & _ & Htrace & _).
  exists w', e. split; [exact Hcall|exact Htrace].
Defined.

(** The waits follow min(1000 * 2^(attempt-1), 5000): they double from
    one second and stay at five. *)
Example waitTime_values :
  map RAGChatbot.waitTime [1; 2; 3; 4; 5]%nat = [1000; 2000; 4000; 5000; 5000].
Proof. reflexivity. Qed.

(** C9 fails on the code: a reply with status 200 whose first choice has
    no message passes both checks of [callOpenRouterAPI], which returns
    it after one request and no wait; [chat] then fails on reading
    [tool_calls] and gives up the turn without a retry.  A message with
    neither content nor tool calls is taken for a final answer. *)
Theorem callOpenRouterAPI_accepts_missing_message :
  RAGChatbot.callOpenRouterAPI Scenario.no_message [] 3 Scenario.fresh
    = (count_post (emit (EvPost []) Scenario.fresh),
       Ok (Some Scenario.messageless)) /\
  trace (fst (RAGChatbot.callOpenRouterAPI Scenario.no_message [] 3
                Scenario.fresh)) = [EvPost []] /\
  snd (RAGChatbot.chat Scenario.no_message "hello" None Scenario.fresh)
    = Some RAGChatbot.errorMessage /\
  posts (fst (RAGChatbot.chat Scenario.no_message "hello" None Scenario.fresh))
    = 1%nat /\
  snd (RAGChatbot.chat Scenario.no_content "hello" None Scenario.fresh)
    = None /\
  conversationHistory
    (fst (RAGChatbot.chat Scenario.no_content "hello" None Scenario.fresh))
    = [UserMsg "hello";
       AssistantMsg (Some {| content := None; tool_calls := None |})].
Proof. repeat split; vm_compute; reflexivity. Qed.

(** Whatever the first choice holds, a 200 reply that has one is
    returned by the first attempt. *)
Lemma callOpenRouterAPI_first_choice env messages w d c cs :
  api_reply env (posts w) = Response 200 (Some d) ->
  choices d = Some (c :: cs) ->
  RAGChatbot.callOpenRouterAPI env messages 3 w
  = (count_post (emit (EvPost messages) w), Ok (Some d)).
Proof.
  intros Hr Hd.
  unfold RAGChatbot.callOpenRouterAPI, RAGChatbot.attempts, RAGChatbot.attempt,
    RAGChatbot.checked.
  rewrite Hr. simpl. by rewrite Hd.
Qed.

(** ** The conversation loop *)

Lemma runTools_frame env toolCalls :
  forall messages w,
  SameConversation w (fst (RAGChatbot.runTools env toolCalls messages w)) /\
  CacheGrows w (fst (RAGChatbot.runTools env toolCalls messages w)).
Proof.
  induction toolCalls as [|tc rest IH]; intros messages w; simpl.
  - split; [apply SameConversation_refl|apply CacheGrows_refl].
  - destruct (JSON_parse env (function_arguments tc)) as [args|e]; simpl;
      [|split; [apply SameConversation_refl|apply CacheGrows_refl]].
    pose proof (executeToolCall_frame env (function_name tc) args w) as [S G].
    destruct (RAGChatbot.executeToolCall env (function_name tc) args w)
      as [w1 [r|e]]; simpl in *; [|done].
    destruct (IH (messages ++ [ToolMsg (call_id tc) (function_name tc) r]) w1)
      as [S' G'].
    split; [by eapply SameConversation_trans|by eapply CacheGrows_trans].
Qed.

(** Tool calls whose arguments parse are all dispatched and answered. *)
Lemma runTools_resolves env toolCalls :
  Forall (Parses env) toolCalls ->
  forall messages w, exists messages',
    snd (RAGChatbot.runTools env toolCalls messages w) = Ok messages'.
Proof.
  induction 1 as [|tc rest [args Hargs] _ IH]; intros messages w; simpl;
    [by eauto|].
  rewrite Hargs.
  destruct (executeToolCall_resolves env (function_name tc) args w)
    as [r Hr].
  destruct (RAGChatbot.executeToolCall env (function_name tc) args w)
    as [w1 r']. simpl in Hr. subst r'. apply IH.
Qed.

(** An iteration whose model call obtains a tool request dispatches the
    tools and continues; the conversation history is untouched. *)
Lemma iteration_continues env userMessage messages w n' :
  ToolRound env (posts w) n' ->
  exists w' messages',
    RAGChatbot.iteration env userMessage messages w
      = (w', Ok (RAGChatbot.Continue messages')) /\
    posts w' = n' /\
    conversationHistory w' = conversationHistory w.
Proof.
  intros Hround. unfold RAGChatbot.iteration.
  pose proof (callOpenRouterAPI_frame env messages 3 w) as (_ & Hh & _).
  destruct (tool_round env messages w n' Hround)
    as (w1 & d & c & cs & am & tc & tcs & Hcall & Hp & Hd & Hc & Ham & Hall).
  rewrite Hcall in *. simpl in Hh. rewrite Hd, Hc, Ham.
  set (messages1 := messages ++ [AssistantMsg (Some am)]).
  pose proof (runTools_frame env (tc :: tcs) messages1 w1) as [(_ & Hh' & Hp') _].
  destruct (runTools_resolves env (tc :: tcs) Hall messages1 w1) as [ms Hms].
  destruct (RAGChatbot.runTools env (tc :: tcs) messages1 w1) as [w2 r].
  simpl in *. subst r. exists w2, ms. split; [done|]. split; congruence.
Qed.

(** An iteration whose model call fails on every attempt ends in the
    [catch] of the loop; the conversation history is untouched. *)
Lemma iteration_throws env userMessage messages w :
  Exhausted env (posts w) ->
  exists w' e,
    RAGChatbot.iteration env userMessage messages w = (w', Throw e) /\
    posts w' = (3 + posts w)%nat /\
    conversationHistory w' = conversationHistory w.
Proof.
  intros Hex. unfold RAGChatbot.iteration.
  pose proof (callOpenRouterAPI_frame env messages 3 w) as (_ & Hh & _).
  destruct (three_failures env messages w Hex) as (w1 & e & Hcall & _ & Hp & _).
  rewrite Hcall in *. by exists w1, e.
Qed.

(** [k] tool rounds take the loop through [k] of its iterations. *)
Lemma chatLoop_rounds env userMessage k n n' :
  ToolRounds env k n n' ->
  forall remaining messages w, posts w = n ->
  exists w' messages',
    RAGChatbot.chatLoop env userMessage (k + remaining) messages w
    = RAGChatbot.chatLoop env userMessage remaining messages' w' /\
    posts w' = n' /\
    conversationHistory w' = conversationHistory w.
Proof.
  induction 1 as [n|k n n1 n2 Hround _ IH]; intros remaining messages w Hn.
  - by exists w, messages.
  - subst n.
    destruct (iteration_continues env userMessage messages w n1 Hround)
      as (w1 & ms1 & Hit & Hp1 & Hh1).
    destruct (IH remaining ms1 w1 Hp1) as (w2 & ms2 & Hloop & Hp2 & Hh2).
    exists w2, ms2. split; [|split; congruence].
    simpl. by rewrite Hit.
Qed.

(** C3, as amended: when the model asks for tools in each of the ten
    iterations of a turn, each time with argument strings that
    [JSON.parse] accepts, [chat] returns the fixed message about taking
    too long and the stored conversation history is what it was before
    the turn. *)
Theorem chat_iteration_ceiling env userMessage systemPrompt w n' :
  ToolRounds env 10 (posts w) n' ->
  exists w',
    RAGChatbot.chat env userMessage systemPrompt w
      = (w', Some RAGChatbot.maxIterationMessage) /\
    RAGChatbot.maxIterationMessage =
      "I apologize, but I'm taking too long to process your request. Please try asking in a different way." /\
    conversationHistory w' = conversationHistory w /\
    posts w' = n'.
Proof.
  intros Hrounds. unfold RAGChatbot.chat.
  set (messages := [SystemMsg _] ++ _).
  destruct (chatLoop_rounds env userMessage 10 (posts w) n' Hrounds
              0%nat messages w eq_refl) as (w' & ms & Hloop & Hp & Hh).
  exists w'. change (10 + 0)%nat with 10%nat in Hloop. by rewrite Hloop.
Qed.

(** C2: when, after any number of tool rounds below the ceiling, a model
    call of the turn fails on all of its attempts, [chat] returns the
    fixed message about having trouble and the stored conversation
    history is what it was before the turn. *)
Theorem chat_model_failure env userMessage systemPrompt w k n' :
  (k < 10)%nat ->
  ToolRounds env k (posts w) n' ->
  Exhausted env n' ->
  exists w',
    RAGChatbot.chat env userMessage systemPrompt w
      = (w', Some RAGChatbot.errorMessage) /\
    RAGChatbot.errorMessage =
      "I apologize, but I'm having trouble processing your request right now. Please try again in a moment." /\
    conversationHistory w' = conversationHistory w /\
    posts w' = (3 + n')%nat.
Proof.
  intros Hk Hrounds Hex. unfold RAGChatbot.chat.
  set (messages := [SystemMsg _] ++ _).
  destruct (chatLoop_rounds env userMessage k (posts w) n' Hrounds
              (10 - k)%nat messages w eq_refl) as (w1 & ms & Hloop & Hp & Hh).
  replace (k + (10 - k))%nat with 10%nat in Hloop by lia.
  rewrite Hloop. destruct (10 - k)%nat as [|r] eqn:Hr; [lia|].
  rewrite <- Hp in Hex.
  destruct (iteration_throws env userMessage ms w1 Hex)
    as (w2 & e & Hit & Hp2 & Hh2).
  exists w2. cbn [RAGChatbot.chatLoop]. rewrite Hit.
  split; [done|]. split; [done|]. split; [congruence|lia].
Qed.

(** ** The cache over the life of the process *)

Lemma CacheGrows_same w w' : cache w' = cache w -> CacheGrows w w'.
Proof.
  intros Hc. split; [by rewrite Hc|]. unfold CacheKeyed. by rewrite Hc.
Qed.

Lemma iteration_grows env userMessage messages w :
  CacheGrows w (fst (RAGChatbot.iteration env userMessage messages w)).
Proof.
  unfold RAGChatbot.iteration.
  pose proof (callOpenRouterAPI_frame env messages 3 w) as (_ & _ & Hc & _).
  destruct (RAGChatbot.callOpenRouterAPI env messages 3 w) as [w1 r].
  simpl in Hc. apply CacheGrows_same in Hc.
  destruct r as [[d|]|e]; cbn [fst]; try done.
  destruct (choices d) as [[|c cs]|]; cbn [fst]; try done.
  destruct (choice_message c) as [am|]; cbn [fst]; try done.
  destruct (tool_calls am) as [[|tc tcs]|]; cbn [fst];
    try (eapply CacheGrows_trans; [exact Hc|by apply CacheGrows_same]).
  set (messages1 := messages ++ _).
  pose proof (runTools_frame env (tc :: tcs) messages1 w1) as [_ G].
  destruct (RAGChatbot.runTools env (tc :: tcs) messages1 w1) as [w2 [ms|e]];
    cbn [fst] in *; (eapply CacheGrows_trans; [exact Hc|exact G]).
Qed.

Lemma chatLoop_grows env userMessage remaining :
  forall messages w,
  CacheGrows w (fst (RAGChatbot.chatLoop env userMessage remaining messages w)).
Proof.
  induction remaining as [|remaining IH]; intros messages w; simpl;
    [apply CacheGrows_refl|].
  pose proof (iteration_grows env userMessage messages w) as G.
  destruct (RAGChatbot.iteration env userMessage messages w)
    as [w1 [[ms|final]|e]]; simpl in *; try done.
  eapply CacheGrows_trans; [exact G|apply IH].
Qed.

Lemma runOp_grows env w op : CacheGrows w (runOp env w op).
Proof.
  destruct op as [url|urls mc|toolName args|userMessage systemPrompt|]; simpl.
  - apply fetchPageContent_spec.
  - apply fetchMultiplePages_spec.
  - apply executeToolCall_frame.
  - apply chatLoop_grows.
  - by apply CacheGrows_same.
Qed.

(** No call of the process removes or replaces a cache entry that is in
    place when the call begins. *)
Lemma runOps_grows env ops : forall w, CacheGrows w (runOps env ops w).
Proof.
  induction ops as [|op ops IH]; intros w; simpl; [apply CacheGrows_refl|].
  eapply CacheGrows_trans; [apply runOp_grows|apply IH].
Qed.



Lemma fresh_CacheKeyed : CacheKeyed Scenario.fresh.
Proof. intros u p. simpl. by rewrite lookup_empty. Qed.


(** The failed fetch leaves its error record in place; the batch and
    the one after it go on. *)
Example fetchMultiplePages_flaky :
  map (fun r => match r with Fetched _ => true | FetchError _ _ => false end)
      (snd (WebScraper.fetchMultiplePages Scenario.flaky
              ["https://www.vsf.technology/a"; "https://www.vsf.technology/b";
               "https://www.vsf.technology/c"; "https://www.vsf.technology/d"]
              3 Scenario.fresh))
  = [true; false; true; true].
Proof. vm_compute. reflexivity. Qed.

Lemma asks_search_RequestsTools env :
  JSON_parse env = Scenario.parse -> RequestsTools env Scenario.asks_search.
Proof.
  intros Hparse.
  exists {| choices :=
              Some [{| choice_message :=
                         Some {| content := None;
                                 tool_calls := Some [Scenario.search_call] |} |}] |},
    {| choice_message :=
         Some {| content := None; tool_calls := Some [Scenario.search_call] |} |},
    [], {| content := None; tool_calls := Some [Scenario.search_call] |},
    Scenario.search_call, [].
  repeat split. repeat constructor.
  exists (ArgsObject {| arg_query := Some "hosting"; arg_limit := None;
                        arg_urls := None |}).
  rewrite Hparse. reflexivity.
Defined.

Lemma tool_happy_round n : ToolRound Scenario.tool_happy n (1 + n).
Proof. apply round_first. by apply asks_search_RequestsTools. Defined.

Lemma tool_happy_rounds k n : ToolRounds Scenario.tool_happy k n (k + n).
Proof.
  revert n. induction k as [|k IH]; intros n; simpl.
  - apply rounds_done.
  - apply (rounds_more _ k n (1 + n)); [apply tool_happy_round|].
    replace (S (k + n)) with (k + (1 + n))%nat by lia. apply IH.
Defined.

Lemma chat_iteration_ceiling_witness :
  ToolRounds Scenario.tool_happy 10 (posts Scenario.fresh) 10 /\
  exists w',
    RAGChatbot.chat Scenario.tool_happy "which hosting plans?" None
      Scenario.fresh = (w', Some RAGChatbot.maxIterationMessage) /\
    conversationHistory w' = conversationHistory Scenario.fresh.
Proof.
  split; [exact (tool_happy_rounds 10 0)|].
  destruct (chat_iteration_ceiling Scenario.tool_happy "which hosting plans?"
              None Scenario.fresh 10 (tool_happy_rounds 10 0))
    as (w' & Hchat & _ & Hh & _).
  exists w'. split; [exact Hchat|exact Hh].
Defined.

(** C3 as stated fails: the model asks for tools in each of the ten
    iterations of the turn, but the argument string of the tenth request
    is not JSON; [JSON.parse] throws inside the [try] block and [chat]
    returns the message about having trouble, after ten model requests,
    not the message about taking too long. *)
Lemma chat_ceiling_garbled_counterexample :
  let turn :=
    RAGChatbot.chat Scenario.nine_then_garbled "which hosting plans?" None
      Scenario.fresh in
  Forall (fun n => AsksTools (api_reply Scenario.nine_then_garbled n))
         (seq 0 10) /\
  posts (fst turn) = 10%nat /\
  snd turn = Some RAGChatbot.errorMessage /\
  snd turn <> Some RAGChatbot.maxIterationMessage /\
  conversationHistory (fst turn) = conversationHistory Scenario.fresh.
Proof.
  split.
  { repeat constructor;
      by (eexists _, _, _, _, _, _; repeat split; reflexivity). }
  split; [by vm_compute|]. split; [by vm_compute|].
  split; [|by vm_compute].
  assert (H : snd (RAGChatbot.chat Scenario.nine_then_garbled
                     "which hosting plans?" None Scenario.fresh)
              = Some RAGChatbot.errorMessage) by (by vm_compute).
  cbv zeta. rewrite H. discriminate.
Qed.

Lemma tool_then_down_round :
  ToolRound Scenario.tool_then_down (posts Scenario.fresh) 1.
Proof.
  apply (round_first Scenario.tool_then_down 0).
  by apply asks_search_RequestsTools.
Defined.

Lemma chat_model_failure_witness :
  (1 < 10)%nat /\
  ToolRounds Scenario.tool_then_down 1 (posts Scenario.fresh) 1 /\
  Exhausted Scenario.tool_then_down 1 /\
  exists w',
    RAGChatbot.chat Scenario.tool_then_down "which hosting plans?" None
      Scenario.fresh = (w', Some RAGChatbot.errorMessage) /\
    conversationHistory w' = conversationHistory Scenario.fresh.
Proof.
  assert (Hk : (1 < 10)%nat) by lia.
  assert (Hrounds : ToolRounds Scenario.tool_then_down 1
                      (posts Scenario.fresh) 1).
  { apply (rounds_more _ 0 _ 1); [exact tool_then_down_round|].
    apply rounds_done. }
  assert (Hex : Exhausted Scenario.tool_then_down 1).
  { repeat split; exact fail_timeout. }
  split; [exact Hk|]. split; [exact Hrounds|]. split; [exact Hex|].
  destruct (chat_model_failure Scenario.tool_then_down "which hosting plans?"
              None Scenario.fresh 1 1 Hk Hrounds Hex)
    as (w' & Hchat & _ & Hh & _).
  exists w'. split; [exact Hchat|exact Hh].
Defined.

(** Started with an empty cache, the process keeps every page under its
    own URL. *)
Lemma reachable_CacheKeyed env ops w :
  cache w = ∅ -> CacheKeyed (runOps env ops w).
Proof.
  intros Hempty. apply (runOps_grows env ops w).
  intros u p. by rewrite Hempty, lookup_empty.
Qed.

(** ** Fetches that overlap *)

Lemma step_keeps env s e url p :
  cache (Overlap.world s) !! url = Some p ->
  (forall req, (req, url) ∉ Overlap.pending s) ->
  cache (Overlap.world (Overlap.step env s e)) !! url = Some p /\
  (forall req, (req, url) ∉ Overlap.pending (Overlap.step env s e)).
Proof.
  intros Hp Hidle. destruct e as [u|req u]; simpl.
  - unfold WebScraper.begin.
    destruct (cache (Overlap.world s) !! u) as [q|] eqn:Hu; simpl; [done|].
    split; [done|]. intros req [Hin|Hin]%elem_of_app; [by eapply Hidle|].
    apply list_elem_of_singleton in Hin. congruence.
  - case_bool_decide as Hin; [|done]. simpl.
    assert (u <> url) as Hne by (intros ->; by eapply Hidle).
    destruct (finish_frame env u req (Overlap.world s))
      as (_ & _ & _ & _ & Hother).
    split; [by rewrite Hother|].
    intros req' [_ Hin']%list_elem_of_filter. by eapply Hidle.
Qed.

(** Once a URL is cached and no request for it is in flight, no
    interleaving of calls and settlements sends a request for it or
    touches its entry: every later call is a cache hit on the same page. *)
Lemma overlap_idempotent env steps :
  forall s url p,
  cache (Overlap.world s) !! url = Some p ->
  (forall req, (req, url) ∉ Overlap.pending s) ->
  let s' := Overlap.run env steps s in
  cache (Overlap.world s') !! url = Some p /\
  (forall req, (req, url) ∉ Overlap.pending s') /\
  Overlap.step env s' (Overlap.Call url) = s'.
Proof.
  induction steps as [|e steps IH]; intros s url p Hp Hidle; simpl.
  - split; [done|]. split; [done|].
    unfold WebScraper.begin. rewrite Hp. by destruct s.
  - destruct (step_keeps env s e url p Hp Hidle) as [Hp' Hidle'].
    by apply IH.
Qed.

(** The calls of a batch, step by step. *)
Lemma run_calls env batch :
  forall w P,
  Overlap.run env (map Overlap.Call batch)
    {| Overlap.world := w; Overlap.pending := P |}
  = {| Overlap.world := fst (WebScraper.beginAll batch w);
       Overlap.pending :=
         P ++ WebScraper.inFlight (snd (WebScraper.beginAll batch w)) |}.
Proof.
  induction batch as [|url rest IH]; intros w P; simpl.
  - by rewrite app_nil_r.
  - destruct (WebScraper.begin url w) as [w1 [p|req]] eqn:Hb; simpl;
      rewrite IH; destruct (WebScraper.beginAll rest w1) as [w2 sts]; simpl;
      [done|]. by rewrite <- app_assoc.
Qed.

(** The requests of a batch are numbered from the count of requests
    sent before it, each with its own number. *)
Lemma beginAll_requests batch :
  forall w,
  (gets w <= gets (fst (WebScraper.beginAll batch w)))%nat /\
  Forall (fun x => (gets w <= fst x < gets (fst (WebScraper.beginAll batch w)))%nat)
         (WebScraper.inFlight (snd (WebScraper.beginAll batch w))) /\
  NoDup (WebScraper.inFlight (snd (WebScraper.beginAll batch w))).
Proof.
  induction batch as [|url rest IH]; intros w; simpl.
  - split; [lia|]. split; constructor.
  - unfold WebScraper.begin.
    destruct (cache w !! url) as [p|]; simpl.
    + specialize (IH w). destruct (WebScraper.beginAll rest w) as [w2 sts].
      simpl in *. done.
    + specialize (IH (count_get (emit (EvGet url) w))).
      destruct (WebScraper.beginAll rest (count_get (emit (EvGet url) w)))
        as [w2 sts]. simpl in *. destruct IH as (Hle & Hall & Hnd).
      split; [lia|]. split.
      * constructor; [simpl; lia|].
        eapply Forall_impl; [exact Hall|]. simpl. intros; lia.
      * constructor; [|done]. intros Hin.
        eapply Forall_forall in Hall; [|exact Hin]. simpl in Hall. lia.
Qed.

Lemma filter_all {A} (P : A -> Prop) `{!forall x, Decision (P x)} (l : list A) :
  Forall P l -> filter P l = l.
Proof.
  induction 1 as [|x l Hx _ IH]; [done|].
  by rewrite filter_cons_True, IH.
Qed.

Lemma filter_none {A} (P : A -> Prop) `{!forall x, Decision (P x)} (l : list A) :
  Forall (fun x => ~ P x) l -> filter P l = [].
Proof.
  induction 1 as [|x l Hx _ IH]; [done|].
  by rewrite filter_cons_False, IH.
Qed.

(** Requests in flight that settle one by one. *)
Lemma run_settles env l :
  forall w P, NoDup l -> (forall x, x ∈ l -> x ∈ P) ->
  Overlap.run env (map (fun x => Overlap.Settle (fst x) (snd x)) l)
    {| Overlap.world := w; Overlap.pending := P |}
  = {| Overlap.world :=
         fold_left (fun w '(req, url) =>
                      fst (WebScraper.finish env url req w)) l w;
       Overlap.pending := filter (fun x => x ∉ l) P |}.
Proof.
  induction l as [|[req url] l IH]; intros w P Hnd Hsub; simpl.
  - f_equal. symmetry. apply filter_all, Forall_forall.
    intros x _. apply not_elem_of_nil.
  - apply NoDup_cons in Hnd as [Hnotin Hnd].
    rewrite bool_decide_true by (apply Hsub; by left).
    rewrite IH; [|done|].
    + f_equal. rewrite list_filter_filter. apply list_filter_iff.
      intros x. rewrite not_elem_of_cons. tauto.
    + intros x Hx. apply list_elem_of_filter. split.
      * intros ->. done.
      * apply Hsub. by right.
Qed.

Lemma run_app env steps1 steps2 s :
  Overlap.run env (steps1 ++ steps2) s
  = Overlap.run env steps2 (Overlap.run env steps1 s).
Proof. apply fold_left_app. Qed.

(** One batch of [fetchMultiplePages] is the run of its steps. *)
Lemma fetchBatch_steps env batch w :
  Overlap.run env (Overlap.batchSteps env batch w) (Overlap.idle w)
  = Overlap.idle (fst (WebScraper.fetchBatch env batch w)).
Proof.
  unfold Overlap.batchSteps, Overlap.idle.
  rewrite run_app, run_calls. unfold WebScraper.fetchBatch.
  pose proof (beginAll_requests batch w) as (_ & _ & Hnd).
  destruct (WebScraper.beginAll batch w) as [w1 started]. simpl in *.
  set (order := Js.sort _ _).
  assert (Hperm : order ≡ₚ WebScraper.inFlight started)
    by apply sort_Permutation.
  rewrite run_settles.
  - unfold WebScraper.settleAll. fold order. f_equal.
    apply filter_none, Forall_forall. intros x Hx Hnot.
    apply Hnot. by rewrite Hperm.
  - by rewrite Hperm.
  - intros x. by rewrite Hperm.
Qed.

(** [fetchPageContent], awaited on its own, is a call and, on a cache
    miss, the settlement of its request. *)
Lemma fetchPageContent_steps env url w :
  exists steps,
    Overlap.run env steps (Overlap.idle w)
    = Overlap.idle (fst (WebScraper.fetchPageContent env url w)).
Proof.
  unfold WebScraper.fetchPageContent, WebScraper.begin.
  destruct (cache w !! url) as [p|] eqn:Hc.
  - exists [Overlap.Call url]. simpl. unfold WebScraper.begin. by rewrite Hc.
  - exists [Overlap.Call url; Overlap.Settle (gets w) url]. simpl.
    unfold WebScraper.begin. rewrite Hc. simpl.
    rewrite bool_decide_true by (apply list_elem_of_singleton; done).
    unfold Overlap.idle. f_equal.
    rewrite filter_cons_False by (intros H; by apply H). done.
Qed.

Lemma fetchLoop_steps env urls mc n :
  forall i results w, (length urls - i <= n)%nat ->
  exists steps,
    Overlap.run env steps (Overlap.idle w)
    = Overlap.idle (fst (WebScraper.fetchLoop env urls mc i results w)).
Proof.
  induction n as [|n IH]; intros i results w Hn; rewrite fetchLoop_unfold;
    destruct (decide (i < length urls)%nat) as [Hi|Hi]; try lia.
  1, 3: by exists [].
  cbn zeta.
  set (batch := WebScraper.slice i (i + Pos.to_nat mc) urls).
  destruct (IH (i + Pos.to_nat mc)%nat
               (results ++ snd (WebScraper.fetchBatch env batch w))
               (fst (WebScraper.fetchBatch env batch w)))
    as [steps Hsteps]; [lia|].
  exists (Overlap.batchSteps env batch w ++ steps).
  by rewrite run_app, fetchBatch_steps.
Qed.

(** [fetchMultiplePages] is a run of calls and settlements that begins
    and ends with no request in flight. *)
Lemma fetchMultiplePages_steps env urls mc w :
  exists steps,
    Overlap.run env steps (Overlap.idle w)
    = Overlap.idle (fst (WebScraper.fetchMultiplePages env urls mc w)).
Proof. apply (fetchLoop_steps env urls mc (length urls)). lia. Qed.

(** * Further properties of the code *)

(** ** The URL index: more on the search *)

Lemma lower_char_idempotent c : Js.lower_char (Js.lower_char c) = Js.lower_char c.
Proof. destruct c as [[] [] [] [] [] [] [] []]; reflexivity. Qed.

Lemma toLowerCase_idempotent s :
  Js.toLowerCase (Js.toLowerCase s) = Js.toLowerCase s.
Proof.
  induction s as [|c s IH]; simpl; [done|].
  by rewrite lower_char_idempotent, IH.
Qed.

(** X1: the search does not distinguish upper and lower case in the
    query: two queries with the same lower-casing give the same result,
    and a query gives the result of its lower-casing. *)
Theorem searchUrls_query_case urls query limit :
  SitemapParser.searchUrls urls query limit
  = SitemapParser.searchUrls urls (Js.toLowerCase query) limit /\
  (forall query', Js.toLowerCase query' = Js.toLowerCase query ->
     SitemapParser.searchUrls urls query' limit
     = SitemapParser.searchUrls urls query limit).
Proof.
  unfold SitemapParser.searchUrls, SitemapParser.scoredOf. split.
  - by rewrite toLowerCase_idempotent.
  - by intros query' ->.
Qed.

Lemma length_filter_le {A} (keep : A -> bool) (l : list A) :
  (length (List.filter keep l) <= length l)%nat.
Proof.
  induction l as [|x l IH]; simpl; [lia|]. destruct (keep x); simpl; lia.
Qed.

(** The records with a positive score, best first: what the search
    returns before it cuts to the limit. *)
Lemma searchUrls_all urls query limit :
  (Z.of_nat (length urls) <= limit) ->
  SitemapParser.searchUrls urls query limit
  = Js.sort (fun a b => score b - score a)
      (List.filter (fun item => 0 <? score item)
         (SitemapParser.scoredOf urls query)).
Proof.
  intros Hlimit. unfold SitemapParser.searchUrls. cbn zeta.
  set (sorted := Js.sort _ _).
  assert (Hlen : (length sorted <= length urls)%nat).
  { unfold sorted. rewrite length_sort.
    etransitivity; [apply length_filter_le|].
    unfold SitemapParser.scoredOf. by rewrite length_map. }
  rewrite slice0_take by lia. apply take_ge. lia.
Qed.

(** X2: with a limit of at least the size of the index nothing is cut:
    the result holds exactly the records of the index with a positive
    score, each as often as it occurs. *)
Theorem searchUrls_complete urls query limit :
  Z.of_nat (length urls) <= limit ->
  SitemapParser.searchUrls urls query limit
    ≡ₚ List.filter (fun item => 0 <? score item)
         (SitemapParser.scoredOf urls query) /\
  (forall r, r ∈ SitemapParser.searchUrls urls query limit <->
     r ∈ SitemapParser.scoredOf urls query /\ 0 < score r).
Proof.
  intros Hlimit. rewrite searchUrls_all by done. split.
  - apply sort_Permutation.
  - intros r. rewrite elem_of_sort, !list_elem_of_In, filter_In.
    by rewrite Z.ltb_lt.
Qed.

Lemma searchUrls_complete_witness :
  Z.of_nat (length [Scenario.wordpress_hosting; Scenario.wordpress_tips]) <= 5 /\
  SitemapParser.searchUrls
    [Scenario.wordpress_hosting; Scenario.wordpress_tips] "wordpress" 5
    ≡ₚ List.filter (fun item => 0 <? score item)
         (SitemapParser.scoredOf
            [Scenario.wordpress_hosting; Scenario.wordpress_tips] "wordpress").
Proof.
  assert (H : Z.of_nat (length [Scenario.wordpress_hosting;
                                Scenario.wordpress_tips]) <= 5)
    by (simpl; lia).
  split; [exact H|].
  exact (proj1 (searchUrls_complete
                  [Scenario.wordpress_hosting; Scenario.wordpress_tips]
                  "wordpress" 5 H)).
Defined.

(** X3: a negative limit does not give an empty result: as
    [slice(0, limit)] counts a negative end from the back, the search
    returns all the matches but the last [-limit] of them. *)
Theorem searchUrls_negative_limit urls query limit :
  limit < 0 ->
  let matches :=
    SitemapParser.searchUrls urls query (Z.of_nat (length urls)) in
  SitemapParser.searchUrls urls query limit
  = take (length matches - Z.to_nat (- limit)) matches.
Proof.
  intros Hlimit matches. unfold matches.
  rewrite (searchUrls_all urls query (Z.of_nat (length urls))) by lia.
  unfold SitemapParser.searchUrls, Js.slice0. cbn zeta.
  set (sorted := Js.sort _ _).
  destruct (Z.ltb_spec limit 0); [|lia]. f_equal. lia.
Qed.

Lemma searchUrls_negative_limit_witness :
  -1 < 0 /\
  map score (SitemapParser.searchUrls
               [Scenario.wordpress_hosting; Scenario.wordpress_tips]
               "wordpress hosting" (-1)) = [120].
Proof.
  split; [lia|].
  exact (f_equal (map score)
           (searchUrls_negative_limit
              [Scenario.wordpress_hosting; Scenario.wordpress_tips]
              "wordpress hosting" (-1) ltac:(lia))).
Defined.

(** ** Reading the sitemaps *)

Lemma allChars_app ok s t :
  Js.allChars ok (s +:+ t) = Js.allChars ok s && Js.allChars ok t.
Proof.
  induction s as [|c s IH]; simpl; [done|]. by rewrite IH, andb_assoc.
Qed.

Lemma allChars_impl (ok ok' : ascii -> bool) s :
  (forall c, ok c = true -> ok' c = true) ->
  Js.allChars ok s = true -> Js.allChars ok' s = true.
Proof.
  intros Himpl. induction s as [|c s IH]; simpl; [done|].
  intros [Hc Hs]%andb_true_iff. by rewrite (Himpl c Hc), IH.
Qed.

Lemma allChars_replaceAll ok c by_ s :
  Js.allChars ok by_ = true ->
  Js.allChars (fun d => Ascii.eqb d c || ok d) s = true ->
  Js.allChars ok (Js.replaceAll c by_ s) = true.
Proof.
  intros Hby. induction s as [|d s IH]; simpl; [done|].
  intros [Hd Hs]%andb_true_iff. destruct (Ascii.eqb d c); simpl in *.
  - by rewrite allChars_app, Hby, IH.
  - by rewrite Hd, IH.
Qed.

Lemma allChars_toLowerCase ok s :
  Js.allChars (fun c => ok (Js.lower_char c)) s = true ->
  Js.allChars ok (Js.toLowerCase s) = true.
Proof.
  induction s as [|c s IH]; simpl; [done|].
  intros [Hc Hs]%andb_true_iff. by rewrite Hc, IH.
Qed.

Lemma allChars_trimStart ok s :
  Js.allChars ok s = true -> Js.allChars ok (Js.trimStart s) = true.
Proof.
  induction s as [|c s IH]; simpl; [done|].
  intros [Hc Hs]%andb_true_iff. destruct (Js.is_space c); [by apply IH|].
  simpl. by rewrite Hc, Hs.
Qed.

Lemma allChars_trimEnd ok s :
  Js.allChars ok s = true -> Js.allChars ok (Js.trimEnd s) = true.
Proof.
  induction s as [|c s IH]; simpl; [done|].
  intros [Hc Hs]%andb_true_iff. specialize (IH Hs).
  destruct (Js.trimEnd s) as [|d t]; [destruct (Js.is_space c)|]; simpl in *;
    by rewrite ?Hc, ?IH.
Qed.

Lemma allChars_trim ok s :
  Js.allChars ok s = true -> Js.allChars ok (Js.trim s) = true.
Proof. intros H. by apply allChars_trimEnd, allChars_trimStart. Qed.

(** A string without upper-case letters is its own lower-casing. *)
Lemma toLowerCase_fixed s :
  Js.allChars (fun c => negb (Js.is_upper c)) s = true ->
  Js.toLowerCase s = s.
Proof.
  induction s as [|c s IH]; simpl; [done|].
  intros [Hc Hs]%andb_true_iff. rewrite IH by done.
  unfold Js.lower_char. by destruct (Js.is_upper c).
Qed.

Lemma trimEnd_cons c s :
  Js.trimEnd (String c s)
  = match Js.trimEnd s with
    | EmptyString => if Js.is_space c then EmptyString else String c EmptyString
    | String d t => String c (String d t)
    end.
Proof. simpl. by destruct (Js.trimEnd s). Qed.

(** What [trim] leaves neither begins nor ends with white space. *)
Lemma trimEnd_idempotent s : Js.trimEnd (Js.trimEnd s) = Js.trimEnd s.
Proof.
  induction s as [|c s IH]; [done|]. rewrite trimEnd_cons.
  destruct (Js.trimEnd s) as [|d t] eqn:Ht.
  - destruct (Js.is_space c) eqn:Hc; [done|].
    rewrite trimEnd_cons. simpl. by rewrite Hc.
  - rewrite trimEnd_cons, IH. done.
Qed.

Lemma trimEnd_head c s :
  Js.is_space c = false -> exists t, Js.trimEnd (String c s) = String c t.
Proof.
  intros Hc. rewrite trimEnd_cons. destruct (Js.trimEnd s); rewrite ?Hc; eauto.
Qed.

Lemma trimStart_cases s :
  Js.trimStart s = EmptyString \/
  exists c t, Js.trimStart s = String c t /\ Js.is_space c = false.
Proof.
  induction s as [|c s IH]; simpl; [by left|].
  destruct (Js.is_space c) eqn:Hc; [done|]. right. eauto.
Qed.

Lemma trim_idempotent s : Js.trim (Js.trim s) = Js.trim s.
Proof.
  unfold Js.trim. destruct (trimStart_cases s) as [->|(c & t & -> & Hc)].
  - reflexivity.
  - destruct (trimEnd_head c t Hc) as [t' Ht']. rewrite Ht'.
    cbn [Js.trimStart]. rewrite Hc, <- Ht'. apply trimEnd_idempotent.
Qed.

Lemma split_never_empty sep s : Js.split sep s <> [].
Proof.
  destruct s as [|c s]; simpl; [done|].
  destruct (Ascii.eqb c sep); [done|]. by destruct (Js.split sep s).
Qed.

Lemma split_head_startsWith sep p :
  Js.allChars (fun c => negb (Ascii.eqb c sep)) p = true ->
  forall line, Js.startsWith line p = true ->
  exists h t, Js.split sep line = h :: t /\ Js.startsWith h p = true.
Proof.
  induction p as [|a p IH]; simpl.
  - intros _ line _. destruct (Js.split sep line) as [|h t] eqn:Hs.
    + by destruct (split_never_empty sep line).
    + exists h, t. by rewrite startsWith_empty.
  - intros [Ha Hp]%andb_true_iff line.
    destruct line as [|b line]; simpl; [done|].
    destruct (Ascii.eqb_spec a b) as [<-|]; [|done]. intros Hline.
    destruct (IH Hp line Hline) as (h & t & Hs & Hh).
    simpl. apply negb_true_iff in Ha. rewrite Ha, Hs.
    exists (String a h), t. split; [done|]. simpl. by rewrite Ascii.eqb_refl.
Qed.

Lemma trimEnd_startsWith p :
  Js.allChars (fun c => negb (Js.is_space c)) p = true ->
  forall h, Js.startsWith h p = true -> Js.startsWith (Js.trimEnd h) p = true.
Proof.
  induction p as [|a p IH]; simpl.
  - intros _ h _. apply startsWith_empty.
  - intros [Ha Hp]%andb_true_iff h Hh.
    destruct h as [|b h]; [done|]. cbn [Js.startsWith] in Hh.
    destruct (Ascii.eqb_spec a b) as [<-|]; [|done].
    specialize (IH Hp h Hh). apply negb_true_iff in Ha.
    rewrite trimEnd_cons. destruct (Js.trimEnd h) as [|d t].
    + rewrite Ha. simpl. rewrite Ascii.eqb_refl. by destruct p.
    + simpl. by rewrite Ascii.eqb_refl.
Qed.

Lemma trim_startsWith a p h :
  Js.allChars (fun c => negb (Js.is_space c)) (String a p) = true ->
  Js.startsWith h (String a p) = true ->
  Js.startsWith (Js.trim h) (String a p) = true.
Proof.
  intros Hp Hh. unfold Js.trim.
  assert (Js.trimStart h = h) as ->; [|by apply trimEnd_startsWith].
  destruct h as [|b h]; [done|]. simpl in *.
  destruct (Ascii.eqb_spec a b) as [<-|]; [|done].
  apply andb_true_iff in Hp as [Ha%negb_true_iff _]. by rewrite Ha.
Qed.

Lemma append_cons a s t : String a s +:+ t = String a (s +:+ t).
Proof. reflexivity. Qed.

Lemma append_empty_r s : s +:+ EmptyString = s.
Proof. induction s as [|a s IH]; [done|]. by rewrite append_cons, IH. Qed.

Lemma dropChars_startsWith p :
  forall s, Js.startsWith s p = true ->
  s = p +:+ Js.dropChars (String.length p) s.
Proof.
  induction p as [|a p IH]; simpl; [done|].
  intros s. destruct s as [|b s]; simpl; [done|].
  destruct (Ascii.eqb_spec a b) as [<-|]; [|done]. intros Hs.
  rewrite append_cons. f_equal. by apply IH.
Qed.

Lemma removeFirst_startsWith p s :
  Js.startsWith s p = true -> s = p +:+ Js.removeFirst p s.
Proof.
  intros Hs.
  assert (Js.removeFirst p s = Js.dropChars (String.length p) s) as ->.
  { destruct s; cbn [Js.removeFirst]; by rewrite Hs. }
  by apply dropChars_startsWith.
Qed.

Lemma Forall_omap_Some {A B} (f : A -> option B) (P : B -> Prop) l :
  (forall x y, f x = Some y -> P y) -> Forall P (omap f l).
Proof.
  intros Hf. apply Forall_forall. intros y (x & _ & Hx)%list_elem_of_omap.
  by eapply Hf.
Qed.

Lemma length_omap_filter {A B} (f : A -> option B) (keep : A -> bool) l :
  (forall x, keep x = true <-> is_Some (f x)) ->
  length (omap f l) = length (List.filter keep l).
Proof.
  intros Hf. induction l as [|x l IH]; simpl; [done|].
  pose proof (Hf x) as Hx.
  destruct (f x) as [y|] eqn:Hy, (keep x) eqn:Hk; simpl; rewrite ?Hy.
  - exact (f_equal S IH).
  - destruct Hx as [_ Hx]. by discriminate Hx.
  - destruct Hx as [Hx _]. by destruct (Hx eq_refl).
  - exact IH.
Qed.

(** X4: [parseSitemapContent] gives one record for every line that
    starts with https://, in the order of the lines, and none for any
    other line; the URL of every record starts with https://, and every
    record has the category read off the file name. *)
Theorem parseSitemapContent_records content filename :
  let records := SitemapParser.parseSitemapContent content filename in
  length records
  = length (List.filter (fun line => Js.startsWith line "https://")
              (Js.split "010" content)) /\
  Forall (fun r =>
            Js.startsWith (url r) "https://" = true /\
            category r = SitemapParser.categoryOf filename) records.
Proof.
  unfold SitemapParser.parseSitemapContent. split.
  - apply length_omap_filter. intros line. unfold SitemapParser.parseLine.
    destruct (Js.startsWith line "https://"); split; done.
  - apply Forall_omap_Some. intros line r. unfold SitemapParser.parseLine.
    destruct (Js.startsWith line "https://") eqn:Hline; [|done].
    intros [= <-]. simpl. split; [|done].
    unfold SitemapParser.urlOfLine.
    destruct (split_head_startsWith "009" "https://" eq_refl line Hline)
      as (h & t & -> & Hh).
    by apply trim_startsWith.
Qed.

(** The keyword text of a path is in lower case, without slash or
    hyphen, and trimmed. *)
Lemma keywordsOf_normal urlPath :
  Js.toLowerCase (SitemapParser.keywordsOf urlPath)
    = SitemapParser.keywordsOf urlPath /\
  Js.trim (SitemapParser.keywordsOf urlPath) = SitemapParser.keywordsOf urlPath /\
  Js.allChars (fun c => negb (Ascii.eqb c "/" || Ascii.eqb c "-"))
    (SitemapParser.keywordsOf urlPath) = true.
Proof.
  unfold SitemapParser.keywordsOf.
  set (ok := fun c => negb (Js.is_upper c)
                      && negb (Ascii.eqb c "/" || Ascii.eqb c "-")).
  assert (Hok : Js.allChars ok
            (Js.trim (Js.toLowerCase
               (Js.replaceAll "-" " " (Js.replaceAll "/" " " urlPath)))) = true).
  { apply allChars_trim, allChars_toLowerCase.
    apply allChars_replaceAll; [done|]. apply allChars_replaceAll; [done|].
    generalize urlPath. intros s. induction s as [|c s IH]; simpl; [done|].
    rewrite IH, andb_true_r.
    by destruct c as [[] [] [] [] [] [] [] []]. }
  split; [|split].
  - apply toLowerCase_fixed. eapply allChars_impl; [|exact Hok].
    intros c. unfold ok. by intros [? _]%andb_true_iff.
  - apply trim_idempotent.
  - eapply allChars_impl; [|exact Hok].
    intros c. unfold ok. by intros [_ ?]%andb_true_iff.
Qed.

Lemma parseSitemapContent_fields content filename r :
  r ∈ SitemapParser.parseSitemapContent content filename ->
  keywords r = SitemapParser.keywordsOf (path r) /\
  title r = SitemapParser.generateTitle (path r) /\
  category r = SitemapParser.categoryOf filename.
Proof.
  unfold SitemapParser.parseSitemapContent.
  intros (line & _ & Hline)%list_elem_of_omap.
  unfold SitemapParser.parseLine in Hline.
  destruct (Js.startsWith line "https://"); [|done]. by injection Hline as <-.
Qed.

(** X5: the keyword text of every record of [parseSitemapContent] is in
    lower case, holds no slash and no hyphen, and neither begins nor ends
    with white space. *)
Theorem parseSitemapContent_keywords content filename :
  Forall (fun r =>
            Js.toLowerCase (keywords r) = keywords r /\
            Js.trim (keywords r) = keywords r /\
            Js.allChars (fun c => negb (Ascii.eqb c "/" || Ascii.eqb c "-"))
              (keywords r) = true)
         (SitemapParser.parseSitemapContent content filename).
Proof.
  apply Forall_forall. intros r [-> _]%parseSitemapContent_fields.
  apply keywordsOf_normal.
Qed.

(** X6: for a record of [parseSitemapContent] whose URL is on the site,
    the path is what follows the address of the site: URL = site + path. *)
Theorem parseSitemapContent_path content filename :
  Forall (fun r =>
            Js.startsWith (url r) SitemapParser.site = true ->
            url r = SitemapParser.site +:+ path r)
         (SitemapParser.parseSitemapContent content filename).
Proof.
  apply Forall_omap_Some. intros line r. unfold SitemapParser.parseLine.
  destruct (Js.startsWith line "https://"); [|done]. intros [= <-]. simpl.
  apply removeFirst_startsWith.
Qed.

Lemma includes_refl s : Js.includes s s = true.
Proof.
  apply includes_spec. exists EmptyString, EmptyString.
  by rewrite append_empty_r.
Qed.

(** X7: a record of [parseSitemapContent] is found by its own keyword
    text: searched in the index it was read into, with a limit that does
    not cut, that text returns the record with a score of at least 100. *)
Theorem search_finds_own_keywords content filename limit :
  let index := SitemapParser.parseSitemapContent content filename in
  Z.of_nat (length index) <= limit ->
  Forall (fun r =>
            exists found,
              found ∈ SitemapParser.searchUrls index (keywords r) limit /\
              urlData found = r /\ 100 <= score found) index.
Proof.
  intros index Hlimit. apply Forall_forall. intros r Hr.
  pose proof (parseSitemapContent_fields content filename r Hr) as [Hk _].
  pose proof (keywordsOf_normal (path r)) as [Hlow _]. rewrite <- Hk in Hlow.
  exists (Spec.scored Spec.blank (keywords r) r).
  assert (Hscore : 100 <= Spec.scoreOf Spec.blank (keywords r) r).
  { unfold Spec.scoreOf. rewrite Hlow, includes_refl. unfold Spec.bonus at 1.
    unfold Spec.bonus.
    repeat match goal with |- context [if ?b then _ else _] =>
      destruct b; simpl end; lia. }
  split; [|by split].
  rewrite searchUrls_all by done.
  apply elem_of_sort, list_elem_of_In, filter_In. split.
  - rewrite scoredOf_spec. apply in_map. by apply list_elem_of_In.
  - simpl. apply Z.ltb_lt. lia.
Qed.

Lemma search_finds_own_keywords_witness :
  Z.of_nat (length (SitemapParser.parseSitemapContent
                      Scenario.page_sitemap "page-sitemap.xml")) <= 5 /\
  Forall (fun r =>
            exists found,
              found ∈ SitemapParser.searchUrls
                        (SitemapParser.parseSitemapContent
                           Scenario.page_sitemap "page-sitemap.xml")
                        (keywords r) 5 /\
              urlData found = r /\ 100 <= score found)
         (SitemapParser.parseSitemapContent
            Scenario.page_sitemap "page-sitemap.xml").
Proof.
  assert (H : Z.of_nat (length (SitemapParser.parseSitemapContent
                 Scenario.page_sitemap "page-sitemap.xml")) <= 5)
    by (vm_compute; discriminate).
  split; [exact H|].
  exact (search_finds_own_keywords Scenario.page_sitemap "page-sitemap.xml"
           5 H).
Defined.

(** ** Titles *)

Lemma join_cons sep w v rest :
  Js.join sep (w :: v :: rest) = w +:+ String sep (Js.join sep (v :: rest)).
Proof. reflexivity. Qed.

(** Joining the pieces of a split gives the string back. *)
Lemma join_split sep s : Js.join sep (Js.split sep s) = s.
Proof.
  induction s as [|c s IH]; [done|]. cbn [Js.split].
  pose proof (split_never_empty sep s) as Hne.
  destruct (Ascii.eqb_spec c sep) as [->|Hc].
  - destruct (Js.split sep s) as [|w ws]; [done|].
    rewrite join_cons, IH. reflexivity.
  - destruct (Js.split sep s) as [|w ws]; [done|].
    destruct ws as [|v ws].
    + simpl in *. by rewrite IH.
    + rewrite join_cons in *. rewrite append_cons. by rewrite IH.
Qed.

Lemma split_app_sep sep w s :
  Js.allChars (fun c => negb (Ascii.eqb c sep)) w = true ->
  Js.split sep (w +:+ String sep s) = w :: Js.split sep s.
Proof.
  induction w as [|a w IH]; intros Hw.
  - change (EmptyString +:+ String sep s) with (String sep s).
    cbn [Js.split]. by rewrite Ascii.eqb_refl.
  - simpl in Hw. apply andb_true_iff in Hw as [Ha%negb_true_iff Hw].
    rewrite append_cons. cbn [Js.split]. by rewrite Ha, IH.
Qed.

Lemma split_no_sep sep w :
  Js.allChars (fun c => negb (Ascii.eqb c sep)) w = true ->
  Js.split sep w = [w].
Proof.
  induction w as [|a w IH]; intros Hw; [done|].
  simpl in Hw. apply andb_true_iff in Hw as [Ha%negb_true_iff Hw].
  cbn [Js.split]. by rewrite Ha, IH.
Qed.

(** Splitting a join of pieces that hold no separator gives the pieces
    back. *)
Lemma split_join sep ws :
  ws <> [] ->
  Forall (fun w => Js.allChars (fun c => negb (Ascii.eqb c sep)) w = true) ws ->
  Js.split sep (Js.join sep ws) = ws.
Proof.
  intros Hne Hws. induction Hws as [|w ws Hw Hws IH]; [done|].
  destruct ws as [|v ws].
  - by apply split_no_sep.
  - rewrite join_cons, split_app_sep by done. by rewrite IH.
Qed.

(** No piece of a split holds the separator. *)
Lemma split_pieces sep s :
  Forall (fun w => Js.allChars (fun c => negb (Ascii.eqb c sep)) w = true)
         (Js.split sep s).
Proof.
  induction s as [|c s IH]; cbn [Js.split]; [by repeat constructor|].
  destruct (Ascii.eqb c sep) eqn:Hc; [by constructor|].
  destruct (Js.split sep s) as [|w ws].
  { constructor; [|constructor]. simpl. by rewrite Hc. }
  apply Forall_cons in IH as [Hw Hws]. constructor; [|done].
  simpl. by rewrite Hc, Hw.
Qed.

Lemma length_append s t :
  String.length (s +:+ t) = (String.length s + String.length t)%nat.
Proof. induction s as [|a s IH]; [done|]. rewrite append_cons. simpl. by rewrite IH. Qed.

Lemma length_capitalize w : String.length (Js.capitalize w) = String.length w.
Proof. by destruct w. Qed.

Lemma length_join_capitalize sep ws :
  String.length (Js.join sep (map Js.capitalize ws))
  = String.length (Js.join sep ws).
Proof.
  induction ws as [|w ws IH]; [done|]. destruct ws as [|v ws].
  - apply length_capitalize.
  - cbn [map] in *. rewrite !join_cons, !length_append.
    cbn [String.length]. by rewrite IH, length_capitalize.
Qed.

Lemma capitalize_no_blank w :
  Js.allChars (fun c => negb (Ascii.eqb c " ")) w = true ->
  Js.allChars (fun c => negb (Ascii.eqb c " ")) (Js.capitalize w) = true.
Proof.
  destruct w as [|c w]; [done|]. simpl.
  intros [Hc Hw]%andb_true_iff. rewrite Hw, andb_true_r. revert Hc.
  by destruct c as [[] [] [] [] [] [] [] []].
Qed.

(** X8: the title of a path of ASCII characters is made of the words of
    the path, slashes removed and hyphens turned into blanks, each with
    its first letter in upper case; it has the length of that text, and
    it is "Home" when nothing is left of the path. *)
Theorem generateTitle_words urlPath :
  Js.allChars Js.is_ascii urlPath = true ->
  let cleaned :=
    Js.replaceAll "-" " " (Js.replaceAll "/" EmptyString urlPath) in
  (cleaned = EmptyString -> SitemapParser.generateTitle urlPath = "Home") /\
  (cleaned <> EmptyString ->
     Js.split " " (SitemapParser.generateTitle urlPath)
       = map Js.capitalize (Js.split " " cleaned) /\
     String.length (SitemapParser.generateTitle urlPath)
       = String.length cleaned).
Proof.
  intros _ cleaned. unfold SitemapParser.generateTitle. fold cleaned.
  set (joined := Js.join " " (map Js.capitalize (Js.split " " cleaned))).
  assert (Hlen : String.length joined = String.length cleaned).
  { unfold joined. by rewrite length_join_capitalize, join_split. }
  split.
  - intros Hc. rewrite Hc in Hlen. by destruct joined.
  - intros Hc. assert (joined <> EmptyString) as Hj.
    { intros Hj. rewrite Hj in Hlen. by destruct cleaned. }
    destruct joined as [|c j] eqn:Hjoined; [done|]. split; [|done].
    rewrite <- Hjoined. unfold joined. apply split_join.
    + pose proof (split_never_empty " " cleaned).
      by destruct (Js.split " " cleaned).
    + apply Forall_forall. intros w (v & -> & Hv)%list_elem_of_fmap.
      apply capitalize_no_blank.
      by eapply Forall_forall in Hv; [|apply split_pieces].
Qed.

Lemma generateTitle_words_witness :
  Js.allChars Js.is_ascii "wordpress-hosting/" = true /\
  Js.split " " (SitemapParser.generateTitle "wordpress-hosting/")
  = ["Wordpress"; "Hosting"] /\
  String.length (SitemapParser.generateTitle "wordpress-hosting/") = 17%nat.
Proof.
  split; [reflexivity|].
  destruct (generateTitle_words "wordpress-hosting/" eq_refl) as [_ Hwords].
  apply Hwords. discriminate.
Defined.


(** ** Loading the index *)

Lemma loadFile_index fs dir w file :
  index_urls (SitemapLoader.loadFile fs dir w file)
  = index_urls w ++ SitemapLoader.recordsOf fs dir file /\
  conversationHistory (SitemapLoader.loadFile fs dir w file)
  = conversationHistory w /\
  cache (SitemapLoader.loadFile fs dir w file) = cache w.
Proof.
  unfold SitemapLoader.loadFile, SitemapLoader.recordsOf.
  destruct (readFileSync fs (path_join fs dir file)); simpl; [done|].
  by rewrite app_nil_r.
Qed.

Lemma load_fold fs dir files :
  forall w,
  index_urls (fold_left (SitemapLoader.loadFile fs dir) files w)
  = index_urls w ++ flat_map (SitemapLoader.recordsOf fs dir) files /\
  conversationHistory (fold_left (SitemapLoader.loadFile fs dir) files w)
  = conversationHistory w /\
  cache (fold_left (SitemapLoader.loadFile fs dir) files w) = cache w.
Proof.
  induction files as [|file files IH]; intros w; simpl.
  - by rewrite app_nil_r.
  - destruct (IH (SitemapLoader.loadFile fs dir w file)) as (Hi & Hh & Hc).
    destruct (loadFile_index fs dir w file) as (Hi' & Hh' & Hc').
    rewrite Hi, Hi', Hh, Hh', Hc, Hc'. by rewrite <- app_assoc.
Qed.

(** X9: [loadSitemaps] appends to the index the records of the three
    sitemap files, in the order page, post, product; a file that cannot
    be read adds nothing and does not stop the others.  The index is
    not cleared first: loading a second time adds every record again. *)
Theorem loadSitemaps_appends fs sitemapDir w :
  let loaded :=
    flat_map (SitemapLoader.recordsOf fs sitemapDir)
      ["page-sitemap.xml"; "post-sitemap.xml"; "reseller_product-sitemap.xml"] in
  let once := SitemapLoader.loadSitemaps fs sitemapDir w in
  let twice := SitemapLoader.loadSitemaps fs sitemapDir once in
  index_urls once = index_urls w ++ loaded /\
  index_urls twice = index_urls w ++ loaded ++ loaded /\
  conversationHistory once = conversationHistory w /\
  cache once = cache w.
Proof.
  intros loaded once twice. unfold twice, once, SitemapLoader.loadSitemaps.
  destruct (load_fold fs sitemapDir SitemapLoader.files w) as (Hi & Hh & Hc).
  destruct (load_fold fs sitemapDir SitemapLoader.files
              (fold_left (SitemapLoader.loadFile fs sitemapDir)
                 SitemapLoader.files w)) as (Hi2 & _).
  rewrite Hi2, Hi, <- app_assoc. done.
Qed.

(** X10: every record that [loadSitemaps] adds has the category page,
    blog or product: none of the three file names leaves a record in
    the category general. *)
Theorem loadSitemaps_categories fs sitemapDir w :
  Forall (fun r => r ∈ index_urls w \/ category r <> general)
         (index_urls (SitemapLoader.loadSitemaps fs sitemapDir w)).
Proof.
  apply Forall_forall. intros r. unfold SitemapLoader.loadSitemaps.
  destruct (load_fold fs sitemapDir SitemapLoader.files w) as (-> & _).
  intros [Hr|Hr]%elem_of_app; [by left|]. right.
  apply list_elem_of_In, in_flat_map in Hr as (file & Hfile & Hr).
  unfold SitemapLoader.recordsOf in Hr.
  destruct (readFileSync fs (path_join fs sitemapDir file)) as [content|];
    [|done].
  apply list_elem_of_In, parseSitemapContent_fields in Hr as (_ & _ & ->).
  simpl in Hfile. by destruct Hfile as [<-|[<-|[<-|[]]]].
Qed.

(** With only the page sitemap in place, the index is its three records,
    the home page among them. *)
Example loadSitemaps_pages_only :
  map (fun r => (path r, keywords r, title r, category r))
      (index_urls (SitemapLoader.loadSitemaps Scenario.pages_only "sitemaps"
                     (set_index [] Scenario.fresh)))
  = [(EmptyString, EmptyString, "Home", page);
     ("wordpress-hosting/", "wordpress hosting", "Wordpress Hosting", page);
     ("SSL-Certificates", "ssl certificates", "SSL Certificates", page)].
Proof. vm_compute. reflexivity. Qed.

(** ** What a run leaves behind *)

Lemma Evolves_refl env w : Evolves env w w.
Proof. split; [done|]. split; [by exists []; rewrite app_nil_r|]. auto. Qed.

Lemma Evolves_trans env w1 w2 w3 :
  Evolves env w1 w2 -> Evolves env w2 w3 -> Evolves env w1 w3.
Proof.
  intros (I1 & [t1 T1] & C1) (I2 & [t2 T2] & C2).
  split; [congruence|]. split.
  - exists (t1 ++ t2). by rewrite T2, T1, app_assoc.
  - intros u p [Hp|Hp]%C2; [by apply C1|by right].
Qed.

(** A step that leaves index and cache alone and adds to the trace. *)
Lemma Evolves_same env w w' t :
  index_urls w' = index_urls w -> cache w' = cache w ->
  trace w' = trace w ++ t -> Evolves env w w'.
Proof.
  intros Hi Hc Ht. split; [done|]. split; [by exists t|].
  intros u p. rewrite Hc. auto.
Qed.

Lemma begin_Evolves env url w :
  Evolves env w (fst (WebScraper.begin url w)).
Proof.
  unfold WebScraper.begin. destruct (cache w !! url); simpl.
  - apply Evolves_refl.
  - by apply (Evolves_same env _ _ [EvGet url]).
Qed.

Lemma finish_Evolves env url req w :
  Evolves env w (fst (WebScraper.finish env url req w)).
Proof.
  unfold WebScraper.finish.
  destruct (WebScraper.settled env url req) as [p|e] eqn:Hs; simpl;
    [|apply Evolves_refl].
  split; [done|]. split; [by exists []; rewrite app_nil_r|].
  intros u q. simpl. destruct (decide (url = u)) as [<-|Hne].
  - rewrite lookup_insert_eq. intros [= <-]. right. by exists req.
  - rewrite lookup_insert_ne by done. auto.
Qed.

Lemma beginAll_Evolves env batch :
  forall w, Evolves env w (fst (WebScraper.beginAll batch w)).
Proof.
  induction batch as [|url rest IH]; intros w; simpl; [apply Evolves_refl|].
  pose proof (begin_Evolves env url w) as H1.
  destruct (WebScraper.begin url w) as [w1 st].
  pose proof (IH w1) as H2.
  destruct (WebScraper.beginAll rest w1) as [w2 sts]. simpl in *.
  by eapply Evolves_trans.
Qed.

Lemma settle_Evolves env (l : list (nat * string)) :
  forall w,
  Evolves env w (fold_left (fun w '(req, url) =>
                              fst (WebScraper.finish env url req w)) l w).
Proof.
  induction l as [|[req url] l IH]; intros w; simpl; [apply Evolves_refl|].
  eapply Evolves_trans; [apply finish_Evolves|apply IH].
Qed.

Lemma fetchBatch_Evolves env batch w :
  Evolves env w (fst (WebScraper.fetchBatch env batch w)).
Proof.
  unfold WebScraper.fetchBatch.
  pose proof (beginAll_Evolves env batch w) as H1.
  destruct (WebScraper.beginAll batch w) as [w1 started]. simpl in *.
  eapply Evolves_trans; [exact H1|apply settle_Evolves].
Qed.

Lemma fetchLoop_Evolves env urls mc n :
  forall i results w, (length urls - i <= n)%nat ->
  Evolves env w (fst (WebScraper.fetchLoop env urls mc i results w)).
Proof.
  induction n as [|n IH]; intros i results w Hn; rewrite fetchLoop_unfold;
    destruct (decide (i < length urls)%nat) as [Hi|Hi]; try lia;
    try apply Evolves_refl.
  cbn zeta. eapply Evolves_trans; [apply fetchBatch_Evolves|].
  apply IH. lia.
Qed.

Lemma fetchMultiplePages_Evolves env urls mc w :
  Evolves env w (fst (WebScraper.fetchMultiplePages env urls mc w)).
Proof. apply (fetchLoop_Evolves env urls mc (length urls)). lia. Qed.

Lemma fetchPageContent_Evolves env url w :
  Evolves env w (fst (WebScraper.fetchPageContent env url w)).
Proof.
  unfold WebScraper.fetchPageContent.
  pose proof (begin_Evolves env url w) as H1.
  destruct (WebScraper.begin url w) as [w1 [p|req]]; simpl in *; [done|].
  eapply Evolves_trans; [exact H1|apply finish_Evolves].
Qed.

Lemma toolSwitch_Evolves env toolName args w :
  Evolves env w (fst (RAGChatbot.toolSwitch env toolName args w)).
Proof.
  unfold RAGChatbot.toolSwitch.
  destruct (String.eqb toolName "search_website_urls").
  { destruct args as [|a]; [|destruct (arg_query a)]; apply Evolves_refl. }
  destruct (String.eqb toolName "fetch_webpage_content");
    [|apply Evolves_refl].
  destruct args as [|a]; [|destruct (arg_urls a) as [urls|]];
    try apply Evolves_refl.
  pose proof (fetchMultiplePages_Evolves env (Js.slice0 3 urls) 3 w) as H.
  by destruct (WebScraper.fetchMultiplePages env (Js.slice0 3 urls) 3 w).
Qed.

Lemma executeToolCall_Evolves env toolName args w :
  Evolves env w (fst (RAGChatbot.executeToolCall env toolName args w)).
Proof. rewrite executeToolCall_world. apply toolSwitch_Evolves. Qed.

Lemma runTools_Evolves env toolCalls :
  forall messages w,
  Evolves env w (fst (RAGChatbot.runTools env toolCalls messages w)).
Proof.
  induction toolCalls as [|tc rest IH]; intros messages w; simpl;
    [apply Evolves_refl|].
  destruct (JSON_parse env (function_arguments tc)) as [args|e];
    [|apply Evolves_refl].
  pose proof (executeToolCall_Evolves env (function_name tc) args w) as H.
  destruct (RAGChatbot.executeToolCall env (function_name tc) args w)
    as [w1 [r|e]]; simpl in *; [|done].
  eapply Evolves_trans; [exact H|apply IH].
Qed.

Lemma attempts_unfold env messages retries remaining attempt_no w :
  RAGChatbot.attempts env messages retries (S remaining) attempt_no w
  = match RAGChatbot.checked env (api_reply env (posts w)) with
    | Ok data => (count_post (emit (EvPost messages) w), Ok (Some data))
    | Throw error =>
        if (attempt_no =? retries)%nat
        then (count_post (emit (EvPost messages) w), Throw error)
        else RAGChatbot.attempts env messages retries remaining (S attempt_no)
               (sleep (RAGChatbot.waitTime attempt_no)
                  (count_post (emit (EvPost messages) w)))
    end.
Proof.
  cbn [RAGChatbot.attempts RAGChatbot.attempt].
  by destruct (RAGChatbot.checked env (api_reply env (posts w))).
Qed.

(** What the model call adds to the trace begins with its first request. *)
Lemma attempts_trace env messages retries remaining :
  forall attempt_no w,
  let w' := fst (RAGChatbot.attempts env messages retries (S remaining)
                   attempt_no w) in
  exists t, trace w' = trace w ++ EvPost messages :: t.
Proof.
  induction remaining as [|remaining IH]; intros attempt_no w;
    cbv zeta; rewrite attempts_unfold;
    (destruct (RAGChatbot.checked env (api_reply env (posts w)));
      [by exists []|]);
    (destruct (attempt_no =? retries)%nat; [by exists []|]).
  - simpl. rewrite <- app_assoc. simpl. eauto.
  - edestruct (IH (S attempt_no)
                 (sleep (RAGChatbot.waitTime attempt_no)
                    (count_post (emit (EvPost messages) w)))) as [t Ht].
    cbv zeta in Ht. rewrite Ht. simpl. rewrite <- !app_assoc. simpl. eauto.
Qed.

Lemma attempts_Evolves env messages retries remaining :
  forall attempt_no w,
  Evolves env w (fst (RAGChatbot.attempts env messages retries remaining
                        attempt_no w)).
Proof.
  intros attempt_no w.
  pose proof (attempts_frame env messages retries remaining attempt_no w)
    as (Hi & _ & Hc & _).
  destruct remaining as [|remaining]; [apply Evolves_refl|].
  destruct (attempts_trace env messages retries remaining attempt_no w)
    as [t Ht].
  by eapply Evolves_same.
Qed.

Lemma iteration_Evolves env userMessage messages w :
  Evolves env w (fst (RAGChatbot.iteration env userMessage messages w)).
Proof.
  unfold RAGChatbot.iteration, RAGChatbot.callOpenRouterAPI.
  pose proof (attempts_Evolves env messages 3 3 1 w) as H.
  destruct (RAGChatbot.attempts env messages 3 3 1 w) as [w1 r].
  cbn [fst] in H.
  destruct r as [[d|]|e]; cbn [fst]; try done.
  destruct (choices d) as [[|c cs]|]; cbn [fst]; try done.
  destruct (choice_message c) as [am|]; cbn [fst]; try done.
  destruct (tool_calls am) as [[|tc tcs]|]; cbn [fst];
    try (eapply Evolves_trans; [exact H|];
         by apply (Evolves_same env _ _ []); rewrite ?app_nil_r).
  set (messages1 := messages ++ _).
  pose proof (runTools_Evolves env (tc :: tcs) messages1 w1) as G.
  destruct (RAGChatbot.runTools env (tc :: tcs) messages1 w1) as [w2 [ms|e]];
    cbn [fst] in *; (eapply Evolves_trans; [exact H|exact G]).
Qed.

Lemma chatLoop_Evolves env userMessage remaining :
  forall messages w,
  Evolves env w (fst (RAGChatbot.chatLoop env userMessage remaining messages w)).
Proof.
  induction remaining as [|remaining IH]; intros messages w; simpl;
    [apply Evolves_refl|].
  pose proof (iteration_Evolves env userMessage messages w) as G.
  destruct (RAGChatbot.iteration env userMessage messages w)
    as [w1 [[ms|final]|e]]; simpl in *; try done.
  eapply Evolves_trans; [exact G|apply IH].
Qed.

Lemma runOp_Evolves env w op : Evolves env w (runOp env w op).
Proof.
  destruct op as [url|urls mc|toolName args|userMessage systemPrompt|]; simpl.
  - apply fetchPageContent_Evolves.
  - apply fetchMultiplePages_Evolves.
  - apply executeToolCall_Evolves.
  - apply chatLoop_Evolves.
  - by apply (Evolves_same env _ _ []); rewrite ?app_nil_r.
Qed.

Lemma runOps_Evolves env ops : forall w, Evolves env w (runOps env ops w).
Proof.
  induction ops as [|op ops IH]; intros w; simpl; [apply Evolves_refl|].
  eapply Evolves_trans; [apply runOp_Evolves|apply IH].
Qed.

(** ** The pages in the cache *)

Lemma is_space_blank : Js.is_space " " = true.
Proof. reflexivity. Qed.

Lemma collapse_cons c s :
  WebScraper.collapse (String c s)
  = if Js.is_space c then
      match s with
      | String c' _ =>
          if Js.is_space c' then WebScraper.collapse s
          else String " " (WebScraper.collapse s)
      | EmptyString => String " " EmptyString
      end
    else String c (WebScraper.collapse s).
Proof. reflexivity. Qed.

Lemma collapsed_cons c s :
  collapsed (String c s)
  = (negb (Js.is_space c)
     || (Ascii.eqb c " "
         && match s with
            | String d _ => negb (Js.is_space d)
            | EmptyString => true
            end))
    && collapsed s.
Proof. reflexivity. Qed.

(** After [collapse] no white space is left but single blanks. *)
Lemma collapsed_collapse s : collapsed (WebScraper.collapse s) = true.
Proof.
  induction s as [|c s IH]; [done|]. rewrite collapse_cons.
  destruct (Js.is_space c) eqn:Hc.
  - destruct s as [|c' s']; [done|].
    destruct (Js.is_space c') eqn:Hc'; [done|].
    rewrite collapsed_cons, IH, andb_true_r.
    rewrite collapse_cons, Hc'. cbn [negb orb]. by rewrite Hc'.
  - rewrite collapsed_cons, IH, Hc. done.
Qed.

Lemma collapsed_prefix a b :
  collapsed (a +:+ b) = true -> collapsed a = true.
Proof.
  induction a as [|c a IH]; [done|]. rewrite append_cons, !collapsed_cons.
  intros [Hc Ha]%andb_true_iff. rewrite (IH Ha), andb_true_r.
  destruct a as [|d a]; [|exact Hc].
  destruct (negb (Js.is_space c)); [done|]. simpl in *.
  apply andb_true_iff in Hc as [-> _]. done.
Qed.

Lemma collapsed_suffix a b :
  collapsed (a +:+ b) = true -> collapsed b = true.
Proof.
  induction a as [|c a IH]; [done|]. rewrite append_cons, collapsed_cons.
  intros [_ Ha]%andb_true_iff. by apply IH.
Qed.

Lemma trimStart_suffix s : exists a, s = a +:+ Js.trimStart s.
Proof.
  induction s as [|c s [a IH]]; [by exists EmptyString|]. simpl.
  destruct (Js.is_space c).
  - exists (String c a). rewrite append_cons. by rewrite <- IH.
  - by exists EmptyString.
Qed.

Lemma trimEnd_prefix s : exists b, s = Js.trimEnd s +:+ b.
Proof.
  induction s as [|c s [b IH]]; [by exists EmptyString|]. rewrite trimEnd_cons.
  destruct (Js.trimEnd s) as [|d t].
  - destruct (Js.is_space c).
    + by exists (String c s).
    + exists s. reflexivity.
  - exists b. rewrite append_cons. by rewrite <- IH.
Qed.

Lemma substring0_prefix n s : exists b, s = Js.substring0 n s +:+ b.
Proof.
  unfold Js.substring0. revert s. induction n as [|n IH]; intros s.
  - exists s. by destruct s.
  - destruct s as [|c s]; [by exists EmptyString|].
    destruct (IH s) as [b Hb]. exists b. simpl. rewrite append_cons.
    by rewrite <- Hb.
Qed.

Lemma length_substring0 n s : (String.length (Js.substring0 n s) <= n)%nat.
Proof.
  unfold Js.substring0. revert s. induction n as [|n IH]; intros s.
  - by destruct s.
  - destruct s as [|c s]; simpl; [lia|]. specialize (IH s). lia.
Qed.

(** The page of a request that settled has the shape that
    [fetchPageContent] gives it. *)
Lemma settled_shaped env u req p :
  WebScraper.settled env u req = Ok p -> PageShaped u p.
Proof.
  unfold WebScraper.settled. destruct (page_reply env req) as [doc now|];
    [|done].
  intros [= <-]. unfold PageShaped, WebScraper.makeResult. simpl.
  split; [done|]. split; [apply length_substring0|].
  split; [|split; apply trim_idempotent].
  set (text := WebScraper.collapse (doc_text doc)).
  destruct (substring0_prefix 3000 (Js.trim text)) as [b Hb].
  apply (collapsed_prefix _ b). rewrite <- Hb. unfold Js.trim.
  destruct (trimEnd_prefix (Js.trimStart text)) as [b' Hb'].
  apply (collapsed_prefix _ b'). rewrite <- Hb'.
  destruct (trimStart_suffix text) as [a Ha].
  apply (collapsed_suffix a). rewrite <- Ha. apply collapsed_collapse.
Qed.

(** X11: in a process that starts with an empty cache, whatever calls
    are made, every page in the cache is stored under its own URL, has a
    content of at most 3000 characters whose only white space is single
    blanks, and a title and a description without white space at either
    end. *)
Theorem cached_pages_shaped env ops w :
  cache w = ∅ ->
  map_Forall PageShaped (cache (runOps env ops w)).
Proof.
  intros Hempty u p Hp.
  destruct (runOps_Evolves env ops w) as (_ & _ & Hfrom).
  destruct (Hfrom u p Hp) as [Hw|[req Hreq]].
  - by rewrite Hempty, lookup_empty in Hw.
  - by eapply settled_shaped.
Qed.

Lemma cached_pages_shaped_witness :
  cache Scenario.fresh = ∅ /\
  map_Forall PageShaped
    (cache (runOps Scenario.site_up
              [FetchMany [Scenario.pricing_url; "https://www.vsf.technology/"] 3;
               Chat "pricing?" None]
              Scenario.fresh)).
Proof.
  split; [reflexivity|].
  exact (cached_pages_shaped Scenario.site_up
           [FetchMany [Scenario.pricing_url; "https://www.vsf.technology/"] 3;
            Chat "pricing?" None]
           Scenario.fresh eq_refl).
Defined.

(** ** The page fetcher: failures, hits and requests *)

(** X12: a fetch that fails is thrown with the URL and the cause in its
    message and leaves no trace in the cache: one request was sent, and
    the next fetch of the URL sends a request again. *)
Theorem fetchPageContent_failure env url w m :
  cache w !! url = None ->
  page_reply env (gets w) = GetFail m ->
  let failed := WebScraper.fetchPageContent env url w in
  snd failed
    = Throw (Error ("Failed to fetch content from " +:+ url +:+ ": " +:+ m)) /\
  cache (fst failed) = cache w /\
  gets (fst failed) = S (gets w) /\
  gets (fst (WebScraper.fetchPageContent env url (fst failed)))
    = S (S (gets w)).
Proof.
  intros Hmiss Hreply.
  unfold WebScraper.fetchPageContent, WebScraper.begin. rewrite Hmiss.
  unfold WebScraper.finish, WebScraper.settled. simpl. rewrite Hreply. simpl.
  repeat split. rewrite Hmiss.
  by destruct (page_reply env (S (gets w))).
Qed.

Lemma fetchPageContent_failure_witness :
  cache Scenario.fresh !! Scenario.pricing_url = None /\
  page_reply Scenario.offline (gets Scenario.fresh)
    = GetFail "getaddrinfo ENOTFOUND" /\
  snd (WebScraper.fetchPageContent Scenario.offline Scenario.pricing_url
         Scenario.fresh)
  = Throw (Error ("Failed to fetch content from " +:+ Scenario.pricing_url
                  +:+ ": " +:+ "getaddrinfo ENOTFOUND")).
Proof.
  split; [reflexivity|]. split; [reflexivity|].
  exact (proj1 (fetchPageContent_failure Scenario.offline Scenario.pricing_url
                  Scenario.fresh "getaddrinfo ENOTFOUND" eq_refl eq_refl)).
Defined.

Lemma beginAll_cached batch w :
  Forall (fun u => is_Some (cache w !! u)) batch ->
  fst (WebScraper.beginAll batch w) = w /\
  WebScraper.inFlight (snd (WebScraper.beginAll batch w)) = [] /\
  forall env,
    map (WebScraper.batchResult env) (snd (WebScraper.beginAll batch w))
    = omap (fun u => Fetched <$> cache w !! u) batch.
Proof.
  induction 1 as [|u batch [p Hp] _ (IHw & IHf & IHr)]; simpl; [done|].
  unfold WebScraper.begin. rewrite Hp.
  destruct (WebScraper.beginAll batch w) as [w2 sts]. simpl in *. subst w2.
  split; [done|]. split; [done|]. intros env. by rewrite IHr.
Qed.

Lemma fetchBatch_cached env batch w :
  Forall (fun u => is_Some (cache w !! u)) batch ->
  WebScraper.fetchBatch env batch w
  = (w, omap (fun u => Fetched <$> cache w !! u) batch).
Proof.
  intros Hall. unfold WebScraper.fetchBatch.
  destruct (beginAll_cached batch w Hall) as (Hw & Hf & Hr).
  specialize (Hr env).
  destruct (WebScraper.beginAll batch w) as [w1 started]. simpl in *.
  rewrite Hf, Hr, Hw. reflexivity.
Qed.

Lemma fetchLoop_cached env urls mc w n :
  Forall (fun u => is_Some (cache w !! u)) urls ->
  forall i results, (length urls - i <= n)%nat ->
  WebScraper.fetchLoop env urls mc i results w
  = (w, results ++ omap (fun u => Fetched <$> cache w !! u) (drop i urls)).
Proof.
  intros Hall. induction n as [|n IH]; intros i results Hn;
    rewrite fetchLoop_unfold;
    destruct (decide (i < length urls)%nat) as [Hi|Hi]; try lia.
  1, 3: by rewrite drop_ge, app_nil_r by lia.
  cbn zeta. rewrite slice_take_drop.
  set (batch := take (Pos.to_nat mc) (drop i urls)).
  assert (Hbatch : Forall (fun u => is_Some (cache w !! u)) batch).
  { unfold batch. by apply Forall_take, Forall_drop. }
  rewrite (fetchBatch_cached env batch w Hbatch). cbn [fst snd].
  rewrite IH by lia. f_equal. rewrite <- app_assoc. f_equal.
  rewrite <- omap_app. f_equal. unfold batch.
  by rewrite <- drop_drop, take_drop.
Qed.

(** X13: when every URL of the list is in the cache,
    [fetchMultiplePages] sends no request and changes nothing: it
    returns the cached pages in the order of the list. *)
Theorem fetchMultiplePages_cached env urls maxConcurrent w :
  Forall (fun u => is_Some (cache w !! u)) urls ->
  WebScraper.fetchMultiplePages env urls maxConcurrent w
  = (w, omap (fun u => Fetched <$> cache w !! u) urls) /\
  length (omap (fun u => Fetched <$> cache w !! u) urls) = length urls.
Proof.
  intros Hall. split.
  - unfold WebScraper.fetchMultiplePages.
    by rewrite (fetchLoop_cached env urls maxConcurrent w (length urls) Hall)
      by lia.
  - clear env maxConcurrent. induction Hall as [|u urls [p Hp] _ IH]; [done|].
    simpl. rewrite Hp. exact (f_equal S IH).
Qed.

Lemma pricing_cached :
  cache (fst (WebScraper.fetchPageContent Scenario.site_up Scenario.pricing_url
                Scenario.fresh)) !! Scenario.pricing_url
  = Some Scenario.first_page.
Proof. vm_compute. reflexivity. Defined.

Lemma fetchMultiplePages_cached_witness :
  let w := fst (WebScraper.fetchPageContent Scenario.site_up
                  Scenario.pricing_url Scenario.fresh) in
  Forall (fun u => is_Some (cache w !! u))
         [Scenario.pricing_url; Scenario.pricing_url] /\
  WebScraper.fetchMultiplePages Scenario.offline
    [Scenario.pricing_url; Scenario.pricing_url] 3 w
  = (w, omap (fun u => Fetched <$> cache w !! u)
          [Scenario.pricing_url; Scenario.pricing_url]).
Proof.
  intros w.
  assert (H : Forall (fun u => is_Some (cache w !! u))
                [Scenario.pricing_url; Scenario.pricing_url]).
  { repeat constructor; exists Scenario.first_page; exact pricing_cached. }
  split; [exact H|].
  exact (proj1 (fetchMultiplePages_cached Scenario.offline
                  [Scenario.pricing_url; Scenario.pricing_url] 3 w H)).
Defined.

Lemma filter_sublist {A} (keep : A -> bool) (l : list A) :
  List.filter keep l `sublist_of` l.
Proof.
  induction l as [|x l IH]; simpl; [done|].
  destruct (keep x); by constructor.
Qed.

Lemma beginAll_trace batch :
  forall w,
  let requested :=
    List.filter (fun u => bool_decide (cache w !! u = None)) batch in
  trace (fst (WebScraper.beginAll batch w)) = trace w ++ map EvGet requested /\
  gets (fst (WebScraper.beginAll batch w)) = (gets w + length requested)%nat.
Proof.
  induction batch as [|url rest IH]; intros w; simpl.
  - by rewrite app_nil_r, Nat.add_0_r.
  - unfold WebScraper.begin. destruct (cache w !! url) as [p|] eqn:Hu; simpl.
    + specialize (IH w). destruct (WebScraper.beginAll rest w) as [w2 sts].
      done.
    + specialize (IH (count_get (emit (EvGet url) w))).
      destruct (WebScraper.beginAll rest (count_get (emit (EvGet url) w)))
        as [w2 sts]. simpl in *. destruct IH as [Ht Hg].
      rewrite Ht, Hg, <- app_assoc. split; [done|lia].
Qed.

Lemma fetchBatch_trace env batch w :
  let requested :=
    List.filter (fun u => bool_decide (cache w !! u = None)) batch in
  trace (fst (WebScraper.fetchBatch env batch w))
    = trace w ++ map EvGet requested /\
  gets (fst (WebScraper.fetchBatch env batch w))
    = (gets w + length requested)%nat.
Proof.
  unfold WebScraper.fetchBatch.
  pose proof (beginAll_spec batch w) as (Hc & _ & _ & Hall).
  pose proof (beginAll_trace batch w) as [Ht Hg].
  destruct (WebScraper.beginAll batch w) as [w1 started]. simpl in *.
  pose proof (settleAll_frame env started w w1 Hall Hc) as (_ & G & T & _).
  simpl in *. by rewrite T, G.
Qed.

Lemma fetchLoop_trace env urls mc n :
  forall i results w, (length urls - i <= n)%nat ->
  let w' := fst (WebScraper.fetchLoop env urls mc i results w) in
  exists requested,
    trace w' = trace w ++ map EvGet requested /\
    gets w' = (gets w + length requested)%nat /\
    requested `sublist_of` drop i urls /\
    Forall (fun u => cache w !! u = None) requested.
Proof.
  induction n as [|n IH]; intros i results w Hn; rewrite fetchLoop_unfold;
    destruct (decide (i < length urls)%nat) as [Hi|Hi]; try lia.
  1, 3: exists []; simpl; rewrite app_nil_r, Nat.add_0_r;
        repeat split; [apply sublist_nil_l|constructor].
  cbn zeta. rewrite slice_take_drop.
  set (batch := take (Pos.to_nat mc) (drop i urls)).
  pose proof (fetchBatch_trace env batch w) as [Ht Hg].
  pose proof (fetchBatch_spec env batch w) as (_ & [Hgrow _] & _).
  set (b := WebScraper.fetchBatch env batch w) in *. simpl in *.
  destruct (IH (i + Pos.to_nat mc)%nat (results ++ snd b) (fst b))
    as (rest & Ht' & Hg' & Hsub & Hnone); [lia|].
  set (first := List.filter (fun u => bool_decide (cache w !! u = None)) batch)
    in *.
  exists (first ++ rest). split; [|split; [|split]].
  - by rewrite Ht', Ht, map_app, app_assoc.
  - rewrite Hg', Hg, length_app. lia.
  - replace (drop i urls) with (batch ++ drop (i + Pos.to_nat mc) urls)
      by (unfold batch; by rewrite <- drop_drop, take_drop).
    apply sublist_app; [apply filter_sublist|done].
  - apply Forall_app. split.
    + apply Forall_forall. intros u [_ Hu]%list_elem_of_In%filter_In.
      by apply bool_decide_eq_true in Hu.
    + eapply Forall_impl; [exact Hnone|]. intros u Hu. simpl in Hu.
      destruct (cache w !! u) as [p|] eqn:Hw; [|done].
      apply Hgrow in Hw. congruence.
Qed.

(** X14: the requests of [fetchMultiplePages] are for URLs of its list,
    in the order of the list and at most one for each place in it, and
    never for a URL that was in the cache when the call began; so there
    are no more requests than URLs. *)
Theorem fetchMultiplePages_requests env urls maxConcurrent w :
  let w' := fst (WebScraper.fetchMultiplePages env urls maxConcurrent w) in
  exists requested,
    trace w' = trace w ++ map EvGet requested /\
    gets w' = (gets w + length requested)%nat /\
    requested `sublist_of` urls /\
    Forall (fun u => cache w !! u = None) requested /\
    (length requested <= length urls)%nat.
Proof.
  destruct (fetchLoop_trace env urls maxConcurrent (length urls) 0 [] w)
    as (requested & Ht & Hg & Hsub & Hnone); [lia|].
  exists requested. rewrite drop_0 in Hsub.
  repeat split; try done. by apply sublist_length.
Qed.

(** ** Requests in flight *)

Lemma step_pending env s e :
  (length (Overlap.pending (Overlap.step env s e))
   <= length (Overlap.pending s) + (if Overlap.isCall e then 1 else 0))%nat.
Proof.
  destruct e as [url|req url]; cbn [Overlap.step Overlap.isCall].
  - destruct (WebScraper.begin url (Overlap.world s)) as [w [p|r]];
      cbn [Overlap.pending]; rewrite ?length_app; simpl; lia.
  - case_bool_decide; cbn [Overlap.pending]; [|lia].
    rewrite Nat.add_0_r. apply length_filter.
Qed.

Lemma run_pending env steps :
  forall s,
  (length (Overlap.pending (Overlap.run env steps s))
   <= length (Overlap.pending s)
      + length (List.filter Overlap.isCall steps))%nat.
Proof.
  unfold Overlap.run.
  induction steps as [|e steps IH]; intros s; cbn [fold_left List.filter];
    [simpl; lia|].
  specialize (IH (Overlap.step env s e)). pose proof (step_pending env s e).
  destruct (Overlap.isCall e); cbn [length]; lia.
Qed.

Lemma sublist_filter_take {A} (keep : A -> bool) k (l : list A) :
  List.filter keep (take k l) `sublist_of` List.filter keep l.
Proof.
  revert k. induction l as [|x l IH]; intros [|k]; simpl;
    try apply sublist_nil_l.
  destruct (keep x); [apply sublist_skip|]; apply IH.
Qed.

Lemma calls_of_batchSteps env batch w k :
  (length (List.filter Overlap.isCall (take k (Overlap.batchSteps env batch w)))
   <= length batch)%nat.
Proof.
  unfold Overlap.batchSteps. set (settles := map _ (Js.sort _ _)).
  assert (Hcalls : forall l : list string,
            List.filter Overlap.isCall (map Overlap.Call l) = map Overlap.Call l).
  { induction l as [|u l IH]; simpl; by rewrite ?IH. }
  assert (Hsettles : List.filter Overlap.isCall settles = []).
  { unfold settles. generalize (Js.sort
      (fun a b : nat * string =>
         (Z.of_nat (arrival env (fst a)) - Z.of_nat (arrival env (fst b)))%Z)
      (WebScraper.inFlight (snd (WebScraper.beginAll batch w)))).
    induction l as [|x l IH]; simpl; by rewrite ?IH. }
  etransitivity.
  - apply sublist_length. apply sublist_filter_take.
  - rewrite List.filter_app, Hcalls, Hsettles, app_nil_r. by rewrite length_map.
Qed.

(** X15: at every moment of a batch of [fetchMultiplePages] there are at
    most [maxConcurrent] requests in flight. *)
Theorem batch_in_flight env urls maxConcurrent i w k :
  let batch := WebScraper.slice i (i + Pos.to_nat maxConcurrent) urls in
  (length (Overlap.pending
             (Overlap.run env (take k (Overlap.batchSteps env batch w))
                (Overlap.idle w)))
   <= Pos.to_nat maxConcurrent)%nat.
Proof.
  intros batch.
  pose proof (run_pending env (take k (Overlap.batchSteps env batch w))
                (Overlap.idle w)) as Hrun.
  pose proof (calls_of_batchSteps env batch w k) as Hcalls.
  assert (length batch <= Pos.to_nat maxConcurrent)%nat.
  { unfold batch. rewrite slice_take_drop, length_take. lia. }
  simpl in Hrun. lia.
Qed.

(** ** Tool dispatch: the declarations and the cap *)

(** X16: the dispatch agrees with the declarations of [getTools]: for
    each declared tool and every argument object whose fields, where
    present, have the declared types, the call gives an error payload
    exactly when an argument that the declaration requires is absent. *)
Theorem executeToolCall_required :
  Forall (fun tool =>
            forall env a w,
              isErrorPayload
                (snd (RAGChatbot.executeToolCall env (tool_name tool)
                        (ArgsObject a) w))
              = negb (forallb (hasArgument a) (required tool)))
         getTools.
Proof.
  repeat constructor; intros env a w; cbn [tool_name required forallb];
    unfold hasArgument; cbn [String.eqb Ascii.eqb Bool.eqb];
    unfold RAGChatbot.executeToolCall, RAGChatbot.toolSwitch;
    cbn [String.eqb Ascii.eqb Bool.eqb].
  - by destruct (arg_query a).
  - destruct (arg_urls a) as [urls|]; [|done].
    by destruct (WebScraper.fetchMultiplePages env (Js.slice0 3 urls) 3 w).
Qed.

(** X17: [fetch_webpage_content] fetches the first three URLs of its
    argument and no other: whatever the length of the list, the result
    holds one element for each of its first three URLs, in order, and at
    most three requests are sent, all of them for URLs among these. *)
Theorem executeToolCall_fetch_cap env a urls w :
  arg_urls a = Some urls ->
  CacheKeyed w ->
  exists w' contents requested,
    RAGChatbot.executeToolCall env "fetch_webpage_content" (ArgsObject a) w
      = (w', Ok (Contents contents)) /\
    length contents = Nat.min 3 (length urls) /\
    Forall2 ResultFor (take 3 urls) contents /\
    trace w' = trace w ++ map EvGet requested /\
    requested `sublist_of` take 3 urls /\
    (gets w' <= gets w + 3)%nat.
Proof.
  intros Hurls Hkeyed.
  unfold RAGChatbot.executeToolCall, RAGChatbot.toolSwitch.
  cbn [String.eqb Ascii.eqb Bool.eqb]. rewrite Hurls.
  assert (Hslice : Js.slice0 3 urls = take 3 urls).
  { rewrite slice0_take by lia.
    destruct (decide (3 <= length urls)%nat) as [Hl|Hl].
    - by replace (Z.to_nat (Z.min 3 (Z.of_nat (length urls)))) with 3%nat
        by lia.
    - replace (Z.to_nat (Z.min 3 (Z.of_nat (length urls))))
        with (length urls) by lia.
      by rewrite !take_ge by lia. }
  rewrite Hslice.
  pose proof (fetchMultiplePages_spec env (take 3 urls) 3 w)
    as (_ & _ & Hlen & Hfor).
  destruct (fetchLoop_trace env (take 3 urls) 3 (length (take 3 urls)) 0 [] w)
    as (requested & Ht & Hg & Hsub & _); [lia|].
  fold (WebScraper.fetchMultiplePages env (take 3 urls) 3 w) in Ht, Hg.
  destruct (WebScraper.fetchMultiplePages env (take 3 urls) 3 w)
    as [w' contents]. cbn [fst snd] in *.
  exists w', contents, requested.
  split; [done|]. split; [rewrite Hlen; apply length_take|].
  split; [by apply Hfor|]. split; [done|]. split; [done|].
  apply sublist_length in Hsub. rewrite drop_0 in Hsub.
  rewrite Hg. rewrite length_take in Hsub. lia.
Qed.

Lemma executeToolCall_fetch_cap_witness :
  arg_urls Scenario.five_urls
    = Some ["https://www.vsf.technology/a"; "https://www.vsf.technology/b";
            "https://www.vsf.technology/c"; "https://www.vsf.technology/d";
            "https://www.vsf.technology/e"] /\
  CacheKeyed Scenario.fresh /\
  exists w' contents,
    RAGChatbot.executeToolCall Scenario.flaky "fetch_webpage_content"
      (ArgsObject Scenario.five_urls) Scenario.fresh
      = (w', Ok (Contents contents)) /\
    length contents = 3%nat.
Proof.
  split; [reflexivity|]. split; [exact fresh_CacheKeyed|].
  destruct (executeToolCall_fetch_cap Scenario.flaky Scenario.five_urls _
              Scenario.fresh eq_refl fresh_CacheKeyed)
    as (w' & contents & requested & Hcall & Hlen & _).
  exists w', contents. split; [exact Hcall|exact Hlen].
Defined.

(** ** The model call, for any number of retries *)

Lemma failedAttempts_unfold messages k n :
  RAGChatbot.failedAttempts messages k (S (S n))
  = EvPost messages :: EvSleep (RAGChatbot.waitTime k)
      :: RAGChatbot.failedAttempts messages (S k) (S n).
Proof. reflexivity. Qed.

(** The requests of a model call, whatever the replies: at least one and
    at most [remaining], a wait between two of them and none after the
    last; the call ends with the first reply that passes the checks, or
    with the error of its last attempt. *)
Lemma attempts_shape env messages retries remaining :
  forall attempt_no w,
  (attempt_no + remaining = retries)%nat ->
  exists n,
    (n <= remaining)%nat /\
    posts (fst (RAGChatbot.attempts env messages retries (S remaining)
                  attempt_no w)) = (posts w + S n)%nat /\
    trace (fst (RAGChatbot.attempts env messages retries (S remaining)
                  attempt_no w))
      = trace w ++ RAGChatbot.failedAttempts messages attempt_no (S n) /\
    (forall j, (j < n)%nat -> Failure (api_reply env (posts w + j))) /\
    match snd (RAGChatbot.attempts env messages retries (S remaining)
                 attempt_no w) with
    | Ok None => False
    | Ok (Some d) =>
        RAGChatbot.checked env (api_reply env (posts w + n)) = Ok d
    | Throw e =>
        (attempt_no + n = retries)%nat /\
        RAGChatbot.checked env (api_reply env (posts w + n)) = Throw e
    end.
Proof.
  induction remaining as [|remaining IH]; intros attempt_no w Hinv;
    rewrite attempts_unfold;
    destruct (RAGChatbot.checked env (api_reply env (posts w))) as [d|e] eqn:Hc.
  1, 3: exists 0%nat; rewrite Nat.add_0_r; simpl;
        repeat split; try lia; try done.
  - assert (Hlast : (attempt_no =? retries)%nat = true)
      by (apply Nat.eqb_eq; lia).
    rewrite Hlast. exists 0%nat. rewrite !Nat.add_0_r. simpl.
    repeat split; try lia; done.
  - assert (Hlast : (attempt_no =? retries)%nat = false)
      by (apply Nat.eqb_neq; lia).
    rewrite Hlast.
    set (w1 := sleep (RAGChatbot.waitTime attempt_no)
                 (count_post (emit (EvPost messages) w))).
    destruct (IH (S attempt_no) w1) as (n & Hn & Hp & Ht & Hf & Hr); [lia|].
    exists (S n). split; [lia|]. split; [rewrite Hp; simpl; lia|].
    split.
    { rewrite Ht, failedAttempts_unfold. simpl. by rewrite <- !app_assoc. }
    split.
    { intros [|j] Hj.
      - rewrite Nat.add_0_r. apply (checked_Failure env). eauto.
      - replace (posts w + S j)%nat with (posts w1 + j)%nat
          by (simpl; lia).
        apply Hf. lia. }
    replace (posts w + S n)%nat with (posts w1 + n)%nat by (simpl; lia).
    destruct (snd (RAGChatbot.attempts env messages retries (S remaining)
                     (S attempt_no) w1)) as [[d|]|e']; try done.
    destruct Hr as [Hr1 Hr2]. split; [lia|done].
Qed.

(** X18: a model call sends at least one request and at most [retries],
    waits between two requests and never after the last, and ends at the
    first reply that passes the checks; it throws only when all [retries]
    requests have failed, with the error of the last.  With [retries = 0]
    it sends nothing and resolves to [undefined]. *)
Theorem callOpenRouterAPI_requests env messages retries w :
  let w' := fst (RAGChatbot.callOpenRouterAPI env messages retries w) in
  exists n,
    (n <= retries)%nat /\ (n = 0%nat <-> retries = 0%nat) /\
    posts w' = (posts w + n)%nat /\
    trace w' = trace w ++ RAGChatbot.failedAttempts messages 1 n /\
    (forall j, (S j < n)%nat -> Failure (api_reply env (posts w + j))) /\
    match snd (RAGChatbot.callOpenRouterAPI env messages retries w) with
    | Ok None => retries = 0%nat
    | Ok (Some d) =>
        RAGChatbot.checked env (api_reply env (posts w + n - 1)) = Ok d
    | Throw e =>
        n = retries /\
        RAGChatbot.checked env (api_reply env (posts w + n - 1)) = Throw e
    end.
Proof.
  unfold RAGChatbot.callOpenRouterAPI. destruct retries as [|retries].
  { exists 0%nat. simpl. rewrite app_nil_r, Nat.add_0_r.
    repeat split; try lia; done. }
  destruct (attempts_shape env messages (S retries) retries 1 w)
    as (n & Hn & Hp & Ht & Hf & Hr); [lia|].
  cbv zeta. exists (S n). split; [lia|]. split; [lia|].
  split; [done|]. split; [done|].
  split; [intros j Hj; apply Hf; lia|].
  replace (posts w + S n - 1)%nat with (posts w + n)%nat by lia.
  by destruct (snd (RAGChatbot.attempts env messages (S retries) (S retries)
                      1 w)) as [[d|]|e].
Qed.

Lemma attempts_recover env messages retries j d w :
  (j < retries)%nat ->
  (forall i, (i < j)%nat -> Failure (api_reply env (posts w + i))) ->
  RAGChatbot.checked env (api_reply env (posts w + j)) = Ok d ->
  exists w',
    RAGChatbot.callOpenRouterAPI env messages retries w = (w', Ok (Some d)) /\
    posts w' = (posts w + S j)%nat /\
    trace w' = trace w ++ RAGChatbot.failedAttempts messages 1 (S j) /\
    conversationHistory w' = conversationHistory w /\
    cache w' = cache w.
Proof.
  intros Hj Hfail Hok.
  destruct retries as [|retries]; [lia|].
  pose proof (callOpenRouterAPI_frame env messages (S retries) w)
    as (_ & Hh & Hc & _).
  unfold RAGChatbot.callOpenRouterAPI in *.
  destruct (attempts_shape env messages (S retries) retries 1 w)
    as (n & Hn & Hp & Ht & Hf & Hr); [lia|].
  assert (n = j) as ->.
  { destruct (Nat.lt_trichotomy n j) as [Hlt|[->|Hgt]]; [|done|].
    - pose proof (Hfail _ Hlt) as Hn'.
      apply (checked_Failure env) in Hn' as [e He]. rewrite He in Hr.
      destruct (snd (RAGChatbot.attempts env messages (S retries) (S retries)
                       1 w)) as [[d'|]|e']; try done.
      destruct Hr as [Hr _]. lia.
    - apply Hf in Hgt. apply (checked_Failure env) in Hgt as [e He].
      congruence. }
  destruct (RAGChatbot.attempts env messages (S retries) (S retries) 1 w)
    as [w' r]. cbn [fst snd] in *.
  exists w'. rewrite Hok in Hr.
  destruct r as [[d'|]|e]; [|done|by destruct Hr].
  by injection Hr as ->.
Qed.

(** X19: a model call recovers from failures: when the first [j]
    replies fail, [j < retries], and the next one passes the checks, the
    call returns the body of that reply after [j + 1] requests and [j]
    waits; the conversation and the page cache are untouched. *)
Theorem callOpenRouterAPI_recovers env messages retries j d w :
  (j < retries)%nat ->
  (forall i, (i < j)%nat -> Failure (api_reply env (posts w + i))) ->
  RAGChatbot.checked env (api_reply env (posts w + j)) = Ok d ->
  exists w',
    RAGChatbot.callOpenRouterAPI env messages retries w = (w', Ok (Some d)) /\
    posts w' = (posts w + S j)%nat /\
    trace w' = trace w ++ RAGChatbot.failedAttempts messages 1 (S j) /\
    conversationHistory w' = conversationHistory w /\
    cache w' = cache w.
Proof. apply attempts_recover. Qed.

Lemma callOpenRouterAPI_recovers_witness :
  exists w',
    RAGChatbot.callOpenRouterAPI Scenario.recovering [UserMsg "hello"] 3
      Scenario.fresh
    = (w', Ok (Some {| choices :=
                         Some [{| choice_message :=
                                    Some {| content := None;
                                            tool_calls :=
                                              Some [Scenario.search_call] |} |}] |})) /\
    posts w' = 2%nat /\
    trace w' = [EvPost [UserMsg "hello"]; EvSleep 1000; EvPost [UserMsg "hello"]].
Proof.
  destruct (callOpenRouterAPI_recovers Scenario.recovering [UserMsg "hello"]
              3 1 {| choices :=
                       Some [{| choice_message :=
                                  Some {| content := None;
                                          tool_calls :=
                                            Some [Scenario.search_call] |} |}] |}
              Scenario.fresh)
    as (w' & Hcall & Hposts & Htrace & _).
  - lia.
  - intros i Hi. assert (i = 0%nat) as -> by lia. simpl. constructor.
  - reflexivity.
  - exists w'. split; [exact Hcall|]. split; [exact Hposts|exact Htrace].
Defined.

(** ** What a turn does to the history *)

Lemma slice_last_short {A} n (l : list A) :
  (length l <= n)%nat -> Js.slice_last n l = l.
Proof.
  intros Hl. unfold Js.slice_last.
  by replace (length l - n)%nat with 0%nat by lia.
Qed.

(** An iteration that returns has recorded the exchange; any other
    leaves the history as it was. *)
Lemma iteration_history env userMessage messages w :
  match snd (RAGChatbot.iteration env userMessage messages w) with
  | Ok (RAGChatbot.Return finalResponse) =>
      conversationHistory
        (fst (RAGChatbot.iteration env userMessage messages w))
      = Js.slice_last 10
          (conversationHistory w ++ exchange userMessage finalResponse)
  | _ =>
      conversationHistory
        (fst (RAGChatbot.iteration env userMessage messages w))
      = conversationHistory w
  end.
Proof.
  unfold RAGChatbot.iteration.
  pose proof (callOpenRouterAPI_frame env messages 3 w) as (_ & Hh & _).
  destruct (RAGChatbot.callOpenRouterAPI env messages 3 w)
    as [w1 [[d|]|e]]; cbn [fst snd] in *; try done.
  destruct (choices d) as [[|c cs]|]; try done.
  destruct (choice_message c) as [am|]; try done.
  assert (Hplain :
    conversationHistory
      (set_history
         (if (10 <? length (conversationHistory w1 ++
                             exchange userMessage (content am)))%nat
          then Js.slice_last 10 (conversationHistory w1 ++
                                 exchange userMessage (content am))
          else conversationHistory w1 ++ exchange userMessage (content am))
         w1)
    = Js.slice_last 10
        (conversationHistory w ++ exchange userMessage (content am))).
  { rewrite Hh. cbn [set_history conversationHistory].
    destruct (Nat.ltb_spec 10
                (length (conversationHistory w ++
                         exchange userMessage (content am)))); [done|].
    by rewrite slice_last_short. }
  destruct (tool_calls am) as [[|tc tcs]|]; try exact Hplain.
  pose proof (runTools_frame env (tc :: tcs)
                (messages ++ [AssistantMsg (Some am)]) w1)
    as [(_ & Hh' & _) _].
  destruct (RAGChatbot.runTools env (tc :: tcs)
              (messages ++ [AssistantMsg (Some am)]) w1) as [w2 [ms|e]];
    cbn [fst snd] in *; congruence.
Qed.

Lemma chatLoop_history env userMessage remaining :
  forall messages w,
  let w' := fst (RAGChatbot.chatLoop env userMessage remaining messages w) in
  let r := snd (RAGChatbot.chatLoop env userMessage remaining messages w) in
  (conversationHistory w' = conversationHistory w /\
   (r = Some RAGChatbot.errorMessage \/
    r = Some RAGChatbot.maxIterationMessage)) \/
  conversationHistory w'
  = Js.slice_last 10 (conversationHistory w ++ exchange userMessage r).
Proof.
  induction remaining as [|remaining IH]; intros messages w;
    cbn [RAGChatbot.chatLoop]; [left; auto|].
  pose proof (iteration_history env userMessage messages w) as Hi.
  destruct (RAGChatbot.iteration env userMessage messages w)
    as [w1 [[messages'|finalResponse]|e]]; cbn [fst snd] in *.
  - specialize (IH messages' w1). cbv zeta in IH. by rewrite Hi in IH.
  - by right.
  - left; auto.
Qed.

(** X20: a turn of [chat] ends in one of two ways, whatever the
    endpoint and the tools do: it returns the content of the model's
    answer and the history becomes the last ten messages of the old
    history followed by the user message and that answer; or it returns
    one of the two fixed apologies and the history is as it was. *)
Theorem chat_records_or_apologizes env userMessage systemPrompt w :
  let w' := fst (RAGChatbot.chat env userMessage systemPrompt w) in
  let r := snd (RAGChatbot.chat env userMessage systemPrompt w) in
  (conversationHistory w' = conversationHistory w /\
   (r = Some RAGChatbot.errorMessage \/
    r = Some RAGChatbot.maxIterationMessage)) \/
  conversationHistory w'
  = Js.slice_last 10 (conversationHistory w ++ exchange userMessage r).
Proof. apply chatLoop_history. Qed.

Lemma Exchanges_nil : Exchanges [].
Proof. exists []. split; [done|simpl; lia]. Qed.

Lemma length_turns (turns : list (string * option string)) :
  length (flat_map (fun t => exchange (fst t) (snd t)) turns)
  = (2 * length turns)%nat.
Proof. induction turns as [|t turns IH]; simpl in *; lia. Qed.

Lemma Exchanges_recorded h userMessage finalResponse :
  Exchanges h ->
  Exchanges (Js.slice_last 10 (h ++ exchange userMessage finalResponse)).
Proof.
  intros (turns & -> & Hlen).
  set (f := fun t : string * option string => exchange (fst t) (snd t)).
  assert (Happ : flat_map f turns ++ exchange userMessage finalResponse
                 = flat_map f (turns ++ [(userMessage, finalResponse)])).
  { by rewrite flat_map_app. }
  rewrite Happ.
  destruct (decide (length turns = 5%nat)) as [H5|H5].
  - destruct turns as [|t turns]; [done|].
    exists (turns ++ [(userMessage, finalResponse)]).
    split; [|rewrite length_app; simpl in *; lia].
    unfold Js.slice_last. unfold f at 1. rewrite length_turns, length_app.
    replace (2 * (length (t :: turns) + length [(userMessage, finalResponse)])
             - 10)%nat with 2%nat by (simpl in *; lia).
    reflexivity.
  - rewrite slice_last_short.
    + exists (turns ++ [(userMessage, finalResponse)]).
      split; [done|]. rewrite length_app. simpl. lia.
    + unfold f. rewrite length_turns, length_app. simpl. lia.
Qed.

Lemma runOp_Exchanges env w op :
  Exchanges (conversationHistory w) ->
  Exchanges (conversationHistory (runOp env w op)).
Proof.
  intros Hw.
  destruct op as [url|urls mc|toolName args|userMessage systemPrompt|];
    cbn [runOp].
  - pose proof (fetchPageContent_spec env url w) as [(_ & -> & _) _]. done.
  - pose proof (fetchMultiplePages_spec env urls mc w) as [(_ & -> & _) _].
    done.
  - pose proof (executeToolCall_frame env toolName args w)
      as [(_ & -> & _) _]. done.
  - unfold RAGChatbot.chat.
    destruct (chatLoop_history env userMessage 10
                ([SystemMsg
                    match systemPrompt with
                    | Some (String c p) => String c p
                    | _ => RAGChatbot.defaultSystemPrompt
                    end] ++ conversationHistory w ++ [UserMsg userMessage]) w)
      as [[-> _]| ->]; [done|].
    by apply Exchanges_recorded.
  - apply Exchanges_nil.
Qed.

(** X21: the history stays a list of whole exchanges, five at most: if
    it is one when a sequence of calls (fetches, tool calls, turns,
    resets) begins, it is one after it.  So it never holds more than ten
    messages, and never a system message, a tool message or a message
    with tool calls. *)
Theorem history_exchanges env ops w :
  Exchanges (conversationHistory w) ->
  Exchanges (conversationHistory (runOps env ops w)) /\
  (length (conversationHistory (runOps env ops w)) <= 10)%nat.
Proof.
  intros Hw.
  assert (He : Exchanges (conversationHistory (runOps env ops w))).
  { revert w Hw. induction ops as [|op ops IH]; intros w Hw; [done|].
    apply IH. by apply runOp_Exchanges. }
  split; [done|].
  destruct He as (turns & -> & Hlen). rewrite length_turns. lia.
Qed.

Lemma history_exchanges_witness :
  Exchanges (conversationHistory Scenario.fresh) /\
  (length (conversationHistory
             (runOps Scenario.recovering
                [Chat "Do you host WordPress?" None; FetchOne Scenario.pricing_url;
                 Chat "And the price?" None]
                Scenario.fresh)) <= 10)%nat.
Proof.
  split; [exact Exchanges_nil|].
  apply (history_exchanges Scenario.recovering
           [Chat "Do you host WordPress?" None; FetchOne Scenario.pricing_url;
            Chat "And the price?" None]
           Scenario.fresh Exchanges_nil).
Defined.

(** ** A turn that ends with an answer *)

Lemma checked_first_choice env d c cs :
  choices d = Some (c :: cs) ->
  RAGChatbot.checked env (Response 200 (Some d)) = Ok d.
Proof. intros Hc. unfold RAGChatbot.checked. simpl. by rewrite Hc. Qed.

Lemma answer_round env userMessage messages w r :
  AnswerRound env (posts w) r ->
  exists w',
    RAGChatbot.iteration env userMessage messages w
    = (w', Ok (RAGChatbot.Return r)).
Proof.
  intros Hround.
  assert (exists j d c cs am,
            (j < 3)%nat /\
            (forall i, (i < j)%nat -> Failure (api_reply env (posts w + i))) /\
            api_reply env (posts w + j) = Response 200 (Some d) /\
            choices d = Some (c :: cs) /\ choice_message c = Some am /\
            (tool_calls am = None \/ tool_calls am = Some []) /\
            content am = r)
    as (j & d & c & cs & am & Hj & Hfail & Hreply & Hc & Hm & Htools & Hr).
  { inversion Hround as [n r' Ha|n r' F0 Ha|n r' F0 F1 Ha]; subst;
      destruct Ha as (d & c & cs & am & Hreply & Hrest).
    - exists 0%nat, d, c, cs, am. rewrite Nat.add_0_r.
      split; [lia|]. split; [intros i Hi; lia|done].
    - exists 1%nat, d, c, cs, am. rewrite (Nat.add_comm (posts w) 1).
      split; [lia|]. split; [|done].
      intros i Hi. assert (i = 0%nat) as -> by lia. by rewrite Nat.add_0_r.
    - exists 2%nat, d, c, cs, am. rewrite (Nat.add_comm (posts w) 2).
      split; [lia|]. split; [|done].
      intros i Hi. assert (i = 0 \/ i = 1)%nat as [-> | ->] by lia;
        [by rewrite Nat.add_0_r|by rewrite (Nat.add_comm (posts w) 1)]. }
  destruct (attempts_recover env messages 3 j d w Hj Hfail)
    as (w1 & Hcall & _).
  { rewrite Hreply. by eapply checked_first_choice. }
  unfold RAGChatbot.iteration. rewrite Hcall, Hc, Hm.
  destruct Htools as [-> | ->]; rewrite Hr; eauto.
Qed.

(** X22: a turn that ends with an answer: after [k < 10] rounds in
    which the model asks for tools, a model call that obtains a message
    without tool calls ends the turn; [chat] returns the content of that
    message, and the history becomes the last ten messages of the old
    history followed by the user message and the answer. *)
Theorem chat_answers env userMessage systemPrompt w k n r :
  (k < 10)%nat ->
  ToolRounds env k (posts w) n ->
  AnswerRound env n r ->
  exists w',
    RAGChatbot.chat env userMessage systemPrompt w = (w', r) /\
    conversationHistory w'
    = Js.slice_last 10 (conversationHistory w ++ exchange userMessage r).
Proof.
  intros Hk Hrounds Hanswer. unfold RAGChatbot.chat. cbv zeta.
  set (messages := [SystemMsg _] ++ _ ++ _).
  destruct (chatLoop_rounds env userMessage k (posts w) n Hrounds
              (10 - k) messages w eq_refl)
    as (w1 & messages1 & Hloop & Hposts & Hhist).
  replace (k + (10 - k))%nat with 10%nat in Hloop by lia.
  rewrite Hloop.
  destruct (10 - k)%nat as [|remaining] eqn:Hrem; [lia|].
  cbn [RAGChatbot.chatLoop].
  rewrite <- Hposts in Hanswer.
  destruct (answer_round env userMessage messages1 w1 r Hanswer)
    as (w2 & Hiter).
  pose proof (iteration_history env userMessage messages1 w1) as Hh.
  rewrite Hiter in *. cbn [fst snd] in Hh.
  exists w2. split; [done|]. by rewrite Hh, Hhist.
Qed.

Lemma chat_answers_witness :
  exists w',
    RAGChatbot.chat Scenario.recovering "Do you host WordPress?" None
      Scenario.fresh
    = (w', Some "We offer WordPress hosting.") /\
    conversationHistory w'
    = [UserMsg "Do you host WordPress?";
       AssistantMsg (Some {| content := Some "We offer WordPress hosting.";
                             tool_calls := None |})].
Proof.
  apply (chat_answers Scenario.recovering "Do you host WordPress?" None
           Scenario.fresh 1 2 (Some "We offer WordPress hosting.")).
  - lia.
  - apply (rounds_more _ 0 0 2 2); [|apply rounds_done].
    apply (round_second _ 0); [constructor|].
    exists {| choices :=
                Some [{| choice_message :=
                           Some {| content := None;
                                   tool_calls := Some [Scenario.search_call] |} |}] |},
      {| choice_message :=
           Some {| content := None;
                   tool_calls := Some [Scenario.search_call] |} |},
      [], {| content := None; tool_calls := Some [Scenario.search_call] |},
      Scenario.search_call, [].
    repeat split. repeat constructor.
    exists (ArgsObject {| arg_query := Some "hosting"; arg_limit := None;
                          arg_urls := None |}).
    reflexivity.
  - apply answer_first.
    exists Scenario.greeting,
      {| choice_message :=
           Some {| content := Some "We offer WordPress hosting.";
                   tool_calls := None |} |},
      [], {| content := Some "We offer WordPress hosting.";
             tool_calls := None |}.
    repeat split. by left.
Defined.

(** ** The requests of a turn *)

Lemma postedIn_app t1 t2 : postedIn (t1 ++ t2) = postedIn t1 ++ postedIn t2.
Proof. apply omap_app. Qed.

Lemma waitsIn_app t1 t2 : waitsIn (t1 ++ t2) = waitsIn t1 ++ waitsIn t2.
Proof. apply omap_app. Qed.

Lemma postedIn_gets urls : postedIn (map EvGet urls) = [].
Proof. by induction urls. Qed.

Lemma waitsIn_gets urls : waitsIn (map EvGet urls) = [].
Proof. by induction urls. Qed.

(** The tools send page requests only. *)
Lemma toolSwitch_trace env toolName args w :
  let w' := fst (RAGChatbot.toolSwitch env toolName args w) in
  exists t, trace w' = trace w ++ t /\ postedIn t = [] /\ waitsIn t = [] /\
            posts w' = posts w.
Proof.
  assert (Hsame : exists t, trace w = trace w ++ t /\ postedIn t = [] /\
                            waitsIn t = [] /\ posts w = posts w)
    by (exists []; by rewrite app_nil_r).
  unfold RAGChatbot.toolSwitch.
  destruct (String.eqb toolName "search_website_urls").
  { by destruct args as [|a]; [|destruct (arg_query a)]. }
  destruct (String.eqb toolName "fetch_webpage_content"); [|done].
  destruct args as [|a]; [|destruct (arg_urls a) as [urls|]]; try done.
  destruct (fetchLoop_trace env (Js.slice0 3 urls) 3
              (length (Js.slice0 3 urls)) 0 [] w)
    as (requested & Ht & _); [lia|].
  pose proof (fetchMultiplePages_spec env (Js.slice0 3 urls) 3 w)
    as ((_ & _ & Hp) & _).
  fold (WebScraper.fetchMultiplePages env (Js.slice0 3 urls) 3 w) in Ht.
  destruct (WebScraper.fetchMultiplePages env (Js.slice0 3 urls) 3 w)
    as [w' contents]. cbn [fst snd] in *.
  exists (map EvGet requested).
  by rewrite postedIn_gets, waitsIn_gets.
Qed.

Lemma runTools_trace env toolCalls :
  forall messages w,
  let w' := fst (RAGChatbot.runTools env toolCalls messages w) in
  (exists t, trace w' = trace w ++ t /\ postedIn t = [] /\ waitsIn t = [] /\
             posts w' = posts w) /\
  (forall messages',
     snd (RAGChatbot.runTools env toolCalls messages w) = Ok messages' ->
     messages `prefix_of` messages').
Proof.
  induction toolCalls as [|tc rest IH]; intros messages w;
    cbn [RAGChatbot.runTools].
  { split; [exists []; by rewrite app_nil_r|]. by intros ? [= <-]. }
  destruct (JSON_parse env (function_arguments tc)) as [args|e].
  2: { split; [exists []; by rewrite app_nil_r|done]. }
  pose proof (toolSwitch_trace env (function_name tc) args w) as Ht.
  rewrite <- executeToolCall_world in Ht.
  destruct (RAGChatbot.executeToolCall env (function_name tc) args w)
    as [w1 [result|e]]; cbn [fst snd] in *; [|done].
  destruct Ht as (t1 & Ht1 & Hp1 & Hw1 & Hposts1).
  destruct (IH (messages ++ [ToolMsg (call_id tc) (function_name tc) result])
              w1) as [(t2 & Ht2 & Hp2 & Hw2 & Hposts2) Hpre].
  split.
  - exists (t1 ++ t2). rewrite Ht2, Ht1, <- app_assoc.
    rewrite postedIn_app, waitsIn_app, Hp1, Hp2, Hw1, Hw2.
    repeat split; congruence.
  - intros messages' Hm. apply Hpre in Hm.
    etrans; [|exact Hm]. by apply prefix_app_r.
Qed.

Lemma postedIn_failedAttempts messages k n :
  postedIn (RAGChatbot.failedAttempts messages k n) = replicate n messages.
Proof.
  revert k. induction n as [|[|n] IH]; intros k; try done.
  rewrite failedAttempts_unfold.
  change (postedIn ([EvPost messages; EvSleep (RAGChatbot.waitTime k)] ++
                    RAGChatbot.failedAttempts messages (S k) (S n))
          = replicate (S (S n)) messages).
  by rewrite postedIn_app, IH.
Qed.

Lemma waitsIn_failedAttempts messages k n :
  waitsIn (RAGChatbot.failedAttempts messages k n)
  = map RAGChatbot.waitTime (seq k (n - 1)).
Proof.
  revert k. induction n as [|[|n] IH]; intros k; try done.
  rewrite failedAttempts_unfold.
  change (waitsIn ([EvPost messages; EvSleep (RAGChatbot.waitTime k)] ++
                   RAGChatbot.failedAttempts messages (S k) (S n))
          = map RAGChatbot.waitTime (seq k (S (S n) - 1))).
  rewrite waitsIn_app, IH. simpl. by rewrite Nat.sub_0_r.
Qed.

(** One iteration: one to three model requests with the same body, the
    waits between them, then the page requests of the tools. *)
Lemma iteration_trace env userMessage messages w :
  let w' := fst (RAGChatbot.iteration env userMessage messages w) in
  (exists n t,
     (1 <= n <= 3)%nat /\ posts w' = (posts w + n)%nat /\
     trace w' = trace w ++ RAGChatbot.failedAttempts messages 1 n ++ t /\
     postedIn t = [] /\ waitsIn t = []) /\
  (forall messages',
     snd (RAGChatbot.iteration env userMessage messages w)
       = Ok (RAGChatbot.Continue messages') ->
     messages `prefix_of` messages').
Proof.
  unfold RAGChatbot.iteration, RAGChatbot.callOpenRouterAPI.
  destruct (attempts_shape env messages 3 2 1 w)
    as (n & Hn & Hp & Ht & _ & Hr); [lia|].
  destruct (RAGChatbot.attempts env messages 3 3 1 w) as [w1 r].
  cbn [fst snd] in *.
  assert (Hcall : exists n t,
            (1 <= n <= 3)%nat /\ posts w1 = (posts w + n)%nat /\
            trace w1 = trace w ++ RAGChatbot.failedAttempts messages 1 n ++ t /\
            postedIn t = [] /\ waitsIn t = []).
  { exists (S n), []. rewrite app_nil_r. repeat split; try done; lia. }
  destruct r as [[d|]|e]; [|done|done].
  destruct (choices d) as [[|c cs]|]; try done.
  destruct (choice_message c) as [am|]; [|done].
  destruct (tool_calls am) as [[|tc tcs]|]; try done.
  destruct (runTools_trace env (tc :: tcs)
              (messages ++ [AssistantMsg (Some am)]) w1)
    as [(t & Ht2 & Hp2 & Hw2 & Hposts2) Hpre].
  destruct (RAGChatbot.runTools env (tc :: tcs)
              (messages ++ [AssistantMsg (Some am)]) w1) as [w2 [ms|e]];
    cbn [fst snd] in *.
  - split.
    + exists (S n), t. rewrite Ht2, Ht, <- app_assoc.
      repeat split; try done; lia.
    + intros messages' [= <-]. etrans; [|by apply Hpre].
      by apply prefix_app_r.
  - split; [|done].
    exists (S n), t. rewrite Ht2, Ht, <- app_assoc.
    repeat split; try done; lia.
Qed.

Lemma waits_of_call n :
  (1 <= n <= 3)%nat ->
  (length (map RAGChatbot.waitTime (seq 1 (n - 1))) <= 2)%nat /\
  Forall (fun ms => ms = 1000 \/ ms = 2000)
         (map RAGChatbot.waitTime (seq 1 (n - 1))).
Proof.
  intros Hn. assert (n = 1 \/ n = 2 \/ n = 3)%nat as [-> | [-> | ->]] by lia;
    (split; [simpl; lia|]); repeat constructor; by vm_compute; auto.
Qed.

Lemma chatLoop_trace env userMessage remaining :
  forall messages w,
  let w' := fst (RAGChatbot.chatLoop env userMessage remaining messages w) in
  exists t,
    trace w' = trace w ++ t /\
    posts w' = (posts w + length (postedIn t))%nat /\
    (length (postedIn t) <= 3 * remaining)%nat /\
    Forall (fun body => messages `prefix_of` body) (postedIn t) /\
    (length (waitsIn t) <= 2 * remaining)%nat /\
    Forall (fun ms => ms = 1000 \/ ms = 2000) (waitsIn t) /\
    ((1 <= remaining)%nat -> exists t', t = EvPost messages :: t').
Proof.
  induction remaining as [|remaining IH]; intros messages w;
    cbn [RAGChatbot.chatLoop].
  { exists []. rewrite app_nil_r. simpl.
    repeat split; try done; try lia. }
  destruct (iteration_trace env userMessage messages w)
    as [(n & t1 & Hn & Hp1 & Ht1 & Hposted1 & Hwaits1) Hpre].
  assert (Hone : exists t,
    trace (fst (RAGChatbot.iteration env userMessage messages w))
      = trace w ++ t /\
    posts (fst (RAGChatbot.iteration env userMessage messages w))
      = (posts w + length (postedIn t))%nat /\
    (length (postedIn t) <= 3)%nat /\
    Forall (fun body => messages `prefix_of` body) (postedIn t) /\
    (length (waitsIn t) <= 2)%nat /\
    Forall (fun ms => ms = 1000 \/ ms = 2000) (waitsIn t) /\
    exists t', t = EvPost messages :: t').
  { exists (RAGChatbot.failedAttempts messages 1 n ++ t1).
    rewrite postedIn_app, waitsIn_app, Hposted1, Hwaits1, !app_nil_r,
      postedIn_failedAttempts, waitsIn_failedAttempts, length_replicate.
    destruct (waits_of_call n Hn) as [Hlen Hall].
    repeat split; try done; try lia.
    - by apply Forall_replicate.
    - destruct n as [|[|n]]; [lia| |]; simpl; eauto. }
  clear Hp1 Ht1 Hposted1 Hwaits1.
  destruct (RAGChatbot.iteration env userMessage messages w)
    as [w1 [[messages'|finalResponse]|e]]; cbn [fst snd] in *.
  2, 3: destruct Hone as (t & Ht & Hp & Hl & Hb & Hlw & Hw & Hfirst);
        exists t; repeat split; try done; lia.
  destruct Hone as (t & Ht & Hp & Hl & Hb & Hlw & Hw & Hfirst).
  destruct (IH messages' w1) as (t2 & Ht2 & Hp2 & Hl2 & Hb2 & Hlw2 & Hw2 & _).
  exists (t ++ t2).
  rewrite postedIn_app, waitsIn_app, !length_app, Ht2, Ht, <- app_assoc.
  repeat split; try done; try lia.
  - apply Forall_app. split; [done|].
    eapply Forall_impl; [exact Hb2|].
    intros body Hbody. etrans; [|exact Hbody]. by apply Hpre.
  - by apply Forall_app.
  - intros _. destruct Hfirst as [t' ->]. by exists (t' ++ t2).
Qed.

(** X23: a turn of [chat] sends at least one and at most thirty model
    requests and waits at most twenty times, one or two seconds each,
    whatever the endpoint and the tools do: the five-second cap of the
    back-off is never reached. *)
Theorem chat_request_budget env userMessage systemPrompt w :
  let w' := fst (RAGChatbot.chat env userMessage systemPrompt w) in
  exists t,
    trace w' = trace w ++ t /\
    posts w' = (posts w + length (postedIn t))%nat /\
    (1 <= length (postedIn t) <= 30)%nat /\
    (length (waitsIn t) <= 20)%nat /\
    Forall (fun ms => ms = 1000 \/ ms = 2000) (waitsIn t).
Proof.
  unfold RAGChatbot.chat. cbv zeta.
  set (messages := [SystemMsg _] ++ _ ++ _).
  destruct (chatLoop_trace env userMessage 10 messages w)
    as (t & Ht & Hp & Hl & _ & Hlw & Hw & Hfirst).
  exists t. repeat split; try done; try lia.
  destruct Hfirst as [t' ->]; [lia|]. simpl. lia.
Qed.

(** X24: every model request of a turn carries the system prompt, the
    history as it was when the turn began and the user message, in this
    order, followed by what the turn has gathered since; the first
    request carries nothing more.  An absent or empty system prompt is
    replaced by the default one. *)
Theorem chat_request_bodies env userMessage systemPrompt w :
  let prompt :=
    match systemPrompt with
    | None | Some EmptyString => RAGChatbot.defaultSystemPrompt
    | Some p => p
    end in
  let first :=
    SystemMsg prompt :: conversationHistory w ++ [UserMsg userMessage] in
  exists t,
    trace (fst (RAGChatbot.chat env userMessage systemPrompt w))
      = trace w ++ EvPost first :: t /\
    Forall (fun body => first `prefix_of` body) (postedIn t).
Proof.
  cbv zeta. unfold RAGChatbot.chat. cbv zeta.
  set (prompt := match systemPrompt with
                 | Some (String c p) => String c p
                 | _ => RAGChatbot.defaultSystemPrompt
                 end).
  assert (Hprompt : match systemPrompt with
                    | None | Some EmptyString => RAGChatbot.defaultSystemPrompt
                    | Some p => p
                    end = prompt)
    by (by destruct systemPrompt as [[|c p]|]).
  rewrite Hprompt.
  destruct (chatLoop_trace env userMessage 10
              ([SystemMsg prompt] ++ conversationHistory w
               ++ [UserMsg userMessage]) w)
    as (t & Ht & _ & _ & Hb & _ & _ & Hfirst).
  destruct Hfirst as [t' ->]; [lia|].
  exists t'. split; [done|].
  change (EvPost ?m :: t') with ([EvPost m] ++ t') in Hb.
  rewrite postedIn_app in Hb. by apply Forall_app in Hb as [_ Hb].
Qed.

(** ** The elements of a fetch result *)

Lemma beginAll_issued batch :
  forall w,
  exists requested,
    trace (fst (WebScraper.beginAll batch w)) = trace w ++ map EvGet requested /\
    gets (fst (WebScraper.beginAll batch w)) = (gets w + length requested)%nat /\
    Forall (fun s =>
              match snd s with
              | WebScraper.Hit p => cache w !! fst s = Some p
              | WebScraper.Issued req =>
                  cache w !! fst s = None /\
                  exists k, req = (gets w + k)%nat /\
                            requested !! k = Some (fst s)
              end) (snd (WebScraper.beginAll batch w)).
Proof.
  induction batch as [|url rest IH]; intros w; cbn [WebScraper.beginAll].
  { exists []. simpl. rewrite app_nil_r, Nat.add_0_r. by repeat split. }
  unfold WebScraper.begin. destruct (cache w !! url) as [p|] eqn:Hu.
  - destruct (IH w) as (requested & Ht & Hg & Hall).
    destruct (WebScraper.beginAll rest w) as [w2 sts]. cbn [fst snd] in *.
    exists requested. split; [done|]. split; [done|]. by constructor.
  - set (w1 := count_get (emit (EvGet url) w)).
    destruct (IH w1) as (requested & Ht & Hg & Hall).
    destruct (WebScraper.beginAll rest w1) as [w2 sts]. cbn [fst snd] in *.
    exists (url :: requested). split; [|split].
    + rewrite Ht. simpl. by rewrite <- app_assoc.
    + rewrite Hg. simpl. lia.
    + constructor.
      * simpl. split; [done|]. exists 0%nat. by rewrite Nat.add_0_r.
      * eapply Forall_impl; [exact Hall|]. intros [u [q|req]]; simpl; [done|].
        intros [Hnone (k & -> & Hk)]. split; [done|].
        exists (S k). split; [lia|done].
Qed.

Lemma settle_cache env (l : list (nat * string)) :
  forall w u p,
  cache (fold_left (fun w '(req, url) =>
                      fst (WebScraper.finish env url req w)) l w) !! u = Some p ->
  cache w !! u = Some p \/
  exists req, (req, u) ∈ l /\ WebScraper.settled env u req = Ok p.
Proof.
  induction l as [|[req url] l IH]; intros w u p; cbn [fold_left]; [auto|].
  intros Hu. apply IH in Hu as [Hu|(req' & Hin & Hs)].
  - unfold WebScraper.finish in Hu.
    destruct (WebScraper.settled env url req) as [q|e] eqn:Hq;
      cbn [fst set_cache cache] in Hu; [|auto].
    destruct (decide (url = u)) as [<-|Hne].
    + rewrite lookup_insert_eq in Hu. injection Hu as <-.
      right. exists req. split; [by left|done].
    + rewrite lookup_insert_ne in Hu by done. auto.
  - right. exists req'. split; [by right|done].
Qed.

(** One batch: what each place of the result holds, and where the pages
    in the cache come from. *)
Lemma fetchBatch_outcome env batch w :
  exists requested,
    trace (fst (WebScraper.fetchBatch env batch w))
      = trace w ++ map EvGet requested /\
    gets (fst (WebScraper.fetchBatch env batch w))
      = (gets w + length requested)%nat /\
    (forall u p,
       cache (fst (WebScraper.fetchBatch env batch w)) !! u = Some p ->
       cache w !! u = Some p \/
       exists k, requested !! k = Some u /\
                 WebScraper.settled env u (gets w + k) = Ok p) /\
    Forall2 (OutcomeFor env w requested) batch
      (snd (WebScraper.fetchBatch env batch w)).
Proof.
  unfold WebScraper.fetchBatch.
  pose proof (beginAll_spec batch w) as (Hc & _ & Hm & Hall).
  destruct (beginAll_issued batch w) as (requested & Ht & Hg & Hissued).
  destruct (WebScraper.beginAll batch w) as [w1 started]. cbn [fst snd] in *.
  pose proof (settleAll_frame env started w w1 Hall Hc) as (_ & G & T & _).
  cbv zeta in G, T.
  exists requested. split; [by rewrite T|]. split; [by rewrite G|]. split.
  - intros u p Hu. unfold WebScraper.settleAll in Hu.
    apply settle_cache in Hu as [Hu|(req & Hin & Hs)];
      [left; by rewrite <- Hc|].
    apply elem_of_sort, elem_of_inFlight in Hin.
    eapply Forall_forall in Hissued; [|exact Hin].
    cbn [fst snd] in Hissued. destruct Hissued as [_ (k & -> & Hk)].
    right. by exists k.
  - rewrite <- Hm. clear -Hissued.
    induction Hissued as [|[u [p|req]] l Hs Hl IH]; cbn [map fst];
      constructor; try done; unfold OutcomeFor; cbn [fst snd] in Hs.
    + by rewrite Hs.
    + destruct Hs as [-> (k & -> & Hk)]. by exists k.
Qed.

(** The same in terms of the world in which the whole call began. *)
Lemma OutcomeFor_rebase env w w0 req0 reqB u r :
  gets w0 = (gets w + length req0)%nat ->
  (forall u p, cache w !! u = Some p -> cache w0 !! u = Some p) ->
  (forall u p, cache w0 !! u = Some p ->
     cache w !! u = Some p \/
     exists k, req0 !! k = Some u /\
               WebScraper.settled env u (gets w + k) = Ok p) ->
  OutcomeFor env w0 reqB u r ->
  OutcomeFor env w (req0 ++ reqB) u r.
Proof.
  intros Hg Hgrow Hinv. unfold OutcomeFor.
  destruct (cache w !! u) as [q|] eqn:Hw.
  - apply Hgrow in Hw. by rewrite Hw.
  - destruct (cache w0 !! u) as [p|] eqn:Hw0.
    + intros ->. apply Hinv in Hw0 as [Hw0|(k & Hk & Hs)]; [congruence|].
      exists k. split; [by apply lookup_app_l_Some|by rewrite Hs].
    + intros (k & Hk & ->). exists (length req0 + k)%nat. split.
      * by rewrite lookup_app_r, Nat.add_comm, Nat.add_sub by lia.
      * by rewrite Hg, Nat.add_assoc.
Qed.

Lemma OutcomeFor_more env w requested more u r :
  OutcomeFor env w requested u r -> OutcomeFor env w (requested ++ more) u r.
Proof.
  unfold OutcomeFor. destruct (cache w !! u); [done|].
  intros (k & Hk & ->). exists k. split; [by apply lookup_app_l_Some|done].
Qed.

(** The loop of [fetchMultiplePages] from position [i] on, in a call
    that began in [w] and has requested [req0] so far. *)
Lemma fetchLoop_outcome env urls mc n w :
  forall i results w0 req0, (length urls - i <= n)%nat ->
  gets w0 = (gets w + length req0)%nat ->
  trace w0 = trace w ++ map EvGet req0 ->
  (forall u p, cache w !! u = Some p -> cache w0 !! u = Some p) ->
  (forall u p, cache w0 !! u = Some p ->
     cache w !! u = Some p \/
     exists k, req0 !! k = Some u /\
               WebScraper.settled env u (gets w + k) = Ok p) ->
  exists req1 rs,
    snd (WebScraper.fetchLoop env urls mc i results w0) = results ++ rs /\
    trace (fst (WebScraper.fetchLoop env urls mc i results w0))
      = trace w ++ map EvGet (req0 ++ req1) /\
    Forall2 (OutcomeFor env w (req0 ++ req1)) (drop i urls) rs.
Proof.
  induction n as [|n IH]; intros i results w0 req0 Hn Hg Ht Hgrow Hinv;
    rewrite fetchLoop_unfold;
    destruct (decide (i < length urls)%nat) as [Hi|Hi]; try lia.
  1, 3: exists [], []; rewrite !app_nil_r, drop_ge by lia;
        split; [done|]; split; [done|constructor].
  cbn zeta. rewrite slice_take_drop.
  set (batch := take (Pos.to_nat mc) (drop i urls)).
  destruct (fetchBatch_outcome env batch w0)
    as (reqB & HtB & HgB & HinvB & HoutB).
  pose proof (fetchBatch_spec env batch w0) as (_ & [HgrowB _] & _).
  set (b := WebScraper.fetchBatch env batch w0) in *. cbv zeta in HgrowB.
  destruct (IH (i + Pos.to_nat mc)%nat (results ++ snd b) (fst b)
              (req0 ++ reqB)) as (req1 & rs & Hrs & Ht1 & Hout1).
  - lia.
  - rewrite HgB, Hg, length_app. lia.
  - by rewrite HtB, Ht, map_app, app_assoc.
  - intros u p Hu. by apply HgrowB, Hgrow.
  - intros u p Hu. apply HinvB in Hu as [Hu|(k & Hk & Hs)].
    + apply Hinv in Hu as [Hu|(k & Hk & Hs)]; [by left|].
      right. exists k. split; [by apply lookup_app_l_Some|done].
    + right. exists (length req0 + k)%nat. split.
      * by rewrite lookup_app_r, Nat.add_comm, Nat.add_sub by lia.
      * by rewrite Nat.add_assoc, <- Hg.
  - exists (reqB ++ req1), (snd b ++ rs).
    split; [by rewrite Hrs, app_assoc|].
    rewrite app_assoc. split; [done|].
    replace (drop i urls) with (batch ++ drop (i + Pos.to_nat mc) urls)
      by (unfold batch; by rewrite <- drop_drop, take_drop).
    apply Forall2_app; [|done].
    eapply Forall2_impl; [exact HoutB|].
    intros u r Hur. apply OutcomeFor_more.
    by eapply OutcomeFor_rebase.
Qed.

(** C7: [fetchMultiplePages] returns one element per URL, in the order
    of the input.  The element at a position is the page of the URL at
    that position or the error record of that URL: the cached page where
    the URL was cached when the call began, and otherwise what a request
    that the call sent for this URL settled to, its page if it succeeded
    and the record of its failure if it did not, whatever happened to
    the other URLs. *)
Theorem fetchMultiplePages_order env urls maxConcurrent w :
  CacheKeyed w ->
  let w' := fst (WebScraper.fetchMultiplePages env urls maxConcurrent w) in
  let results := snd (WebScraper.fetchMultiplePages env urls maxConcurrent w) in
  length results = length urls /\
  Forall2 ResultFor urls results /\
  (forall i u, urls !! i = Some u ->
     exists r, results !! i = Some r /\
       match r with
       | Fetched p => page_url p = u
       | FetchError u' _ => u' = u
       end) /\
  exists requested,
    trace w' = trace w ++ map EvGet requested /\
    Forall2 (OutcomeFor env w requested) urls results.
Proof.
  intros Hw w' results.
  pose proof (fetchMultiplePages_spec env urls maxConcurrent w)
    as (_ & _ & Hlen & Hfor).
  specialize (Hfor Hw). fold results in Hlen, Hfor.
  split; [done|]. split; [done|]. split.
  { intros i u Hu.
    destruct (Forall2_lookup_l _ _ _ _ _ Hfor Hu) as (r & Hr & HR). eauto. }
  assert (Hg : gets w = (gets w + length (@nil string))%nat)
    by (simpl; lia).
  assert (Ht : trace w = trace w ++ map EvGet [])
    by (simpl; by rewrite app_nil_r).
  destruct (fetchLoop_outcome env urls maxConcurrent (length urls) w 0 [] w []
              ltac:(lia) Hg Ht ltac:(auto) ltac:(auto))
    as (requested & rs & Hrs & Ht' & Hout).
  exists requested. unfold w', results, WebScraper.fetchMultiplePages.
  split; [exact Ht'|]. rewrite Hrs. exact Hout.
Qed.

Lemma fetchMultiplePages_order_witness :
  CacheKeyed Scenario.fresh /\
  let urls :=
    ["https://www.vsf.technology/a"; "https://www.vsf.technology/b";
     "https://www.vsf.technology/c"; "https://www.vsf.technology/d"] in
  let results :=
    snd (WebScraper.fetchMultiplePages Scenario.flaky urls 3 Scenario.fresh) in
  length results = 4%nat /\
  Forall2 ResultFor urls results /\
  exists requested,
    trace (fst (WebScraper.fetchMultiplePages Scenario.flaky urls 3
                  Scenario.fresh))
      = trace Scenario.fresh ++ map EvGet requested /\
    Forall2 (OutcomeFor Scenario.flaky Scenario.fresh requested) urls results.
Proof.
  split; [exact fresh_CacheKeyed|].
  destruct (fetchMultiplePages_order Scenario.flaky
              ["https://www.vsf.technology/a"; "https://www.vsf.technology/b";
               "https://www.vsf.technology/c"; "https://www.vsf.technology/d"]
              3 Scenario.fresh fresh_CacheKeyed)
    as (Hlen & Hfor & _ & Hout).
  split; [exact Hlen|]. split; [exact Hfor|exact Hout].
Defined.
